(** * DHT overlay comparison: Chord, Kademlia and Pastry over an in-process
      network simulator.

    A shallow embedding of [dht_comparison/base.py], [chord.py],
    [kademlia.py] and [pastry.py].

    Python objects are kept in a store indexed by their [node_id] (node ids
    are unique per simulation), and an object is referred to by that index;
    the registry of the [NetworkSimulator] holds the ids of the registered
    objects, so that [get_node i] is the object stored under [i] when [i] is
    registered.  Methods that mutate objects are
    written in a state monad over that store whose results record Python
    exceptions; read-only methods are functions of the store. *)

From Stdlib Require Import ZArith QArith Lia.
From stdpp Require Import gmap strings list sorting pretty.

(* ===================================================================== *)
(** * Results of Python computations                                      *)
(* ===================================================================== *)

(** Exceptions the modelled code can raise.  [Dangling] is not a Python
    exception: it marks a method call on an object that was never
    constructed. *)
Inductive exn :=
  IndexError | AttributeError | TypeError | ValueError | ZeroDivisionError | Dangling.

(** The result of running a piece of code: a value, a raised exception, or
    a loop that did not finish within the fuel it was given. *)
Inductive outcome (A : Type) :=
| Ok (a : A)
| Raise (e : exn)
| OutOfFuel.
Arguments Ok {A} a.
Arguments Raise {A} e.
Arguments OutOfFuel {A}.

#[global] Instance outcome_ret : MRet outcome := λ A a, Ok a.

#[global] Instance outcome_bind : MBind outcome := λ A B f m,
  match m with
  | Ok a => f a
  | Raise e => Raise e
  | OutOfFuel => OutOfFuel
  end.

(** State passing with exceptions: the state reached when the exception is
    raised is kept (mutations made before a raise are visible afterwards). *)
Definition M (S A : Type) : Type := S → S * outcome A.

Definition ret {S A} (a : A) : M S A := λ s, (s, Ok a).

Definition bind {S A B} (m : M S A) (f : A → M S B) : M S B := λ s,
  match m s with
  | (s', Ok a) => f a s'
  | (s', Raise e) => (s', Raise e)
  | (s', OutOfFuel) => (s', OutOfFuel)
  end.

Declare Scope prog_scope.
Delimit Scope prog_scope with prog.
Bind Scope prog_scope with M.

Notation "x <- y ; z" := (bind y (λ x, z))
  (at level 20, y at level 100, z at level 200, only parsing) : prog_scope.
Notation "' x <- y ; z" := (bind y (λ x, z))
  (at level 20, x pattern, y at level 100, z at level 200, only parsing) : prog_scope.
Notation "x ;; z" := (bind x (λ _, z))
  (at level 100, z at level 200, only parsing, right associativity) : prog_scope.
Open Scope prog_scope.

Definition gets {S A} (f : S → A) : M S A := λ s, (s, Ok (f s)).

Definition modify {S} (f : S → S) : M S unit := λ s, (f s, Ok tt).

Definition raise {S A} (e : exn) : M S A := λ s, (s, Raise e).

(** A read-only computation run on the current state. *)
Definition pure_call {S A} (f : S → outcome A) : M S A := λ s, (s, f s).

(** [for x in l: body x] *)
Fixpoint for_each {S A} (l : list A) (body : A → M S unit) : M S unit :=
  match l with
  | [] => ret tt
  | x :: l' => body x ;; for_each l' body
  end.

(** [for x in l: acc = body acc x] with a loop-carried local value. *)
Fixpoint for_fold {S A B} (l : list A) (body : B → A → M S B) (acc : B) : M S B :=
  match l with
  | [] => ret acc
  | x :: l' => acc' <- body acc x; for_fold l' body acc'
  end.

(* ===================================================================== *)
(** * Python list helpers                                                 *)
(* ===================================================================== *)

(** [l[:n]], with Python's meaning of a negative bound. *)
Definition slice_to {A} (n : Z) (l : list A) : list A :=
  if (0 <=? n)%Z then take (Z.to_nat n) l
  else take (length l - Z.to_nat (- n)) l.

(** Insertion of [x] before the first element with a key not below its own. *)
Fixpoint insert_by {A} (key : A → Z) (x : A) (l : list A) : list A :=
  match l with
  | [] => [x]
  | y :: l' => if (key x <=? key y)%Z then x :: y :: l' else y :: insert_by key x l'
  end.

(** [sorted(l, key=key)] / [l.sort(key=key)]: a stable sort. *)
Fixpoint sort_by {A} (key : A → Z) (l : list A) : list A :=
  match l with
  | [] => []
  | x :: l' => insert_by key x (sort_by key l')
  end.

(** [min([best] + l, key=key)]: the first element with the least key. *)
Fixpoint min_by {A} (key : A → Z) (best : A) (l : list A) : A :=
  match l with
  | [] => best
  | y :: l' => min_by key (if (key y <? key best)%Z then y else best) l'
  end.

(** Python's order on pairs of integers: [p < q]. *)
Definition pair_ltb (p q : Z * Z) : bool :=
  (p.1 <? q.1)%Z || ((p.1 =? q.1)%Z && (p.2 <? q.2)%Z).

(** [min([best] + l, key=key)] for a key that is a pair. *)
Fixpoint min_by_pair {A} (key : A → Z * Z) (best : A) (l : list A) : A :=
  match l with
  | [] => best
  | y :: l' => min_by_pair key (if pair_ltb (key y) (key best) then y else best) l'
  end.

(** The position [l[i]] denotes, if any: a negative index counts from the
    end of the list. *)
Definition py_index {A} (l : list A) (i : Z) : option nat :=
  let len := Z.of_nat (length l) in
  if (0 <=? i)%Z then (if (i <? len)%Z then Some (Z.to_nat i) else None)
  else if (- len <=? i)%Z then Some (Z.to_nat (len + i)) else None.

(** [l[i]] *)
Definition getitem {A} (l : list A) (i : Z) : outcome A :=
  match py_index l i ≫= (l !!.) with
  | Some x => Ok x
  | None => Raise IndexError
  end.

(** [l[i] = x] *)
Definition setitem {A} (l : list A) (i : Z) (x : A) : outcome (list A) :=
  match py_index l i with
  | Some j => Ok (<[j := x]> l)
  | None => Raise IndexError
  end.

(** [x in l] *)
Definition mem (x : Z) (l : list Z) : bool := bool_decide (x ∈ l).

(** [l.remove(x)]: drops the first occurrence. *)
Fixpoint remove_first (x : Z) (l : list Z) : list Z :=
  match l with
  | [] => []
  | y :: l' => if (x =? y)%Z then l' else y :: remove_first x l'
  end.

(* ===================================================================== *)
(** * base.py                                                              *)
(* ===================================================================== *)

Record LookupResult := {
  key : Z;
  responsible_node : Z;
  hop_count : Z;
  path : list Z;
  success : bool
}.

(** [NetworkSimulator]: its only attribute is the dict [nodes]; the value
    stored under a key is the object with that [node_id], so the key set
    determines the dict. *)
Record NetworkSimulator := { nodes : gset Z }.

(** [NetworkSimulator.__init__(self)]: no parameter besides [self], so a call
    with keyword arguments raises [TypeError]. *)
Definition NetworkSimulator_init (kwargs : list (string * Q)) : outcome NetworkSimulator :=
  match kwargs with
  | [] => Ok {| nodes := ∅ |}
  | _ :: _ => Raise TypeError
  end.

(** The names defined on a [NetworkSimulator] instance. *)
Definition NetworkSimulator_attrs : list string :=
  ["nodes"; "register"; "unregister"; "get_node"; "node_count"].

Definition hasattr (name : string) : bool :=
  bool_decide (name ∈ NetworkSimulator_attrs).

(** [getattr(network, "per_hop_delay", default)]: the class defines no
    attribute of that name, so the default is the result. *)
Definition getattr_per_hop_delay (net : NetworkSimulator) (default : Q) : Q :=
  default.

(** [getattr(network, "advance_time", None)]: the class defines no method of
    that name. *)
Definition getattr_advance_time (net : NetworkSimulator)
  : option (NetworkSimulator → NetworkSimulator) :=
  None.

Definition register (node_id : Z) (net : NetworkSimulator) : NetworkSimulator :=
  {| nodes := {[node_id]} ∪ nodes net |}.

Definition unregister (node_id : Z) (net : NetworkSimulator) : NetworkSimulator :=
  {| nodes := nodes net ∖ {[node_id]} |}.

Definition node_count (net : NetworkSimulator) : Z := Z.of_nat (size (nodes net)).

(** The simulated world: every constructed node object, and the network
    they share. *)
Record World (Node : Type) := {
  objects : gmap Z Node;
  network : NetworkSimulator
}.
Arguments objects {Node} w.
Arguments network {Node} w.

Definition get_node {Node} (w : World Node) (i : Z) : option Node :=
  if decide (i ∈ nodes (network w)) then objects w !! i else None.

Definition is_live {Node} (w : World Node) (i : Z) : bool :=
  match get_node w i with Some _ => true | None => false end.

(** The current state of the object with identity [r]. *)
Definition deref {Node} (r : Z) : M (World Node) Node := λ w,
  match objects w !! r with
  | Some n => (w, Ok n)
  | None => (w, Raise Dangling)
  end.

(** In-place mutation of the object with identity [r]. *)
Definition update {Node} (r : Z) (f : Node → Node) : M (World Node) unit :=
  modify (λ w, {| objects := alter f r (objects w); network := network w |}).

Definition on_network {Node} (f : NetworkSimulator → NetworkSimulator)
  : M (World Node) unit :=
  modify (λ w, {| objects := objects w; network := f (network w) |}).

(** The world before any node is constructed, over [NetworkSimulator()]. *)
Definition empty_world {Node} : World Node :=
  {| objects := ∅; network := {| nodes := ∅ |} |}.

(** A call whose result is dropped. *)
Definition discard {S A} (m : M S A) : M S unit := _ <- m; ret tt.

(** The worlds a driver can reach from [empty_world] by calls [exec op] of
    the public operations, whether they return or raise. *)
Inductive reachable {Node Op : Type} (exec : Op → M (World Node) unit)
  : World Node → Prop :=
| reachable_init : reachable exec empty_world
| reachable_step w op : reachable exec w → reachable exec (fst (exec op w)).

(** Running a sequence of operations. *)
Definition run {Node Op : Type} (exec : Op → M (World Node) unit) (ops : list Op)
    (w : World Node) : World Node :=
  fold_left (λ w op, fst (exec op w)) ops w.

(** ** Deterministic id and key generators *)

Section Generators.
(** [int(hashlib.sha1(s.encode()).hexdigest(), 16)]: the library hash. *)
Variable sha1_int : string → Z.

Definition hash_key (s : string) (id_bits : Z) : Z :=
  (sha1_int s mod 2 ^ id_bits)%Z.

(** The [while len(ids) < count] loop of both generators, for the strings
    [prefix-seed-i]. *)
Fixpoint generate_loop (fuel : nat) (prefix : string) (count id_bits seed : Z)
    (ids : gset Z) (i : Z) : outcome (gset Z) :=
  if (Z.of_nat (size ids) <? count)%Z then
    match fuel with
    | O => OutOfFuel
    | S fuel' =>
        let h := sha1_int (prefix +:+ pretty seed +:+ "-" +:+ pretty i) in
        generate_loop fuel' prefix count id_bits seed
          ({[ (h mod 2 ^ id_bits)%Z ]} ∪ ids) (i + 1)%Z
    end
  else Ok ids.

Definition sorted_ids (ids : gset Z) : list Z := sort_by (λ x, x) (elements ids).

Definition generate_node_ids (fuel : nat) (count id_bits seed : Z) : outcome (list Z) :=
  ids ← generate_loop fuel "node-" count id_bits seed ∅ 0%Z;
  mret (slice_to count (sorted_ids ids)).

Definition generate_keys (fuel : nat) (count id_bits seed : Z) : outcome (list Z) :=
  keys ← generate_loop fuel "key-" count id_bits seed ∅ 0%Z;
  mret (slice_to count (sorted_ids keys)).

(** The residues the loop has collected once it has hashed the strings for
    [i = 0 .. n-1]. *)
Definition hashed (prefix : string) (id_bits seed : Z) (n : nat) : gset Z :=
  list_to_set
    (map (λ i : nat,
            (sha1_int (prefix +:+ pretty seed +:+ "-" +:+ pretty (Z.of_nat i))
             mod 2 ^ id_bits)%Z)
       (seq 0 n)).

End Generators.

(** What both generators promise of the list they return. *)
Definition is_generated (count m : Z) (ids : list Z) : Prop :=
  Z.of_nat (length ids) = count
  ∧ StronglySorted Z.lt ids
  ∧ Forall (λ x, (0 ≤ x < 2 ^ m)%Z) ids.

(** How a generator [run], given enough fuel for its loop, behaves on the
    strings [prefix-seed-i] hashed by [sha1_int]: it returns once these
    strings have yielded [count] distinct residues and only then, it never
    raises, and the list it returns is the same in every run that ends. *)
Definition generator_spec (sha1_int : string → Z) (prefix : string)
    (count m seed : Z) (run : nat → outcome (list Z)) : Prop :=
  (∀ n, (count ≤ Z.of_nat (size (hashed sha1_int prefix m seed n)))%Z →
     ∃ ids, ∀ fuel, (n ≤ fuel)%nat → run fuel = Ok ids)
  ∧ (∀ fuel ids, run fuel = Ok ids →
       (count ≤ Z.of_nat (size (hashed sha1_int prefix m seed fuel)))%Z
       ∧ (count ≤ 2 ^ m)%Z
       ∧ is_generated count m ids
       ∧ ∀ fuel', (fuel ≤ fuel')%nat → run fuel' = Ok ids)
  ∧ (∀ fuel e, run fuel ≠ Raise e).

(** ** hashlib.sha1

    The library hash the generators call, as FIPS 180 defines it, on the
    bytes of a string. *)

Module hashlib.

(** [x & 0xFFFFFFFF] *)
Definition mask32 (x : Z) : Z := Z.land x 0xFFFFFFFF.

(** Rotation of a 32-bit word to the left. *)
Definition rotl (n x : Z) : Z :=
  mask32 (Z.lor (Z.shiftl x n) (Z.shiftr x (32 - n))).

(** [s.encode()]: the bytes of the string. *)
Definition encode (s : string) : list Z :=
  map (λ c, Z.of_N (Ascii.N_of_ascii c)) (String.list_ascii_of_string s).

(** The [n] bytes of [x], most significant first. *)
Definition be_bytes (n : nat) (x : Z) : list Z :=
  map (λ i : nat, Z.land (Z.shiftr x (8 * Z.of_nat (n - 1 - i))) 0xFF) (seq 0 n).

(** The message, the byte [0x80], zero bytes up to 56 modulo 64, and the
    length of the message in bits on 8 bytes. *)
Definition pad (msg : list Z) : list Z :=
  let len := Z.of_nat (length msg) in
  msg ++ [0x80%Z] ++ replicate (Z.to_nat ((55 - len) mod 64)) 0%Z
      ++ be_bytes 8 (len * 8).

(** The bytes as 32-bit words, most significant byte first. *)
Fixpoint be_words (l : list Z) : list Z :=
  match l with
  | a :: b :: c :: d :: rest =>
      Z.lor (Z.lor (Z.lor (Z.shiftl a 24) (Z.shiftl b 16)) (Z.shiftl c 8)) d
      :: be_words rest
  | _ => []
  end.

Fixpoint blocks (fuel : nat) (words : list Z) : list (list Z) :=
  match fuel, words with
  | S fuel', _ :: _ => take 16 words :: blocks fuel' (drop 16 words)
  | _, _ => []
  end.

(** The message schedule, latest word first: [n] more words after the
    ones of [ws]. *)
Fixpoint extend (n : nat) (ws : list Z) : list Z :=
  match n with
  | O => ws
  | S n' =>
      let w := rotl 1 (Z.lxor (Z.lxor (Z.lxor (nth 2 ws 0%Z) (nth 7 ws 0%Z))
                                 (nth 13 ws 0%Z)) (nth 15 ws 0%Z)) in
      extend n' (w :: ws)
  end.

Definition schedule (block : list Z) : list Z := rev (extend 64 (rev block)).

Definition state : Type := Z * Z * Z * Z * Z.

(** Round [i] of the compression function on the word [w]. *)
Definition round (st : state) (iw : nat * Z) : state :=
  let '(a, b, c, d, e) := st in
  let '(i, w) := iw in
  let '(f, k) :=
    if (i <? 20)%nat then
      (Z.lor (Z.land b c) (Z.land (Z.lxor b 0xFFFFFFFF) d), 0x5A827999%Z)
    else if (i <? 40)%nat then
      (Z.lxor (Z.lxor b c) d, 0x6ED9EBA1%Z)
    else if (i <? 60)%nat then
      (Z.lor (Z.lor (Z.land b c) (Z.land b d)) (Z.land c d), 0x8F1BBCDC%Z)
    else
      (Z.lxor (Z.lxor b c) d, 0xCA62C1D6%Z) in
  (mask32 (rotl 5 a + f + e + k + w), a, rotl 30 b, c, d).

Definition compress (h : state) (block : list Z) : state :=
  let '(h0, h1, h2, h3, h4) := h in
  let '(a, b, c, d, e) := fold_left round (imap (λ i w, (i, w)) (schedule block)) h in
  (mask32 (h0 + a), mask32 (h1 + b), mask32 (h2 + c), mask32 (h3 + d),
   mask32 (h4 + e)).

Definition initial : state :=
  (0x67452301, 0xEFCDAB89, 0x98BADCFE, 0x10325476, 0xC3D2E1F0)%Z.

Definition sha1 (msg : list Z) : state :=
  let words := be_words (pad msg) in
  fold_left compress (blocks (length words) words) initial.

(** [int(hashlib.sha1(s.encode()).hexdigest(), 16)] *)
Definition sha1_int (s : string) : Z :=
  let '(h0, h1, h2, h3, h4) := sha1 (encode s) in
  (h0 * 2 ^ 128 + h1 * 2 ^ 96 + h2 * 2 ^ 64 + h3 * 2 ^ 32 + h4)%Z.

End hashlib.

(* ===================================================================== *)
(** * chord.py                                                             *)
(* ===================================================================== *)

Module Chord.
Section WithValue.
Context {V : Type}.

Record ChordNode := {
  node_id : Z;
  id_bits : Z;
  data : gmap Z V;
  successor : Z;
  predecessor : option Z;
  finger_table : list Z;
  successor_list : list Z;
  successor_list_size : Z
}.

Definition id_space (n : ChordNode) : Z := (2 ^ id_bits n)%Z.

Definition set_data (d : gmap Z V) (n : ChordNode) : ChordNode :=
  {| node_id := node_id n; id_bits := id_bits n; data := d;
     successor := successor n; predecessor := predecessor n;
     finger_table := finger_table n; successor_list := successor_list n;
     successor_list_size := successor_list_size n |}.

Definition set_successor (s : Z) (n : ChordNode) : ChordNode :=
  {| node_id := node_id n; id_bits := id_bits n; data := data n;
     successor := s; predecessor := predecessor n;
     finger_table := finger_table n; successor_list := successor_list n;
     successor_list_size := successor_list_size n |}.

Definition set_predecessor (p : option Z) (n : ChordNode) : ChordNode :=
  {| node_id := node_id n; id_bits := id_bits n; data := data n;
     successor := successor n; predecessor := p;
     finger_table := finger_table n; successor_list := successor_list n;
     successor_list_size := successor_list_size n |}.

Definition set_finger_table (ft : list Z) (n : ChordNode) : ChordNode :=
  {| node_id := node_id n; id_bits := id_bits n; data := data n;
     successor := successor n; predecessor := predecessor n;
     finger_table := ft; successor_list := successor_list n;
     successor_list_size := successor_list_size n |}.

Definition set_successor_list (sl : list Z) (n : ChordNode) : ChordNode :=
  {| node_id := node_id n; id_bits := id_bits n; data := data n;
     successor := successor n; predecessor := predecessor n;
     finger_table := finger_table n; successor_list := sl;
     successor_list_size := successor_list_size n |}.

(** [ChordNode(node_id, network, id_bits)] *)
Definition init (nid bits : Z) : ChordNode :=
  {| node_id := nid; id_bits := bits; data := ∅;
     successor := nid; predecessor := None;
     finger_table := replicate (Z.to_nat bits) nid;
     successor_list := []; successor_list_size := 3 |}.

(** Construction allocates the object; it is not registered yet. *)
Definition new_node (nid bits : Z) : M (World ChordNode) unit :=
  modify (λ w, {| objects := <[nid := init nid bits]> (objects w);
                  network := network w |}).

Definition _in_open (x a b : Z) : bool :=
  if (a =? b)%Z then negb (x =? a)%Z
  else if (a <? b)%Z then (a <? x)%Z && (x <? b)%Z
  else (x >? a)%Z || (x <? b)%Z.

Definition _in_half_open (x a b : Z) : bool :=
  if (a =? b)%Z then true
  else if (a <? b)%Z then (a <? x)%Z && (x <=? b)%Z
  else (x >? a)%Z || (x <=? b)%Z.

(** The body of [_closest_preceding_finger] for the indices [i-1, ..., 0]. *)
Fixpoint cpf_loop (w : World ChordNode) (self : ChordNode) (key : Z) (i : nat)
  : outcome Z :=
  match i with
  | O => Ok (node_id self)
  | S j =>
      match finger_table self !! j with
      | None => Raise IndexError
      | Some f =>
          if negb (f =? node_id self)%Z && _in_open f (node_id self) key
             && is_live w f
          then Ok f
          else cpf_loop w self key j
      end
  end.

Definition _closest_preceding_finger (w : World ChordNode) (self : ChordNode)
    (key : Z) : outcome Z :=
  cpf_loop w self key (Z.to_nat (id_bits self)).

(** The [while hops <= self.id_bits * 2] loop of [lookup]. *)
Fixpoint lookup_loop (fuel : nat) (w : World ChordNode) (self current : ChordNode)
    (key hops : Z) (path : list Z) : outcome LookupResult :=
  if (hops <=? id_bits self * 2)%Z then
    match fuel with
    | O => OutOfFuel
    | S fuel' =>
        if _in_half_open key (node_id current) (successor current) then
          Ok (Build_LookupResult key (successor current) hops path true)
        else
          next_id ← _closest_preceding_finger w current key;
          if (next_id =? node_id current)%Z then
            Ok (Build_LookupResult key (successor current) hops path true)
          else
            match get_node w next_id with
            | None => Ok (Build_LookupResult key (successor current) hops path true)
            | Some next_node =>
                lookup_loop fuel' w self next_node key (hops + 1)%Z (path ++ [next_id])
            end
    end
  else Ok (Build_LookupResult key (-1) hops path false).

(** Iterations the loop of [lookup] can make: [hops] runs over
    [0 .. 2 * id_bits]. *)
Definition lookup_fuel (self : ChordNode) : nat := Z.to_nat (id_bits self * 2 + 1).

Definition lookup (w : World ChordNode) (self : ChordNode) (key : Z)
  : outcome LookupResult :=
  lookup_loop (lookup_fuel self) w self self key 0 [node_id self].

(** [obj.lookup(key)] on the object with identity [r], in the current state. *)
Definition call_lookup (r : Z) (key : Z) : M (World ChordNode) LookupResult :=
  me <- deref r;
  pure_call (λ w, lookup w me key).

(** [obj.finger_table[i] = v] *)
Definition assign_finger (r : Z) (i : nat) (v : Z) : M (World ChordNode) unit :=
  me <- deref r;
  if decide (i < length (finger_table me))%nat
  then update r (set_finger_table (<[i := v]> (finger_table me)))
  else raise IndexError.

(** The [for i in range(1, self.id_bits)] loop of [join]. *)
Definition join_fingers (self bootstrap : Z) (messages : Z) : M (World ChordNode) Z :=
  me <- deref self;
  for_fold (seq 1 (Z.to_nat (id_bits me) - 1))
    (λ messages i,
       me <- deref self;
       let target := ((node_id me + Z.shiftl 1 (Z.of_nat i)) mod id_space me)%Z in
       result <- call_lookup bootstrap target;
       assign_finger self i (responsible_node result) ;;
       ret (messages + (hop_count result + 1))%Z)
    messages.

Definition join (self : Z) (bootstrap_id : option Z) : M (World ChordNode) Z :=
  match bootstrap_id with
  | None =>
      update self (set_predecessor None) ;;
      update self (λ n, set_successor (node_id n) n) ;;
      update self (λ n, set_finger_table
                              (replicate (Z.to_nat (id_bits n)) (node_id n)) n) ;;
      me <- deref self;
      on_network (register (node_id me)) ;;
      ret 0%Z
  | Some b =>
      me <- deref self;
      bootstrap <- gets (λ w, get_node w b);
      match bootstrap with
      | None => raise AttributeError
      | Some _ =>
          let bootstrap := b in
          result <- call_lookup bootstrap (node_id me);
          let messages := (hop_count result + 1)%Z in
          update self (set_successor (responsible_node result)) ;;
          assign_finger self 0 (responsible_node result) ;;
          update self (set_predecessor None) ;;
          messages <- join_fingers self bootstrap messages;
          on_network (register (node_id me)) ;;
          ret messages
      end
  end.

Definition leave (self : Z) : M (World ChordNode) Z :=
  me <- deref self;
  messages <-
    (if negb (successor me =? node_id me)%Z then
       succ <- gets (λ w, get_node w (successor me));
       match succ with
       | Some _ =>
           update (successor me) (set_predecessor (predecessor me)) ;;
           ret 1%Z
       | None => ret 0%Z
       end
     else ret 0%Z);
  me <- deref self;
  messages <-
    (match predecessor me with
     | Some p =>
         if negb (p =? node_id me)%Z then
           pred <- gets (λ w, get_node w p);
           match pred with
           | Some _ =>
               update p (set_successor (successor me)) ;;
               assign_finger p 0 (successor me) ;;
               ret (messages + 1)%Z
           | None => ret messages
           end
         else ret messages
     | None => ret messages
     end);
  me <- deref self;
  (if negb (successor me =? node_id me)%Z then
         succ <- gets (λ w, get_node w (successor me));
         match succ with
         | Some _ => update (successor me) (λ n, set_data (data me ∪ data n) n)
         | None => ret tt
         end
       else ret tt) ;;
  on_network (unregister (node_id me)) ;;
  ret messages.

Definition _notify (self : Z) (candidate_id : Z) : M (World ChordNode) unit :=
  me <- deref self;
  if (candidate_id =? node_id me)%Z then ret tt
  else
    match predecessor me with
    | None => update self (set_predecessor (Some candidate_id))
    | Some p =>
        if _in_open candidate_id p (node_id me)
        then update self (set_predecessor (Some candidate_id))
        else ret tt
    end.

(** The list built by the last loop of [stabilize]. *)
Fixpoint successor_walk (n : nat) (w : World ChordNode) (self_id cur : Z) : list Z :=
  match n with
  | O => []
  | S n' =>
      if (cur =? self_id)%Z then []
      else cur :: match get_node w cur with
                  | None => []
                  | Some node => successor_walk n' w self_id (successor node)
                  end
  end.

(** The part of [stabilize] that follows the choice of a live successor
    [succ]; [x] is [succ.predecessor]. *)
Definition stabilize_rest (self : Z) (x : option Z) : M (World ChordNode) unit :=
  me <- deref self;
  match x with
      | Some x =>
          live <- gets (λ w, is_live w x);
          if negb (x =? node_id me)%Z && live
             && _in_open x (node_id me) (successor me)
          then update self (set_successor x) ;; assign_finger self 0 x
          else ret tt
      | None => ret tt
      end ;;
  me <- deref self;
  succ_node <- gets (λ w, get_node w (successor me));
  match succ_node with
      | Some _ => _notify (successor me) (node_id me)
      | None => ret tt
      end ;;
  for_each (seq 0 (Z.to_nat (id_bits me)))
        (λ i,
           me <- deref self;
           let target := ((node_id me + Z.shiftl 1 (Z.of_nat i)) mod id_space me)%Z in
           result <- call_lookup self target;
           if success result
           then assign_finger self i (responsible_node result)
           else ret tt) ;;
  update self (set_successor_list []) ;;
  me <- deref self;
  walk <- gets (λ w, successor_walk (Z.to_nat (successor_list_size me)) w
                       (node_id me) (successor me));
  update self (set_successor_list walk).

Definition stabilize (self : Z) : M (World ChordNode) unit :=
  me <- deref self;
  succ <- gets (λ w, get_node w (successor me));
  match succ with
  | Some s => stabilize_rest self (predecessor s)
  | None =>
      live_backup <- gets (λ w, find (λ backup, is_live w backup) (successor_list me));
      match live_backup with
      | Some backup =>
          update self (set_successor backup) ;;
          assign_finger self 0 backup ;;
          succ <- gets (λ w, get_node w backup);
          match succ with
          | Some s => stabilize_rest self (predecessor s)
          | None => update self (λ n, set_successor (node_id n) n)
          end
      | None => update self (λ n, set_successor (node_id n) n)
      end
  end.

Definition store (self : Z) (key : Z) (value : V) : M (World ChordNode) bool :=
  result <- call_lookup self key;
  if negb (success result) then ret false
  else
    target <- gets (λ w, get_node w (responsible_node result));
    match target with
    | None => ret false
    | Some _ =>
        update (responsible_node result) (λ n, set_data (<[key := value]> (data n)) n) ;;
        ret true
    end.

Definition retrieve (self : Z) (key : Z) : M (World ChordNode) (option V) :=
  result <- call_lookup self key;
  if negb (success result) then ret None
  else
    target <- gets (λ w, get_node w (responsible_node result));
    match target with
    | None => ret None
    | Some t => ret (data t !! key)
    end.

(** [len(set(self.finger_table) - {self.node_id})] *)
Definition routing_table_size (n : ChordNode) : Z :=
  Z.of_nat (size ((list_to_set (finger_table n) : gset Z) ∖ {[node_id n]})).

(** The public operations of a simulation of Chord nodes.  [New] constructs
    a node object under an id no object has yet. *)
Inductive op :=
| New (nid bits : Z)
| Join (self : Z) (bootstrap_id : option Z)
| Leave (self : Z)
| Lookup (self key : Z)
| Stabilize (self : Z)
| Store (self key : Z) (value : V)
| Retrieve (self key : Z).

Definition exec (o : op) : M (World ChordNode) unit :=
  match o with
  | New nid bits =>
      taken <- gets (λ w, objects w !! nid);
      match taken with None => new_node nid bits | Some _ => ret tt end
  | Join self bootstrap_id => discard (join self bootstrap_id)
  | Leave self => discard (leave self)
  | Lookup self key => discard (call_lookup self key)
  | Stabilize self => stabilize self
  | Store self key value => discard (store self key value)
  | Retrieve self key => discard (retrieve self key)
  end.

End WithValue.
Arguments ChordNode V : clear implicits.
Arguments op V : clear implicits.

(** [ChordNode.ground_truth(key, node_ids)]: the first id not below [key]
    in ascending order, else [sorted_ids[0]]. *)
Definition ground_truth (key : Z) (node_ids : list Z) : outcome Z :=
  let sorted_ids := sort_by (λ nid, nid) node_ids in
  match find (λ nid, (nid >=? key)%Z) sorted_ids with
  | Some nid => Ok nid
  | None => getitem sorted_ids 0
  end.

End Chord.

(* ===================================================================== *)
(** * kademlia.py                                                          *)
(* ===================================================================== *)

Module Kademlia.
Section WithValue.
Context {V : Type}.

Record KademliaNode := {
  node_id : Z;
  id_bits : Z;
  data : gmap Z V;
  k : Z;
  alpha : Z;
  buckets : list (list Z)
}.

Definition set_data (d : gmap Z V) (n : KademliaNode) : KademliaNode :=
  {| node_id := node_id n; id_bits := id_bits n; data := d;
     k := k n; alpha := alpha n; buckets := buckets n |}.

Definition set_buckets (bs : list (list Z)) (n : KademliaNode) : KademliaNode :=
  {| node_id := node_id n; id_bits := id_bits n; data := data n;
     k := k n; alpha := alpha n; buckets := bs |}.

(** [KademliaNode(node_id, network, id_bits, k, alpha)] *)
Definition init (nid bits kk a : Z) : KademliaNode :=
  {| node_id := nid; id_bits := bits; data := ∅; k := kk; alpha := a;
     buckets := replicate (Z.to_nat bits) [] |}.

Definition new_node (nid bits kk a : Z) : M (World KademliaNode) unit :=
  modify (λ w, {| objects := <[nid := init nid bits kk a]> (objects w);
                  network := network w |}).

Definition _distance (a b : Z) : Z := Z.lxor a b.

(** [int.bit_length()] *)
Definition bit_length (z : Z) : Z :=
  if (z =? 0)%Z then 0%Z else (Z.log2 (Z.abs z) + 1)%Z.

Definition _bucket_index (self : KademliaNode) (nid : Z) : Z :=
  let dist := _distance (node_id self) nid in
  if (dist =? 0)%Z then 0%Z else (bit_length dist - 1)%Z.

Definition _update_bucket (self : Z) (nid : Z) : M (World KademliaNode) unit :=
  me <- deref self;
  if (nid =? node_id me)%Z then ret tt
  else
    let idx := Z.to_nat (_bucket_index me nid) in
    match buckets me !! idx with
    | None => raise IndexError
    | Some bucket =>
        if mem nid bucket then
          update self (set_buckets (<[idx := remove_first nid bucket ++ [nid]]> (buckets me)))
        else if (Z.of_nat (length bucket) <? k me)%Z then
          update self (set_buckets (<[idx := bucket ++ [nid]]> (buckets me)))
        else ret tt
    end.

Definition _find_closest_local (self : KademliaNode) (target : Z) (count : option Z)
  : list Z :=
  let count := match count with None => k self | Some c => c end in
  let all_nodes := concat (buckets self) in
  slice_to count (sort_by (λ nid, _distance nid target) all_nodes).

Definition find_node_rpc (self : Z) (target querier_id : Z)
  : M (World KademliaNode) (list Z) :=
  _update_bucket self querier_id ;;
  me <- deref self;
  let closest := _find_closest_local me target None in
  let candidates := closest ++ [node_id me] in
  ret (slice_to (k me) (sort_by (λ nid, _distance nid target) candidates)).

(** The clock step of a lookup round:
    [if getattr(self.network, "per_hop_delay", 0) > 0: ... advance()]. *)
Definition advance_clock : M (World KademliaNode) unit :=
  net <- gets network;
  if negb (Qle_bool (getattr_per_hop_delay net 0) 0) then
    match getattr_advance_time net with
    | Some advance => on_network advance
    | None => ret tt
    end
  else ret tt.

(** The body of [for r in returned]; the loop carries [shortlist] and
    [found_new]. *)
Definition ingest (self : Z) (acc : list Z * bool) (r : Z)
  : M (World KademliaNode) (list Z * bool) :=
  let '(shortlist, found_new) := acc in
  _update_bucket self r ;;
  me <- deref self;
  if negb (mem r shortlist) && negb (r =? node_id me)%Z
  then ret (shortlist ++ [r], true)
  else ret (shortlist, found_new).

(** The body of [for nid in to_query]; the loop carries [shortlist],
    [queried], [path] and [found_new]. *)
Definition query_one (self : Z) (key : Z) (acc : list Z * gset Z * list Z * bool)
    (nid : Z) : M (World KademliaNode) (list Z * gset Z * list Z * bool) :=
  let '(shortlist, queried, path, found_new) := acc in
  let queried := ({[nid]} ∪ queried : gset Z) in
  let path := path ++ [nid] in
  target_node <- gets (λ w, get_node w nid);
  match target_node with
  | None => ret (shortlist, queried, path, found_new)
  | Some _ =>
      me <- deref self;
      returned <- find_node_rpc nid key (node_id me);
      '(shortlist, found_new) <- for_fold returned (ingest self) (shortlist, found_new);
      ret (shortlist, queried, path, found_new)
  end.

(** The [while True] loop of [lookup]; yields the final [shortlist], [path]
    and [hops]. *)
Fixpoint lookup_rounds (fuel : nat) (self : Z) (key : Z) (shortlist : list Z)
    (queried : gset Z) (path : list Z) (hops : Z)
  : M (World KademliaNode) (list Z * list Z * Z) :=
  me <- deref self;
  let to_query := slice_to (alpha me) (filter (λ n, n ∉ queried) shortlist) in
  match to_query with
  | [] => ret (shortlist, path, hops)
  | _ :: _ =>
      match fuel with
      | O => λ w, (w, OutOfFuel)
      | S fuel' =>
          let hops := (hops + 1)%Z in
          advance_clock ;;
          '(shortlist, queried, path, found_new) <-
            for_fold to_query (query_one self key) (shortlist, queried, path, false);
          let shortlist :=
            slice_to (k me) (sort_by (λ n, _distance n key) shortlist) in
          if negb found_new then ret (shortlist, path, hops)
          else if (hops >? id_bits me * 2)%Z then ret (shortlist, path, hops)
          else lookup_rounds fuel' self key shortlist queried path hops
      end
  end.

(** Rounds the loop of [lookup] can make: a round starts only while
    [hops <= 2 * id_bits]. *)
Definition lookup_fuel (self : KademliaNode) : nat := Z.to_nat (id_bits self * 2) + 1.

Definition lookup (self : Z) (key : Z) : M (World KademliaNode) LookupResult :=
  me <- deref self;
  let shortlist := _find_closest_local me key (Some (k me)) in
  match shortlist with
  | [] => ret (Build_LookupResult key (node_id me) 0 [node_id me] true)
  | _ :: _ =>
      '(shortlist, path, hops) <-
        lookup_rounds (lookup_fuel me) self key shortlist {[node_id me]} [node_id me] 0;
      let responsible :=
        match shortlist ++ [node_id me] with
        | c :: rest => min_by (λ n, _distance n key) c rest
        | [] => node_id me
        end in
      ret (Build_LookupResult key responsible hops path true)
  end.

Definition join (self : Z) (bootstrap_id : option Z) : M (World KademliaNode) Z :=
  me <- deref self;
  on_network (register (node_id me)) ;;
  match bootstrap_id with
  | None => ret 0%Z
  | Some b =>
      _update_bucket self b ;;
      result <- lookup self (node_id me);
      ret (hop_count result)
  end.

Definition leave (self : Z) : M (World KademliaNode) Z :=
  me <- deref self;
  on_network (unregister (node_id me)) ;;
  ret 0%Z.

Definition stabilize (self : Z) : M (World KademliaNode) unit :=
  me <- deref self;
  live <- gets (λ w, map (filter (λ nid, is_live w nid)) (buckets me));
  update self (set_buckets live).

Definition store (self : Z) (key : Z) (value : V) : M (World KademliaNode) bool :=
  result <- lookup self key;
  if negb (success result) then ret false
  else
    target <- gets (λ w, get_node w (responsible_node result));
    match target with
    | None => ret false
    | Some _ =>
        update (responsible_node result) (λ n, set_data (<[key := value]> (data n)) n) ;;
        ret true
    end.

Definition retrieve (self : Z) (key : Z) : M (World KademliaNode) (option V) :=
  result <- lookup self key;
  if negb (success result) then ret None
  else
    target <- gets (λ w, get_node w (responsible_node result));
    match target with
    | None => ret None
    | Some t => ret (data t !! key)
    end.

(** [sum(len(b) for b in self.buckets)] *)
Definition routing_table_size (n : KademliaNode) : Z :=
  Z.of_nat (length (concat (buckets n))).

(** The public operations of a simulation of Kademlia nodes. *)
Inductive op :=
| New (nid bits kk a : Z)
| Join (self : Z) (bootstrap_id : option Z)
| Leave (self : Z)
| Lookup (self key : Z)
| Stabilize (self : Z)
| Store (self key : Z) (value : V)
| Retrieve (self key : Z).

Definition exec (o : op) : M (World KademliaNode) unit :=
  match o with
  | New nid bits kk a =>
      taken <- gets (λ w, objects w !! nid);
      match taken with None => new_node nid bits kk a | Some _ => ret tt end
  | Join self bootstrap_id => discard (join self bootstrap_id)
  | Leave self => discard (leave self)
  | Lookup self key => discard (lookup self key)
  | Stabilize self => stabilize self
  | Store self key value => discard (store self key value)
  | Retrieve self key => discard (retrieve self key)
  end.

End WithValue.
Arguments KademliaNode V : clear implicits.
Arguments op V : clear implicits.

(** [KademliaNode.ground_truth(key, node_ids)]; [min] of an empty list
    raises [ValueError]. *)
Definition ground_truth (key : Z) (node_ids : list Z) : outcome Z :=
  match node_ids with
  | [] => Raise ValueError
  | c :: rest => Ok (min_by (λ nid, Z.lxor nid key) c rest)
  end.

End Kademlia.

(* ===================================================================== *)
(** * pastry.py                                                            *)
(* ===================================================================== *)

Module Pastry.
Section WithValue.
Context {V : Type}.

Record PastryNode := {
  node_id : Z;
  id_bits : Z;
  data : gmap Z V;
  b : Z;
  base : Z;
  num_digits : Z;
  leaf_size : Z;
  routing_table : list (list (option Z));
  leaf_set : list Z
}.

(** [2 ** id_bits], an integer for a non-negative [id_bits]; the
    statements that depend on the value of a distance assume as much. *)
Definition id_space (n : PastryNode) : Z := (2 ^ id_bits n)%Z.

Definition set_data (d : gmap Z V) (n : PastryNode) : PastryNode :=
  {| node_id := node_id n; id_bits := id_bits n; data := d; b := b n;
     base := base n; num_digits := num_digits n; leaf_size := leaf_size n;
     routing_table := routing_table n; leaf_set := leaf_set n |}.

Definition set_routing_table (rt : list (list (option Z))) (n : PastryNode)
  : PastryNode :=
  {| node_id := node_id n; id_bits := id_bits n; data := data n; b := b n;
     base := base n; num_digits := num_digits n; leaf_size := leaf_size n;
     routing_table := rt; leaf_set := leaf_set n |}.

Definition set_leaf_set (ls : list Z) (n : PastryNode) : PastryNode :=
  {| node_id := node_id n; id_bits := id_bits n; data := data n; b := b n;
     base := base n; num_digits := num_digits n; leaf_size := leaf_size n;
     routing_table := routing_table n; leaf_set := ls |}.

(** [PastryNode(node_id, network, id_bits, b, leaf_size)]: [1 << b] raises
    for a negative [b], and the division for [b = 0]. *)
Definition init (nid bits bb ls : Z) : outcome PastryNode :=
  if (bb <? 0)%Z then Raise ValueError
  else if (bb =? 0)%Z then Raise ZeroDivisionError
  else
    let base := Z.shiftl 1 bb in
    let num_digits := ((bits + bb - 1) / bb)%Z in
    Ok {| node_id := nid; id_bits := bits; data := ∅; b := bb; base := base;
          num_digits := num_digits; leaf_size := ls;
          routing_table :=
            replicate (Z.to_nat num_digits) (replicate (Z.to_nat base) None);
          leaf_set := [] |}.

Definition new_node (nid bits bb ls : Z) : M (World PastryNode) unit :=
  n <- pure_call (λ _, init nid bits bb ls);
  modify (λ w, {| objects := <[nid := n]> (objects w); network := network w |}).

(** [_get_digit]: a right shift by a negative count raises [ValueError]. *)
Definition _get_digit (self : PastryNode) (nid position : Z) : outcome Z :=
  let shift := ((num_digits self - 1 - position) * b self)%Z in
  if (shift <? 0)%Z then Raise ValueError
  else Ok (Z.land (Z.shiftr nid shift) (base self - 1)).

(** The loop of [_shared_prefix_length] over the positions [idxs]. *)
Fixpoint spl_loop (self : PastryNode) (x y : Z) (idxs : list nat) : outcome Z :=
  match idxs with
  | [] => Ok (num_digits self)
  | i :: rest =>
      dx ← _get_digit self x (Z.of_nat i);
      dy ← _get_digit self y (Z.of_nat i);
      if negb (dx =? dy)%Z then Ok (Z.of_nat i) else spl_loop self x y rest
  end.

Definition _shared_prefix_length (self : PastryNode) (x y : Z) : outcome Z :=
  spl_loop self x y (seq 0 (Z.to_nat (num_digits self))).

Definition _circular_distance (self : PastryNode) (x y : Z) : Z :=
  let diff := Z.abs (x - y) in
  Z.min diff (id_space self - diff).

(** [table[row][col]] *)
Definition cell (table : list (list (option Z))) (row col : Z) : outcome (option Z) :=
  r ← getitem table row;
  getitem r col.

(** [table[row][col] = v] *)
Definition set_cell (table : list (list (option Z))) (row col : Z) (v : option Z)
  : outcome (list (list (option Z))) :=
  r ← getitem table row;
  r' ← setitem r col v;
  setitem table row r'.

(** [obj.routing_table[row][col] = v] *)
Definition assign_cell (r : Z) (row col : Z) (v : option Z) : M (World PastryNode) unit :=
  me <- deref r;
  rt <- pure_call (λ _, set_cell (routing_table me) row col v);
  update r (set_routing_table rt).

Definition _add_to_state (self : Z) (nid : Z) : M (World PastryNode) unit :=
  me <- deref self;
  if (nid =? node_id me)%Z then ret tt
  else
    live <- gets (λ w, is_live w nid);
    if negb live then ret tt
    else
      (if negb (mem nid (leaf_set me)) then
         let appended := leaf_set me ++ [nid] in
         let sorted := sort_by (λ x, _circular_distance me (node_id me) x) appended in
         update self (set_leaf_set sorted) ;;
         if (Z.of_nat (length sorted) >? leaf_size me)%Z
         then update self (set_leaf_set (slice_to (leaf_size me) sorted))
         else ret tt
       else ret tt) ;;
      plen <- pure_call (λ _, _shared_prefix_length me (node_id me) nid);
      if (plen <? num_digits me)%Z then
        digit <- pure_call (λ _, _get_digit me nid plen);
        me <- deref self;
        cur <- pure_call (λ _, cell (routing_table me) plen digit);
        dead <- gets (λ w, match cur with
                           | None => true
                           | Some c => negb (is_live w c)
                           end);
        if dead then assign_cell self plen digit (Some nid) else ret tt
      else ret tt.

(** One candidate of the scan in [_route_next]; the scan carries [best] and
    [best_dist]. *)
Definition consider (w : World PastryNode) (self : PastryNode) (key : Z)
    (acc : option Z * Z) (nid : Z) : option Z * Z :=
  let '(best, best_dist) := acc in
  if negb (is_live w nid) then acc
  else
    let d := _circular_distance self nid key in
    if (d <? best_dist)%Z
       || ((d =? best_dist)%Z
           && match best with Some bst => (nid <? bst)%Z | None => false end)
    then (Some nid, d)
    else acc.

(** The non-empty cells of a routing table, row by row. *)
Definition entries (table : list (list (option Z))) : list Z :=
  omap id (concat table).

Definition _route_next (w : World PastryNode) (self : PastryNode) (key : Z)
  : outcome (option Z) :=
  let my_dist := _circular_distance self (node_id self) key in
  if (my_dist =? 0)%Z then Ok None
  else
    plen ← _shared_prefix_length self (node_id self) key;
    hit ←
      (if (plen <? num_digits self)%Z then
         digit ← _get_digit self key plen;
         entry ← cell (routing_table self) plen digit;
         match entry with
         | Some e => if is_live w e then Ok (Some e) else Ok None
         | None => Ok None
         end
       else Ok None);
    match hit with
    | Some e => Ok (Some e)
    | None =>
        let acc := fold_left (consider w self key) (leaf_set self) (None, my_dist) in
        let acc := fold_left (consider w self key) (entries (routing_table self)) acc in
        Ok (fst acc)
    end.

(** The [while hops <= self.id_bits * 2] loop of [lookup]. *)
Fixpoint lookup_loop (fuel : nat) (w : World PastryNode) (self current : PastryNode)
    (key hops : Z) (path : list Z) (visited : gset Z) : outcome LookupResult :=
  if (hops <=? id_bits self * 2)%Z then
    match fuel with
    | O => OutOfFuel
    | S fuel' =>
        next_hop ← _route_next w current key;
        match next_hop with
        | None => Ok (Build_LookupResult key (node_id current) hops path true)
        | Some nh =>
            if bool_decide (nh ∈ visited) then
              Ok (Build_LookupResult key (node_id current) hops path true)
            else
              match get_node w nh with
              | None => Ok (Build_LookupResult key (node_id current) hops path true)
              | Some next_node =>
                  lookup_loop fuel' w self next_node key (hops + 1)%Z
                    (path ++ [nh]) ({[nh]} ∪ visited)
              end
        end
    end
  else Ok (Build_LookupResult key (node_id current) hops path false).

Definition lookup_fuel (self : PastryNode) : nat := Z.to_nat (id_bits self * 2 + 1).

Definition lookup (w : World PastryNode) (self : PastryNode) (key : Z)
  : outcome LookupResult :=
  lookup_loop (lookup_fuel self) w self self key 0 [node_id self] {[node_id self]}.

Definition call_lookup (r : Z) (key : Z) : M (World PastryNode) LookupResult :=
  me <- deref r;
  pure_call (λ w, lookup w me key).

(** [for row in src.routing_table: for entry in row: if entry is not None:
    self._add_to_state(entry)]; the cells of [src] are read as the loop
    reaches them. *)
Definition learn_routing_table (self src : Z) : M (World PastryNode) unit :=
  s <- deref src;
  for_each (seq 0 (length (routing_table s)))
    (λ i,
       s <- deref src;
       for_each (seq 0 (length (default [] (routing_table s !! i))))
         (λ j,
            s <- deref src;
            match routing_table s !! i ≫= (.!! j) with
            | Some (Some entry) => _add_to_state self entry
            | _ => ret tt
            end)).

(** [for x in ids: self._add_to_state(x)] *)
Definition learn_ids (self : Z) (ids : list Z) : M (World PastryNode) unit :=
  for_each ids (_add_to_state self).

Definition join (self : Z) (bootstrap_id : option Z) : M (World PastryNode) Z :=
  me <- deref self;
  on_network (register (node_id me)) ;;
  match bootstrap_id with
  | None => ret 0%Z
  | Some bid =>
      bootstrap <- gets (λ w, get_node w bid);
      match bootstrap with
      | None => ret 0%Z
      | Some bn =>
          _add_to_state self bid ;;
          learn_ids self (leaf_set bn) ;;
          learn_routing_table self bid ;;
          let messages := 1%Z in
          result <- call_lookup self (node_id me);
          let messages := (messages + hop_count result)%Z in
          messages <-
            for_fold (path result)
              (λ messages nid,
                 if (nid =? node_id me)%Z then ret messages
                 else
                   node <- gets (λ w, get_node w nid);
                   match node with
                   | None => ret messages
                   | Some nd =>
                       learn_ids self (leaf_set nd) ;;
                       learn_routing_table self nid ;;
                       ret (messages + 1)%Z
                   end)
              messages;
          me <- deref self;
          for_fold (leaf_set me)
            (λ messages leaf_id,
               leaf <- gets (λ w, get_node w leaf_id);
               match leaf with
               | Some _ =>
                   _add_to_state leaf_id (node_id me) ;;
                   ret (messages + 1)%Z
               | None => ret messages
               end)
            messages
      end
  end.

(** [row[j] = None] for every [j] with [row[j] == nid]. *)
Definition forget_in_row (nid : Z) (row : list (option Z)) : list (option Z) :=
  map (λ e, match e with
            | Some x => if (x =? nid)%Z then None else Some x
            | None => None
            end) row.

(** The first loop of [leave], from position [i] of [self.leaf_set]; the
    list is read as the loop reaches each position. *)
Fixpoint leave_notify (fuel : nat) (self : Z) (i : nat) (messages : Z)
  : M (World PastryNode) Z :=
  match fuel with
  | O => ret messages
  | S fuel' =>
      me <- deref self;
      match leaf_set me !! i with
      | None => ret messages
      | Some leaf_id =>
          leaf <- gets (λ w, get_node w leaf_id);
          match leaf with
          | None => leave_notify fuel' self (S i) messages
          | Some lf =>
              (if mem (node_id me) (leaf_set lf)
               then update leaf_id
                      (λ n, set_leaf_set (remove_first (node_id me) (leaf_set n)) n)
               else ret tt) ;;
              update leaf_id
                (λ n, set_routing_table
                        (map (forget_in_row (node_id me)) (routing_table n)) n) ;;
              leave_notify fuel' self (S i) (messages + 1)%Z
          end
      end
  end.

Definition leave (self : Z) : M (World PastryNode) Z :=
  me <- deref self;
  messages <- leave_notify (length (leaf_set me)) self 0 0%Z;
  me <- deref self;
  match leaf_set me with
  | [] => ret tt
  | c :: rest =>
      let closest := min_by (λ x, _circular_distance me (node_id me) x) c rest in
      closest_node <- gets (λ w, get_node w closest);
      match closest_node with
      | Some _ => update closest (λ n, set_data (data me ∪ data n) n)
      | None => ret tt
      end
  end ;;
  on_network (unregister (node_id me)) ;;
  ret messages.

Definition stabilize (self : Z) : M (World PastryNode) unit :=
  me <- deref self;
  live <- gets (λ w, filter (λ nid, is_live w nid) (leaf_set me));
  update self (set_leaf_set live) ;;
  for_each (seq 0 (Z.to_nat (num_digits me)))
    (λ i, for_each (seq 0 (Z.to_nat (base me)))
       (λ j,
          me <- deref self;
          entry <- pure_call (λ _, cell (routing_table me) (Z.of_nat i) (Z.of_nat j));
          match entry with
          | Some e =>
              live <- gets (λ w, is_live w e);
              if negb live then assign_cell self (Z.of_nat i) (Z.of_nat j) None
              else ret tt
          | None => ret tt
          end)) ;;
  me <- deref self;
  for_each (leaf_set me)
    (λ leaf_id,
       leaf <- gets (λ w, get_node w leaf_id);
       match leaf with
       | None => ret tt
       | Some lf =>
           learn_ids self (leaf_set lf) ;;
           learn_routing_table self leaf_id
       end).

Definition store (self : Z) (key : Z) (value : V) : M (World PastryNode) bool :=
  result <- call_lookup self key;
  if negb (success result) then ret false
  else
    target <- gets (λ w, get_node w (responsible_node result));
    match target with
    | None => ret false
    | Some _ =>
        update (responsible_node result) (λ n, set_data (<[key := value]> (data n)) n) ;;
        ret true
    end.

Definition retrieve (self : Z) (key : Z) : M (World PastryNode) (option V) :=
  result <- call_lookup self key;
  if negb (success result) then ret None
  else
    target <- gets (λ w, get_node w (responsible_node result));
    match target with
    | None => ret None
    | Some t => ret (data t !! key)
    end.

Definition routing_table_size (n : PastryNode) : Z :=
  (Z.of_nat (length (leaf_set n)) + Z.of_nat (length (entries (routing_table n))))%Z.

(** The public operations of a simulation of Pastry nodes. *)
Inductive op :=
| New (nid bits bb ls : Z)
| Join (self : Z) (bootstrap_id : option Z)
| Leave (self : Z)
| Lookup (self key : Z)
| Stabilize (self : Z)
| Store (self key : Z) (value : V)
| Retrieve (self key : Z).

Definition exec (o : op) : M (World PastryNode) unit :=
  match o with
  | New nid bits bb ls =>
      taken <- gets (λ w, objects w !! nid);
      match taken with None => new_node nid bits bb ls | Some _ => ret tt end
  | Join self bootstrap_id => discard (join self bootstrap_id)
  | Leave self => discard (leave self)
  | Lookup self key => discard (call_lookup self key)
  | Stabilize self => stabilize self
  | Store self key value => discard (store self key value)
  | Retrieve self key => discard (retrieve self key)
  end.

End WithValue.
Arguments PastryNode V : clear implicits.
Arguments op V : clear implicits.

(** The local function [circ] of [ground_truth]. *)
Definition circ (id_space a b : Z) : Z :=
  let diff := Z.abs (a - b) in
  Z.min diff (id_space - diff).

(** [PastryNode.ground_truth(key, node_ids, id_space=65536)] *)
Definition ground_truth (key : Z) (node_ids : list Z) (id_space : option Z)
  : outcome Z :=
  let id_space := default 65536%Z id_space in
  match node_ids with
  | [] => Raise ValueError
  | c :: rest => Ok (min_by_pair (λ nid, (circ id_space nid key, nid)) c rest)
  end.

End Pastry.

(* ===================================================================== *)
(** * Statements: well-formed nodes, the next hop of the design, and the
      simulations used as examples                                         *)
(* ===================================================================== *)

(** ** Weakest preconditions for the state monad

    [wp m Q E s]: run from [s], the computation [m] either returns a value
    [a] in a state [s'] with [Q a s'], or stops (exception or exhausted
    fuel) in a state [s'] with [E s']. *)
Definition wp {S A} (m : M S A) (Q : A → S → Prop) (E : S → Prop) (s : S) : Prop :=
  match m s with
  | (s', Ok a) => Q a s'
  | (s', _) => E s'
  end.

(** [m] keeps the invariant [I], however it ends. *)
Definition preserves {S A} (I : S → Prop) (m : M S A) : Prop :=
  ∀ s, I s → wp m (λ _, I) I s.

(** The world after the object [r] is changed by [f]. *)
Definition updated {Node} (r : Z) (f : Node → Node) (w : World Node) : World Node :=
  {| objects := alter f r (objects w); network := network w |}.

(** [P] holds of every constructed node object. *)
Definition all_nodes {Node} (P : Node → Prop) (w : World Node) : Prop :=
  ∀ i n, objects w !! i = Some n → P n.

(** A Chord node has one finger per identifier bit, as its constructor
    builds it. *)
Definition chord_node_ok {V} (n : Chord.ChordNode V) : Prop :=
  length (Chord.finger_table n) = Z.to_nat (Chord.id_bits n).

(** [r] is the successor of [key] on the ring of the ids [l]: the least id
    of [l] not below [key], or the least id of all when every one is below
    [key]. *)
Definition is_ring_successor (key : Z) (l : list Z) (r : Z) : Prop :=
  r ∈ l
  ∧ (((key ≤ r)%Z ∧ ∀ y, y ∈ l → (key ≤ y)%Z → (r ≤ y)%Z)
     ∨ ((∀ y, y ∈ l → (y < key)%Z) ∧ ∀ y, y ∈ l → (r ≤ y)%Z)).

(** The registered ids, in the order in which the set lists them. *)
Definition live_ids {Node} (w : World Node) : list Z := elements (nodes (network w)).

Section ChordStatements.
Context {V : Type}.

(** The test [_closest_preceding_finger] makes of a finger [f]. *)
Definition precedes (w : World (Chord.ChordNode V)) (n : Chord.ChordNode V)
    (key f : Z) : bool :=
  negb (f =? Chord.node_id n)%Z && Chord._in_open f (Chord.node_id n) key
  && is_live w f.

(** The registered id [i] is held by a node object with at least one finger
    whose [successor] and first finger are the next registered id on the
    ring, as the oracle gives it. *)
Definition chord_ring_node_ok (w : World (Chord.ChordNode V)) (i : Z) : bool :=
  match objects w !! i with
  | Some n =>
      (Chord.node_id n =? i)%Z && (1 <=? Chord.id_bits n)%Z
      && match Chord.ground_truth (i + 1) (live_ids w) with
         | Ok s => (Chord.successor n =? s)%Z
         | _ => false
         end
      && match Chord.finger_table n !! 0%nat with
         | Some f => (f =? Chord.successor n)%Z
         | None => false
         end
  | None => false
  end.

(** [w'] has the registry of [w] and the node objects of [w] up to their
    stored data. *)
Definition chord_data_variant (w w' : World (Chord.ChordNode V)) : Prop :=
  network w' = network w
  ∧ ∀ i, option_Forall2 (λ n' n, ∃ d, n' = Chord.set_data d n)
           (objects w' !! i) (objects w !! i).

(** A ring in which every registered node knows its successor. *)
Definition chord_ring_ok (w : World (Chord.ChordNode V)) : bool :=
  forallb (chord_ring_node_ok w) (live_ids w).

End ChordStatements.

Section KademliaStatements.
Context {V : Type}.

(** The bucket bound of a Kademlia node: one bucket per identifier bit, each
    holding at most [k] ids. *)
Definition kademlia_node_ok (n : Kademlia.KademliaNode V) : Prop :=
  length (Kademlia.buckets n) = Z.to_nat (Kademlia.id_bits n)
  ∧ ((0 ≤ Kademlia.k n)%Z →
     Forall (λ bucket, (Z.of_nat (length bucket) ≤ Kademlia.k n)%Z)
       (Kademlia.buckets n)).

(** [bs] can replace the buckets of [me] without breaking the bucket
    bound. *)
Definition buckets_evolve (me : Kademlia.KademliaNode V) (bs : list (list Z)) : Prop :=
  kademlia_node_ok me → kademlia_node_ok (Kademlia.set_buckets bs me).

(** An invariant of the world that no admissible change of some node's
    buckets can break. *)
Definition bucket_stable (I : World (Kademlia.KademliaNode V) → Prop) : Prop :=
  ∀ w r me bs,
    I w → objects w !! r = Some me → buckets_evolve me bs →
    I (updated r (Kademlia.set_buckets bs) w).

(** What [_update_bucket(nid)] makes of the buckets of [me] when it changes
    them: [nid] is moved, or appended, to the tail of the bucket of its
    distance. *)
Definition bucket_touch (me : Kademlia.KademliaNode V) (nid : Z) (bs : list (list Z))
  : Prop :=
  nid ≠ Kademlia.node_id me
  ∧ ∃ bucket,
      Kademlia.buckets me !! Z.to_nat (Kademlia._bucket_index me nid) = Some bucket
      ∧ ((nid ∈ bucket
          ∧ bs = <[Z.to_nat (Kademlia._bucket_index me nid)
                   := remove_first nid bucket ++ [nid]]> (Kademlia.buckets me))
         ∨ ((nid ∉ bucket) ∧ (Z.of_nat (length bucket) < Kademlia.k me)%Z
            ∧ bs = <[Z.to_nat (Kademlia._bucket_index me nid)
                     := bucket ++ [nid]]> (Kademlia.buckets me))).

(** An invariant of the world that no step of [_update_bucket] breaks. *)
Definition touch_stable (I : World (Kademlia.KademliaNode V) → Prop) : Prop :=
  ∀ w r me nid bs,
    I w → objects w !! r = Some me → bucket_touch me nid bs →
    I (updated r (Kademlia.set_buckets bs) w).

(** The discipline of the buckets: no id twice in a bucket, never the
    node's own id, and every id in the bucket of its distance. *)
Definition kademlia_node_tidy (n : Kademlia.KademliaNode V) : Prop :=
  ∀ i bucket, Kademlia.buckets n !! i = Some bucket →
    NoDup bucket
    ∧ ∀ x, x ∈ bucket →
        x ≠ Kademlia.node_id n ∧ Z.to_nat (Kademlia._bucket_index n x) = i.

(** [x] is an identifier of the space of [m] bits. *)
Definition in_space (m x : Z) : Prop := (0 ≤ x < 2 ^ m)%Z.

(** A Kademlia node of a network over the [m]-bit identifier space: it has
    [m] buckets, and its own id and the ids it knows are in the space. *)
Definition kademlia_ids_ok (m : Z) (n : Kademlia.KademliaNode V) : Prop :=
  Kademlia.id_bits n = m
  ∧ length (Kademlia.buckets n) = Z.to_nat m
  ∧ in_space m (Kademlia.node_id n)
  ∧ Forall (Forall (in_space m)) (Kademlia.buckets n).

(** The invariant of a lookup in such a network, over the node objects
    [D]. *)
Definition kademlia_net_ok (m : Z) (D : gset Z) (w : World (Kademlia.KademliaNode V))
  : Prop :=
  all_nodes (kademlia_ids_ok m) w ∧ dom (objects w) = D.

End KademliaStatements.

Section PastryStatements.
Context {V : Type}.

(** The shape the constructor gives a Pastry node: a non-negative digit
    width, at least one digit value, and a routing table of [num_digits]
    rows of [base] cells. *)
Definition pastry_node_ok (n : Pastry.PastryNode V) : Prop :=
  (0 ≤ Pastry.b n)%Z ∧ (1 ≤ Pastry.base n)%Z
  ∧ length (Pastry.routing_table n) = Z.to_nat (Pastry.num_digits n)
  ∧ Forall (λ row, length row = Z.to_nat (Pastry.base n)) (Pastry.routing_table n).

(** A Pastry node of that shape over an identifier space of a non-negative
    number of bits, so that [id_space] is the integer [2 ^ id_bits]. *)
Definition pastry_node_sized (n : Pastry.PastryNode V) : Prop :=
  pastry_node_ok n ∧ (0 ≤ Pastry.id_bits n)%Z.

(** What the constructor establishes of a Pastry node and every operation
    keeps: the table shape, a positive digit width, the number of digits,
    and a leaf set within its capacity. *)
Definition pastry_node_built (n : Pastry.PastryNode V) : Prop :=
  pastry_node_ok n
  ∧ (1 ≤ Pastry.b n)%Z
  ∧ Pastry.num_digits n = ((Pastry.id_bits n + Pastry.b n - 1) / Pastry.b n)%Z
  ∧ ((0 ≤ Pastry.leaf_size n)%Z →
     (Z.of_nat (length (Pastry.leaf_set n)) ≤ Pastry.leaf_size n)%Z).

(** The discipline of a Pastry node's state: besides the constructor's
    shape, the leaf set holds distinct ids other than the node's own, in
    ascending order of circular distance from the node, and a routing-table
    cell [[i][j]] holds only an id other than the node's own that shares
    exactly [i] leading digits with it and has [j] as its next digit. *)
Definition pastry_node_tidy (n : Pastry.PastryNode V) : Prop :=
  pastry_node_built n
  ∧ (Pastry.node_id n ∉ Pastry.leaf_set n)
  ∧ NoDup (Pastry.leaf_set n)
  ∧ StronglySorted
      (λ x y, (Pastry._circular_distance n (Pastry.node_id n) x
               ≤ Pastry._circular_distance n (Pastry.node_id n) y)%Z)
      (Pastry.leaf_set n)
  ∧ ∀ (i j : nat) row e,
      Pastry.routing_table n !! i = Some row → row !! j = Some (Some e) →
      e ≠ Pastry.node_id n
      ∧ Pastry._shared_prefix_length n (Pastry.node_id n) e = Ok (Z.of_nat i)
      ∧ Pastry._get_digit n e (Z.of_nat i) = Ok (Z.of_nat j).

(** The state of the node [self] while it stabilizes, from the world [w0]
    and the object [me]: the registry is that of [w0], the routing table
    keeps its shape, every leaf is registered, and so is every entry of
    the cells [C] the purge has reached. *)
Definition pastry_purged (w0 : World (Pastry.PastryNode V)) (self : Z)
    (me : Pastry.PastryNode V) (C : nat → nat → Prop)
    (s : World (Pastry.PastryNode V)) : Prop :=
  (∀ x, is_live s x = is_live w0 x)
  ∧ ∃ m, objects s !! self = Some m
      ∧ Pastry.node_id m = Pastry.node_id me
      ∧ Pastry.b m = Pastry.b me ∧ Pastry.base m = Pastry.base me
      ∧ Pastry.num_digits m = Pastry.num_digits me
      ∧ length (Pastry.routing_table m) = Z.to_nat (Pastry.num_digits me)
      ∧ Forall (λ row, length row = Z.to_nat (Pastry.base me)) (Pastry.routing_table m)
      ∧ (∀ x, x ∈ Pastry.leaf_set m → is_live w0 x = true)
      ∧ ∀ (i j : nat) row e,
          C i j → Pastry.routing_table m !! i = Some row →
          row !! j = Some (Some e) → is_live w0 e = true.

(** [w'] has the registry of [w] and the node objects of [w] up to their
    stored data. *)
Definition pastry_data_variant (w w' : World (Pastry.PastryNode V)) : Prop :=
  network w' = network w
  ∧ ∀ i, option_Forall2 (λ n' n, ∃ d, n' = Pastry.set_data d n)
           (objects w' !! i) (objects w !! i).






End PastryStatements.

(** ** Example simulations *)

(** Two Chord nodes; the first leaves, then the second stabilizes. *)
Definition chord_churn_ops : list (Chord.op string) :=
  [Chord.New 1 3; Chord.New 5 3; Chord.Join 1 None; Chord.Join 5 (Some 1%Z);
   Chord.Leave 1; Chord.Stabilize 5].

Definition chord_after_churn : World (Chord.ChordNode string) :=
  run Chord.exec chord_churn_ops empty_world.

(** Eight Chord nodes [0 .. 7] with [id_bits = 3], each knowing only the
    next one. *)
Definition chord_chain_node (i : Z) : Chord.ChordNode string :=
  {| Chord.node_id := i; Chord.id_bits := 3; Chord.data := ∅;
     Chord.successor := (i + 1)%Z; Chord.predecessor := None;
     Chord.finger_table := replicate 3 (i + 1)%Z;
     Chord.successor_list := []; Chord.successor_list_size := 3 |}.

Definition chord_chain : World (Chord.ChordNode string) :=
  {| objects := list_to_map (map (λ i, (i, chord_chain_node i))
                               [0; 1; 2; 3; 4; 5; 6; 7]%Z);
     network := {| nodes := list_to_set [0; 1; 2; 3; 4; 5; 6; 7]%Z |} |}.

(** Three Chord nodes [1], [3] and [6] with [id_bits = 3], joined through
    the first and stabilized in turn, three times. *)
Definition chord_ring_ops : list (Chord.op string) :=
  [Chord.New 1 3; Chord.New 3 3; Chord.New 6 3;
   Chord.Join 1 None; Chord.Join 3 (Some 1%Z); Chord.Join 6 (Some 1%Z);
   Chord.Stabilize 1; Chord.Stabilize 3; Chord.Stabilize 6;
   Chord.Stabilize 1; Chord.Stabilize 3; Chord.Stabilize 6;
   Chord.Stabilize 1; Chord.Stabilize 3; Chord.Stabilize 6].

Definition chord_ring : World (Chord.ChordNode string) :=
  run Chord.exec chord_ring_ops empty_world.

(** The node [1] of [chord_ring]. *)
Definition chord_ring_node : Chord.ChordNode string :=
  {| Chord.node_id := 1; Chord.id_bits := 3; Chord.data := ∅;
     Chord.successor := 3; Chord.predecessor := Some 6%Z;
     Chord.finger_table := [3; 3; 6]%Z;
     Chord.successor_list := [3; 6]%Z; Chord.successor_list_size := 3 |}.

(** [chord_ring] after node [1] has stored a value under the key [1], for
    which it is responsible itself. *)
Definition chord_ring_stored : World (Chord.ChordNode string) :=
  run Chord.exec [Chord.Store 1 1 "v"] chord_ring.

(** A Chord node of 3 identifier bits, constructed and not yet joined. *)
Definition chord_fresh : World (Chord.ChordNode string) :=
  run Chord.exec [Chord.New 5 3] empty_world.

(** Eight Kademlia nodes [0 .. 7] with [id_bits = 3], [k = 8], [alpha = 1];
    node [i] joins through [i + 1] before that node is registered, so it
    knows [i + 1] only. *)
Definition kademlia_chain_ops : list (Kademlia.op string) :=
  flat_map (λ i, [Kademlia.New i 3 8 1; Kademlia.Join i (Some (i + 1)%Z)])
    [0; 1; 2; 3; 4; 5; 6]%Z
  ++ [Kademlia.New 7 3 8 1; Kademlia.Join 7 None].

Definition kademlia_chain : World (Kademlia.KademliaNode string) :=
  run Kademlia.exec kademlia_chain_ops empty_world.

(** A Kademlia node and a Pastry node with the default parameters, each
    alone in its world and not yet joined. *)
Definition kademlia_fresh : World (Kademlia.KademliaNode string) :=
  run Kademlia.exec [Kademlia.New 0 16 8 3] empty_world.

Definition pastry_fresh : World (Pastry.PastryNode string) :=
  run Pastry.exec [Pastry.New 0 16 4 8] empty_world.

(** The three Pastry nodes [0x0100], [0x0200] and [0xFF00], joined through
    the first and stabilized once. *)
Definition pastry_trio_ops : list (Pastry.op string) :=
  [Pastry.New 256 16 4 8; Pastry.New 512 16 4 8; Pastry.New 65280 16 4 8;
   Pastry.Join 256 None; Pastry.Join 512 (Some 256%Z); Pastry.Join 65280 (Some 256%Z);
   Pastry.Stabilize 256; Pastry.Stabilize 512; Pastry.Stabilize 65280].

Definition pastry_trio : World (Pastry.PastryNode string) :=
  run Pastry.exec pastry_trio_ops empty_world.


(** The node 5 of [chord_after_churn] and the node 0 of [kademlia_chain]. *)
Definition chord_after_churn_node : Chord.ChordNode string :=
  {| Chord.node_id := 5; Chord.id_bits := 3; Chord.data := ∅;
     Chord.successor := 5; Chord.predecessor := None;
     Chord.finger_table := [1; 1; 1]%Z;
     Chord.successor_list := []; Chord.successor_list_size := 3 |}.

Definition kademlia_chain_node : Kademlia.KademliaNode string :=
  {| Kademlia.node_id := 0; Kademlia.id_bits := 3; Kademlia.data := ∅;
     Kademlia.k := 8; Kademlia.alpha := 1;
     Kademlia.buckets := [[1%Z]; []; []] |}.

(** The node of [pastry_fresh]. *)
Definition pastry_fresh_node : Pastry.PastryNode string :=
  {| Pastry.node_id := 0; Pastry.id_bits := 16; Pastry.data := ∅;
     Pastry.b := 4; Pastry.base := 16; Pastry.num_digits := 4;
     Pastry.leaf_size := 8;
     Pastry.routing_table := replicate 4 (replicate 16 None);
     Pastry.leaf_set := [] |}.

(** A stand-in for the library hash, for running the generators: the
    length of the string. *)
Definition length_hash (s : string) : Z := Z.of_nat (String.length s).

(** The node [0x0200] of [pastry_trio]. *)
Definition pastry_trio_node : Pastry.PastryNode string :=
  {| Pastry.node_id := 512; Pastry.id_bits := 16; Pastry.data := ∅;
     Pastry.b := 4; Pastry.base := 16; Pastry.num_digits := 4;
     Pastry.leaf_size := 8;
     Pastry.routing_table :=
       [ <[15%nat := Some 65280%Z]> (replicate 16 None);
         <[1%nat := Some 256%Z]> (replicate 16 None);
         replicate 16 None; replicate 16 None ];
     Pastry.leaf_set := [256; 65280]%Z |}.

(* ===================================================================== *)
(** * Proofs                                                                *)
(* ===================================================================== *)
(** ** Python list helpers *)

Lemma insert_by_perm {A} (key : A → Z) x l : insert_by key x l ≡ₚ x :: l.
Proof.
  induction l as [|y l IH]; simpl; [done|].
  destruct (key x <=? key y)%Z; [done|].
  rewrite IH. apply Permutation_swap.
Qed.

Lemma sort_by_perm {A} (key : A → Z) l : sort_by key l ≡ₚ l.
Proof.
  induction l as [|x l IH]; simpl; [done|].
  by rewrite insert_by_perm, IH.
Qed.

Lemma sort_by_elem {A} (key : A → Z) l x : x ∈ sort_by key l ↔ x ∈ l.
Proof. by rewrite sort_by_perm. Qed.

Lemma sort_by_length {A} (key : A → Z) l : length (sort_by key l) = length l.
Proof. by rewrite sort_by_perm. Qed.

Lemma slice_to_sublist {A} n (l : list A) : slice_to n l `sublist_of` l.
Proof. unfold slice_to. destruct (0 <=? n)%Z; apply sublist_take. Qed.

Lemma slice_to_elem {A} n (l : list A) x : x ∈ slice_to n l → x ∈ l.
Proof. intros H. eapply elem_of_sublist; [done | apply slice_to_sublist]. Qed.

Lemma slice_to_length_le {A} n (l : list A) : (length (slice_to n l) ≤ length l)%nat.
Proof. apply sublist_length, slice_to_sublist. Qed.

Lemma slice_to_length_bound {A} n (l : list A) :
  (0 ≤ n)%Z → (Z.of_nat (length (slice_to n l)) ≤ n)%Z.
Proof.
  intros Hn. unfold slice_to.
  destruct (Z.leb_spec 0 n); [|lia].
  rewrite length_take. lia.
Qed.

Lemma min_by_elem {A} (key : A → Z) best l : min_by key best l ∈ best :: l.
Proof.
  revert best. induction l as [|y l IH]; intros best; simpl; [set_solver|].
  specialize (IH (if (key y <? key best)%Z then y else best)).
  destruct (key y <? key best)%Z; set_solver.
Qed.

Lemma remove_first_sublist x l : remove_first x l `sublist_of` l.
Proof.
  induction l as [|y l IH]; simpl; [done|].
  destruct (x =? y)%Z; [by apply sublist_cons | by apply sublist_skip].
Qed.

Lemma remove_first_length x l : x ∈ l → S (length (remove_first x l)) = length l.
Proof.
  induction l as [|y l IH]; simpl; [by intros ?%elem_of_nil|].
  intros Hin. destruct (Z.eqb_spec x y); [done|].
  simpl. f_equal. apply IH. set_solver.
Qed.

(** ** Pastry: digits, prefixes and routing-table cells *)

Lemma land_upper_bound (a m : Z) : (0 ≤ m → 0 ≤ Z.land a m ≤ m)%Z.
Proof.
  intros Hm. split; [apply Z.land_nonneg; by right|].
  pose proof (Z.lor_ldiff_and m a) as Hsplit.
  pose proof (Z.add_lor_land (Z.ldiff m a) (Z.land m a)) as Hadd.
  assert (Z.land (Z.ldiff m a) (Z.land m a) = 0%Z) as Hdisj.
  { apply Z.bits_inj'. intros i Hi.
    rewrite !Z.land_spec, Z.ldiff_spec, Z.bits_0.
    destruct (Z.testbit m i), (Z.testbit a i); done. }
  assert (0 ≤ Z.ldiff m a)%Z by (apply Z.ldiff_nonneg; by left).
  rewrite (Z.land_comm a m). lia.
Qed.

Lemma elem_of_concat {A} (l : list (list A)) (x : A) :
  x ∈ concat l ↔ ∃ b, b ∈ l ∧ x ∈ b.
Proof.
  induction l as [|b l IH]; simpl.
  - split; [by intros ?%elem_of_nil|]. by intros (b & ?%elem_of_nil & _).
  - rewrite elem_of_app, IH. split.
    + intros [Hx|(b' & Hb' & Hx)]; [exists b|exists b']; set_solver.
    + intros (b' & [->|Hb']%elem_of_cons & Hx); [by left|right; by exists b'].
Qed.

Lemma elem_of_entries (table : list (list (option Z))) (e : Z) :
  e ∈ Pastry.entries table ↔
  ∃ (i j : nat) row, table !! i = Some row ∧ row !! j = Some (Some e).
Proof.
  unfold Pastry.entries. rewrite list_elem_of_omap. split.
  - intros (x & (row & Hrow & Hx)%elem_of_concat & Hid). simpl in Hid. subst x.
    apply list_elem_of_lookup in Hrow as [i Hi].
    apply list_elem_of_lookup in Hx as [j Hj]. by exists i, j, row.
  - intros (i & j & row & Hi & Hj). exists (Some e). split; [|done].
    apply elem_of_concat. exists row.
    split; by eapply list_elem_of_lookup_2.
Qed.

Section PastryFacts.
Context {V : Type}.
Implicit Types (self n : Pastry.PastryNode V) (w : World (Pastry.PastryNode V)).

Lemma get_digit_ok self x pos :
  pastry_node_ok self → (0 ≤ pos < Pastry.num_digits self)%Z →
  ∃ d, Pastry._get_digit self x pos = Ok d ∧ (0 ≤ d < Pastry.base self)%Z.
Proof.
  intros (Hb & Hbase & _) Hpos. unfold Pastry._get_digit.
  destruct (Z.ltb_spec ((Pastry.num_digits self - 1 - pos) * Pastry.b self) 0); [nia|].
  eexists; split; [done|].
  pose proof (land_upper_bound
    (x ≫ ((Pastry.num_digits self - 1 - pos) * Pastry.b self)) (Pastry.base self - 1)).
  lia.
Qed.

Lemma spl_loop_ok self x y idxs :
  pastry_node_ok self →
  Forall (λ i, (Z.of_nat i < Pastry.num_digits self)%Z) idxs →
  ∃ plen, Pastry.spl_loop self x y idxs = Ok plen
          ∧ (plen = Pastry.num_digits self ∨ 0 ≤ plen < Pastry.num_digits self)%Z.
Proof.
  intros Hok. induction 1 as [|i idxs Hi _ IH]; simpl.
  - exists (Pastry.num_digits self). split; [done|by left].
  - destruct (get_digit_ok self x (Z.of_nat i)) as (dx & -> & _); [done|lia|].
    destruct (get_digit_ok self y (Z.of_nat i)) as (dy & -> & _); [done|lia|].
    simpl. destruct (negb (dx =? dy)%Z); [|done].
    exists (Z.of_nat i). split; [done|lia].
Qed.

Lemma shared_prefix_length_ok self x y :
  pastry_node_ok self →
  ∃ plen, Pastry._shared_prefix_length self x y = Ok plen
          ∧ (plen = Pastry.num_digits self ∨ 0 ≤ plen < Pastry.num_digits self)%Z.
Proof.
  intros Hok. apply spl_loop_ok; [done|].
  apply Forall_forall. intros i Hi%elem_of_seq. lia.
Qed.

Lemma getitem_ok {A} (l : list A) i :
  (0 ≤ i < Z.of_nat (length l))%Z →
  ∃ x, getitem l i = Ok x ∧ l !! Z.to_nat i = Some x.
Proof.
  intros Hi. unfold getitem, py_index.
  destruct (Z.leb_spec 0 i); [|lia]. destruct (Z.ltb_spec i (Z.of_nat (length l))); [|lia].
  simpl. destruct (lookup_lt_is_Some_2 l (Z.to_nat i)) as [x Hx]; [lia|].
  rewrite Hx. eauto.
Qed.

Lemma cell_ok self row col :
  pastry_node_ok self →
  (0 ≤ row < Pastry.num_digits self)%Z → (0 ≤ col < Pastry.base self)%Z →
  ∃ e, Pastry.cell (Pastry.routing_table self) row col = Ok e.
Proof.
  intros (_ & _ & Hrows & Hcols) Hrow Hcol. unfold Pastry.cell.
  destruct (getitem_ok (Pastry.routing_table self) row) as (r & -> & Hr); [lia|].
  simpl. rewrite Forall_forall in Hcols.
  destruct (getitem_ok r col) as (e & -> & _); [|by eauto].
  rewrite (Hcols r); [lia|]. by eapply list_elem_of_lookup_2.
Qed.

(** ** Pastry: the scan of [_route_next] *)





End PastryFacts.

(** ** Lookups of Chord and Pastry *)

Lemma get_node_Some {Node} (w : World Node) i n :
  get_node w i = Some n → objects w !! i = Some n ∧ i ∈ nodes (network w).
Proof. unfold get_node. by case_decide. Qed.

Lemma all_nodes_get_node {Node} (P : Node → Prop) (w : World Node) i n :
  all_nodes P w → get_node w i = Some n → P n.
Proof. intros Hall [Hn _]%get_node_Some. by eapply Hall. Qed.

Section ChordFacts.
Context {V : Type}.
Implicit Types (self n : Chord.ChordNode V) (w : World (Chord.ChordNode V)).

Lemma chord_cpf_loop_ok w n key i :
  (i ≤ length (Chord.finger_table n))%nat → ∃ f, Chord.cpf_loop w n key i = Ok f.
Proof.
  induction i as [|j IH]; intros Hi; simpl; [by eauto|].
  destruct (lookup_lt_is_Some_2 (Chord.finger_table n) j) as [f ->]; [lia|].
  destruct (_ && _); [by eauto|]. apply IH. lia.
Qed.

Lemma chord_closest_preceding_finger_ok w n key :
  chord_node_ok n → ∃ f, Chord._closest_preceding_finger w n key = Ok f.
Proof. intros Hn. apply chord_cpf_loop_ok. unfold chord_node_ok in Hn. lia. Qed.

Lemma chord_lookup_loop_total fuel w self cur key hops path :
  all_nodes chord_node_ok w → chord_node_ok cur →
  (Chord.id_bits self * 2 + 1 - hops ≤ Z.of_nat fuel)%Z →
  ∃ r, Chord.lookup_loop fuel w self cur key hops path = Ok r.
Proof.
  intros Hw. revert cur hops path.
  induction fuel as [|fuel IH]; intros cur hops path Hcur Hfuel; simpl.
  - destruct (Z.leb_spec hops (Chord.id_bits self * 2)); [lia|by eauto].
  - destruct (Z.leb_spec hops (Chord.id_bits self * 2)); [|by eauto].
    destruct (Chord._in_half_open _ _ _); [by eauto|].
    destruct (chord_closest_preceding_finger_ok w cur key Hcur) as [f ->]. simpl.
    destruct (f =? Chord.node_id cur)%Z; [by eauto|].
    destruct (get_node w f) as [next|] eqn:Hnext; [|by eauto].
    apply IH; [by eapply all_nodes_get_node|lia].
Qed.

Lemma chord_lookup_loop_result fuel w self cur key hops path r :
  Chord.lookup_loop fuel w self cur key hops path = Ok r →
  (success r = true ∧ hop_count r ≤ Chord.id_bits self * 2)%Z
  ∨ (success r = false ∧ Chord.id_bits self * 2 < hop_count r
     ∧ responsible_node r = (-1))%Z.
Proof.
  revert cur hops path.
  induction fuel as [|fuel IH]; intros cur hops path; simpl.
  - destruct (Z.leb_spec hops (Chord.id_bits self * 2)); [done|].
    intros [= <-]. simpl. right. split_and!; [done|lia|done].
  - destruct (Z.leb_spec hops (Chord.id_bits self * 2)).
    2:{ intros [= <-]. simpl. right. split_and!; [done|lia|done]. }
    destruct (Chord._in_half_open _ _ _).
    { intros [= <-]. simpl. by left. }
    destruct (Chord._closest_preceding_finger w cur key) as [f| |]; simpl; [|done..].
    destruct (f =? Chord.node_id cur)%Z.
    { intros [= <-]. simpl. by left. }
    destruct (get_node w f) as [next|].
    + apply IH.
    + intros [= <-]. simpl. by left.
Qed.

End ChordFacts.

Section PastryLookup.
Context {V : Type}.
Implicit Types (self n : Pastry.PastryNode V) (w : World (Pastry.PastryNode V)).

Lemma pastry_route_next_ok w n key :
  pastry_node_ok n → ∃ r, Pastry._route_next w n key = Ok r.
Proof.
  intros Hok. unfold Pastry._route_next.
  destruct (_ =? 0)%Z; [by eauto|].
  destruct (shared_prefix_length_ok n (Pastry.node_id n) key Hok)
    as (plen & -> & Hrange). simpl.
  destruct (Z.ltb_spec plen (Pastry.num_digits n)) as [Hlt|Hge]; simpl; [|by eauto].
  destruct (get_digit_ok n key plen Hok) as (digit & -> & Hdrange); [lia|]. simpl.
  destruct (cell_ok n plen digit Hok) as (entry & ->); [lia|done|]. simpl.
  destruct entry as [e|]; simpl; [|by eauto].
  destruct (is_live w e); simpl; by eauto.
Qed.

Lemma pastry_lookup_loop_total fuel w self cur key hops path visited :
  all_nodes pastry_node_ok w → pastry_node_ok cur →
  (Pastry.id_bits self * 2 + 1 - hops ≤ Z.of_nat fuel)%Z →
  ∃ r, Pastry.lookup_loop fuel w self cur key hops path visited = Ok r.
Proof.
  intros Hw. revert cur hops path visited.
  induction fuel as [|fuel IH]; intros cur hops path visited Hcur Hfuel; simpl.
  - destruct (Z.leb_spec hops (Pastry.id_bits self * 2)); [lia|by eauto].
  - destruct (Z.leb_spec hops (Pastry.id_bits self * 2)); [|by eauto].
    destruct (pastry_route_next_ok w cur key Hcur) as [[nh|] ->]; simpl; [|by eauto].
    case_bool_decide; [by eauto|].
    destruct (get_node w nh) as [next|] eqn:Hnext; [|by eauto].
    apply IH; [by eapply all_nodes_get_node|lia].
Qed.

Lemma pastry_lookup_loop_result fuel w self cur key hops path visited r :
  Pastry.lookup_loop fuel w self cur key hops path visited = Ok r →
  (success r = true ∧ hop_count r ≤ Pastry.id_bits self * 2)%Z
  ∨ (success r = false ∧ Pastry.id_bits self * 2 < hop_count r)%Z.
Proof.
  revert cur hops path visited.
  induction fuel as [|fuel IH]; intros cur hops path visited; simpl.
  - destruct (Z.leb_spec hops (Pastry.id_bits self * 2)); [done|].
    intros [= <-]. simpl. right. split; [done|lia].
  - destruct (Z.leb_spec hops (Pastry.id_bits self * 2)).
    2:{ intros [= <-]. simpl. right. split; [done|lia]. }
    destruct (Pastry._route_next w cur key) as [[nh|]| |]; simpl; [| |done..].
    2:{ intros [= <-]. simpl. by left. }
    case_bool_decide.
    { intros [= <-]. simpl. by left. }
    destruct (get_node w nh) as [next|].
    + apply IH.
    + intros [= <-]. simpl. by left.
Qed.

Lemma pastry_lookup_loop_path fuel w self cur key hops pth visited r :
  Pastry.lookup_loop fuel w self cur key hops pth visited = Ok r →
  NoDup pth → (∀ x, x ∈ pth → x ∈ visited) → NoDup (path r).
Proof.
  revert cur hops pth visited.
  induction fuel as [|fuel IH]; intros cur hops pth visited; simpl.
  - destruct (_ <=? _)%Z; [done|]. by intros [= <-].
  - destruct (_ <=? _)%Z; [|by intros [= <-]].
    destruct (Pastry._route_next w cur key) as [[nh|]| |]; simpl; [| |done..].
    2:{ by intros [= <-]. }
    case_bool_decide as Hnh; [by intros [= <-]|].
    destruct (get_node w nh) as [next|]; [|by intros [= <-]].
    intros Hr Hnodup Hsub. eapply IH; [done| |].
    + apply NoDup_app. split_and!; [done| |apply NoDup_singleton].
      intros x Hx ->%list_elem_of_singleton. by apply Hnh, Hsub.
    + intros x [Hx| ->%list_elem_of_singleton]%elem_of_app; [|set_solver].
      specialize (Hsub x Hx). set_solver.
Qed.

(** C10.  The path of every result of [PastryNode.lookup] has pairwise
    distinct entries. *)
Theorem pastry_lookup_path_distinct w self key r :
  Pastry.lookup w self key = Ok r → NoDup (path r).
Proof.
  intros Hr. eapply pastry_lookup_loop_path; [done|apply NoDup_singleton|].
  intros x ->%list_elem_of_singleton. set_solver.
Qed.

End PastryLookup.

(** ** Rules for weakest preconditions *)

Section WpRules.
Context {S : Type}.
Implicit Types (s : S) (E : S → Prop).

Lemma wp_ret {A} (a : A) (Q : A → S → Prop) E s : Q a s → wp (ret a) Q E s.
Proof. done. Qed.

Lemma wp_bind {A B} (m : M S A) (f : A → M S B) (Q : B → S → Prop) E s :
  wp m (λ a s', wp (f a) Q E s') E s → wp (bind m f) Q E s.
Proof. unfold wp, bind. by destruct (m s) as [s' [a|e|]]. Qed.

Lemma wp_gets {A} (f : S → A) (Q : A → S → Prop) E s : Q (f s) s → wp (gets f) Q E s.
Proof. done. Qed.

Lemma wp_modify (f : S → S) (Q : unit → S → Prop) E s : Q tt (f s) → wp (modify f) Q E s.
Proof. done. Qed.

Lemma wp_raise {A} e (Q : A → S → Prop) E s : E s → wp (raise e) Q E s.
Proof. done. Qed.

Lemma wp_pure_call {A} (f : S → outcome A) (Q : A → S → Prop) E s :
  match f s with Ok a => Q a s | _ => E s end → wp (pure_call f) Q E s.
Proof. unfold wp, pure_call. by destruct (f s). Qed.

Lemma wp_mono {A} (m : M S A) (Q Q' : A → S → Prop) E E' s :
  wp m Q E s → (∀ a s', Q a s' → Q' a s') → (∀ s', E s' → E' s') → wp m Q' E' s.
Proof. unfold wp. destruct (m s) as [s' [a|e|]]; auto. Qed.

Lemma wp_discard {A} (m : M S A) (Q : unit → S → Prop) E s :
  wp m (λ _, Q tt) E s → wp (discard m) Q E s.
Proof. intros H. by apply wp_bind. Qed.

Lemma wp_for_each {A} (I : S → Prop) (l : list A) (body : A → M S unit)
    (Q : unit → S → Prop) E s :
  I s →
  (∀ x s', x ∈ l → I s' → wp (body x) (λ _, I) E s') →
  (∀ s', I s' → Q tt s') →
  wp (for_each l body) Q E s.
Proof.
  intros Hs Hbody HQ. revert s Hs.
  induction l as [|x l IH]; intros s Hs; simpl.
  - by apply wp_ret, HQ.
  - apply wp_bind. eapply wp_mono; [apply (Hbody x s); [set_solver|done]| |done].
    intros [] s' Hs'. apply IH; [|done].
    intros y s'' Hy. apply Hbody. set_solver.
Qed.

Lemma wp_for_fold {A B} (I : B → S → Prop) (l : list A) (body : B → A → M S B)
    (acc : B) (Q : B → S → Prop) E s :
  I acc s →
  (∀ acc x s', x ∈ l → I acc s' → wp (body acc x) I E s') →
  (∀ acc s', I acc s' → Q acc s') →
  wp (for_fold l body acc) Q E s.
Proof.
  intros Hs Hbody HQ. revert acc s Hs.
  induction l as [|x l IH]; intros acc s Hs; simpl.
  - by apply wp_ret, HQ.
  - apply wp_bind. eapply wp_mono; [apply (Hbody acc x s); [set_solver|done]| |done].
    intros acc' s' Hs'. apply IH; [|done].
    intros acc'' y s'' Hy. apply Hbody. set_solver.
Qed.

Lemma wp_elim {A} (m : M S A) (Q : A → S → Prop) E s s' a :
  wp m Q E s → m s = (s', Ok a) → Q a s'.
Proof. unfold wp. intros H Heq. by rewrite Heq in H. Qed.

Lemma wp_final {A} (m : M S A) (I : S → Prop) s :
  wp m (λ _, I) I s → I (fst (m s)).
Proof. unfold wp. by destruct (m s) as [s' [a|e|]]. Qed.

End WpRules.

Section WpWorld.
Context {Node : Type}.
Implicit Types (w : World Node).

Lemma wp_deref r (Q : Node → World Node → Prop) E w :
  (∀ n, objects w !! r = Some n → Q n w) → (objects w !! r = None → E w) →
  wp (deref r) Q E w.
Proof. unfold wp, deref. destruct (objects w !! r); auto. Qed.

Lemma wp_update r f (Q : unit → World Node → Prop) E w :
  Q tt (updated r f w) → wp (update r f) Q E w.
Proof. done. Qed.

Lemma wp_on_network f (Q : unit → World Node → Prop) E w :
  Q tt {| objects := objects w; network := f (network w) |} →
  wp (on_network f) Q E w.
Proof. done. Qed.

Lemma all_nodes_updated (P : Node → Prop) r f w :
  all_nodes P w → (∀ n, objects w !! r = Some n → P n → P (f n)) →
  all_nodes P (updated r f w).
Proof.
  intros Hall Hf i n. unfold updated. simpl. rewrite lookup_alter.
  case_decide as Hi; [|by apply Hall].
  subst i. destruct (objects w !! r) as [n0|] eqn:Hr; simpl; [|done].
  intros [= <-]. apply Hf; [done|]. by eapply Hall.
Qed.

Lemma all_nodes_inserted (P : Node → Prop) r n w :
  all_nodes P w → P n →
  all_nodes P {| objects := <[r := n]> (objects w); network := network w |}.
Proof.
  intros Hall Hn i n'. simpl. rewrite lookup_insert.
  case_decide; [by intros [= <-]|by apply Hall].
Qed.

End WpWorld.

(** One step of symbolic execution of a monadic program. *)
Ltac wp_step :=
  lazymatch goal with
  | |- wp (bind _ _) _ _ _ => apply wp_bind
  | |- wp (ret _) _ _ _ => apply wp_ret
  | |- wp (gets _) _ _ _ => apply wp_gets
  | |- wp (modify _) _ _ _ => apply wp_modify
  | |- wp (raise _) _ _ _ => apply wp_raise
  | |- wp (update _ _) _ _ _ => apply wp_update
  | |- wp (on_network _) _ _ _ => apply wp_on_network
  | |- wp (discard _) _ _ _ => apply wp_discard
  | |- wp (deref _) _ _ _ => apply wp_deref; [intros ? ?|intros ?]
  | |- wp (if ?c then _ else _) _ _ _ => destruct c eqn:?
  | |- wp (match ?x with _ => _ end) _ _ _ => destruct x eqn:?
  | |- wp (let '_ := ?x in _) _ _ _ => destruct x eqn:?
  end.

(** Symbolic execution up to the next call or the next proof obligation. *)
Ltac wp_run := repeat (wp_step; cbv beta; try done).

(** A call of a procedure with a proved specification [lem]. *)
Ltac wp_call lem :=
  lazymatch goal with
  | |- wp (bind _ _) _ _ _ => apply wp_bind; eapply wp_mono; [by apply lem| |try done]
  | |- wp _ _ _ _ => eapply wp_mono; [by apply lem| |try done]
  end.

(** ** Invariants of every node object *)

Section Invariants.
Context {Node : Type}.
Implicit Types (w : World Node) (P : Node → Prop).

Lemma wp_update_all_nodes P r f E w :
  all_nodes P w → (∀ n, objects w !! r = Some n → P n → P (f n)) →
  wp (update r f) (λ _, all_nodes P) E w.
Proof. intros Hw Hf. apply wp_update. by apply all_nodes_updated. Qed.

Lemma wp_on_network_all_nodes P f E w :
  all_nodes P w → wp (on_network f) (λ _, all_nodes P) E w.
Proof. intros Hw. by apply wp_on_network. Qed.

Lemma preserves_discard {A} (I : World Node → Prop) (m : M (World Node) A) :
  preserves I m → preserves I (discard m).
Proof.
  intros Hm w Hw. apply wp_discard. eapply wp_mono; [by apply Hm|done..].
Qed.

Lemma reachable_invariant {Op} (exec : Op → M (World Node) unit)
    (I : World Node → Prop) w :
  I empty_world → (∀ op, preserves I (exec op)) → reachable exec w → I w.
Proof.
  intros Hinit Hstep. induction 1 as [|w op _ IH]; [done|].
  by apply wp_final, Hstep.
Qed.

End Invariants.

(** Sequencing, and a step through a call with a known specification. *)
Ltac wp_seq :=
  lazymatch goal with
  | |- wp (bind _ _) _ _ _ => apply wp_bind
  | _ => idtac
  end.

Ltac wp_apply lem :=
  cbv beta zeta; wp_seq; eapply wp_mono; [apply lem|cbv beta|cbv beta; try done].

(** Symbolic execution of the steps that leave the state alone. *)
Ltac wp_read_step :=
  lazymatch goal with
  | |- wp (bind (deref _) _) _ _ _ => apply wp_bind
  | |- wp (bind (gets _) _) _ _ _ => apply wp_bind
  | |- wp (bind (pure_call _) _) _ _ _ => apply wp_bind
  | |- wp (bind (ret _) _) _ _ _ => apply wp_bind
  | |- wp (bind _ _) _ _ _ => fail
  | |- wp (ret _) _ _ _ => apply wp_ret
  | |- wp (gets _) _ _ _ => apply wp_gets
  | |- wp (raise _) _ _ _ => apply wp_raise
  | |- wp (discard _) _ _ _ => apply wp_discard
  | |- wp (deref _) _ _ _ => apply wp_deref; [intros ? ?|intros ?]
  | |- wp (pure_call _) _ _ _ => apply wp_pure_call
  | |- wp (if ?c then _ else _) _ _ _ => destruct c eqn:?
  | |- wp (match ?x with _ => _ end) _ _ _ => destruct x eqn:?
  | |- match ?x with Ok _ => _ | _ => _ end => destruct x eqn:?
  end.

Ltac wp_read := cbv beta zeta; repeat (wp_read_step; cbv beta zeta; try done).

(** An update of one object under an invariant of all objects: [tac]
    proves that the changed object keeps the property. *)
Ltac wp_write tac :=
  cbv beta zeta; wp_seq;
  eapply wp_mono;
    [first [apply wp_update_all_nodes; [eassumption|intros ? ? ?; tac]
           |apply wp_on_network_all_nodes; eassumption]
    |intros [] ? ?; cbv beta zeta; try done
    |try done].

(** Two reads of the same object in the same state give the same value. *)
Ltac same_object :=
  repeat match goal with
         | H1 : objects ?w !! ?r = Some ?a, H2 : objects ?w !! ?r = Some ?b |- _ =>
             assert (b = a) as -> by congruence; clear H2
         end.

(** A compound statement (a conditional or a loop) followed by more code:
    the statement keeps [I], and the rest starts from any state with [I]. *)
Ltac wp_block I :=
  cbv beta zeta; wp_seq; apply (wp_mono _ (λ _, I) _ I); [|cbv beta|done].

(** ** Kademlia: what a lookup can change *)

Section KademliaFrame.
Context {V : Type}.
Implicit Types (n me : Kademlia.KademliaNode V) (w : World (Kademlia.KademliaNode V)).
Implicit Types (I : World (Kademlia.KademliaNode V) → Prop).

Lemma advance_clock_noop w : Kademlia.advance_clock (V:=V) w = (w, Ok tt).
Proof. done. Qed.

Lemma buckets_evolve_insert me idx bucket bucket' :
  Kademlia.buckets me !! idx = Some bucket →
  (length bucket' ≤ length bucket
   ∨ (Z.of_nat (length bucket') ≤ Kademlia.k me)%Z) →
  buckets_evolve me (<[idx := bucket']> (Kademlia.buckets me)).
Proof.
  intros Hidx Hlen [Hn Hk]. split; simpl.
  - by rewrite length_insert.
  - intros Hk0. specialize (Hk Hk0). apply Forall_insert; [done|].
    destruct Hlen as [Hlen|Hlen]; [|done].
    eapply Forall_lookup_1 in Hk; [|done]. simpl in Hk. lia.
Qed.

Lemma update_bucket_preserves I self nid :
  bucket_stable I → preserves I (Kademlia._update_bucket self nid).
Proof.
  intros HI w Hw. unfold Kademlia._update_bucket. wp_run.
  - apply (HI w self n); [done..|]. eapply buckets_evolve_insert; [done|]. left.
    rewrite length_app. simpl.
    match goal with H : mem _ _ = true |- _ => apply bool_decide_eq_true in H;
      apply remove_first_length in H end. lia.
  - apply (HI w self n); [done..|]. eapply buckets_evolve_insert; [done|]. right.
    rewrite length_app. simpl.
    match goal with H : (_ <? _)%Z = true |- _ => apply Z.ltb_lt in H end. lia.
Qed.

Lemma find_node_rpc_preserves I self target querier :
  bucket_stable I → preserves I (Kademlia.find_node_rpc self target querier).
Proof.
  intros HI w Hw. unfold Kademlia.find_node_rpc.
  wp_call update_bucket_preserves. intros [] w' Hw'. simpl. wp_run.
Qed.

Lemma ingest_preserves I self acc r :
  bucket_stable I → preserves I (Kademlia.ingest self acc r).
Proof.
  intros HI w Hw. unfold Kademlia.ingest. destruct acc as [shortlist found_new].
  wp_call update_bucket_preserves. intros [] w' Hw'. simpl. wp_run.
Qed.

Lemma query_one_preserves I self key acc nid :
  bucket_stable I → preserves I (Kademlia.query_one self key acc nid).
Proof.
  intros HI w Hw. unfold Kademlia.query_one.
  destruct acc as [[[shortlist queried] path] found_new]. wp_run.
  wp_call find_node_rpc_preserves. intros returned w' Hw'. simpl. wp_step.
  apply (wp_for_fold (λ _, I)); [done| |].
  - intros acc x w'' _ Hw''. by apply ingest_preserves.
  - intros [sl fn] w'' Hw''. cbv beta. wp_run.
Qed.

Lemma lookup_rounds_preserves I fuel self key shortlist queried path hops :
  bucket_stable I →
  preserves I (Kademlia.lookup_rounds fuel self key shortlist queried path hops).
Proof.
  intros HI. revert shortlist queried path hops.
  induction fuel as [|fuel IH]; intros shortlist queried path hops w Hw; simpl.
  - wp_run.
  - wp_run. unfold wp at 1. rewrite advance_clock_noop.
    wp_step. apply (wp_for_fold (λ _, I)); [done| |].
    + intros acc x w' _ Hw'. by apply query_one_preserves.
    + intros [[[sl q] p] fn] w' Hw'. cbv beta. wp_run. by apply IH.
Qed.

Lemma lookup_preserves I self key :
  bucket_stable I → preserves I (Kademlia.lookup self key).
Proof.
  intros HI w Hw. unfold Kademlia.lookup. wp_run.
  wp_call lookup_rounds_preserves. intros [[sl p] h] w' Hw'. cbv beta. wp_run.
Qed.

(** A Kademlia lookup, when it returns, reports success. *)
Lemma kademlia_lookup_success self key w :
  wp (Kademlia.lookup self key) (λ r _, success r = true) (λ _, True) w.
Proof.
  unfold Kademlia.lookup. wp_run. unfold wp at 1.
  destruct (Kademlia.lookup_rounds _ _ _ _ _ _ _ w) as [w' [[[sl p] h]| |]]; done.
Qed.

End KademliaFrame.

(** ** Running programs *)

Lemma reachable_run {Node Op} (exec : Op → M (World Node) unit) ops w :
  reachable exec w → reachable exec (run exec ops w).
Proof.
  revert w. induction ops as [|op ops IH]; intros w Hw; simpl; [done|].
  apply IH. by constructor.
Qed.

Example pastry_trio_node_in_world : objects pastry_trio !! 512%Z = Some pastry_trio_node.
Proof. vm_compute. reflexivity. Qed.

(** ** C3, C4 and C8 *)

(** C3.  [NetworkSimulator] takes no [per_hop_delay]: constructing it with
    that keyword raises [TypeError], it has neither a [virtual_time] field
    nor an [advance_time] method, and the clock step of a Kademlia lookup
    round changes nothing. *)
Theorem network_simulator_has_no_clock :
  NetworkSimulator_init [("per_hop_delay", 1%Q)] = Raise TypeError
  ∧ hasattr "per_hop_delay" = false
  ∧ hasattr "virtual_time" = false
  ∧ hasattr "advance_time" = false
  ∧ ∀ w : World (Kademlia.KademliaNode string),
      Kademlia.advance_clock w = (w, Ok tt).
Proof. split_and!; try done. Qed.

(** C4.  After two joins, the departure of the first node and one
    [stabilize] of the second, the second node has [successor = 5] while
    [finger_table[0]] still is the departed node [1]. *)
Theorem chord_stabilize_leaves_stale_finger :
  reachable Chord.exec chord_after_churn
  ∧ ∃ n, objects chord_after_churn !! 5%Z = Some n
         ∧ Chord.successor n = 5%Z
         ∧ Chord.finger_table n !! 0%nat = Some 1%Z.
Proof.
  split; [apply reachable_run; constructor|].
  eexists. split; [vm_compute; reflexivity|]. split; reflexivity.
Qed.

(** C8.  A result of [ChordNode.lookup] with [success = false] has
    [responsible_node = -1], which lies outside the identifier space
    [[0, 2^m)]. *)
Theorem chord_failed_lookup_sentinel {V} (w : World (Chord.ChordNode V))
    (self : Chord.ChordNode V) (key : Z) (r : LookupResult) :
  Chord.lookup w self key = Ok r → success r = false →
  responsible_node r = (-1)%Z
  ∧ ¬ (0 ≤ responsible_node r < 2 ^ Chord.id_bits self)%Z.
Proof.
  intros Hr Hfail. apply chord_lookup_loop_result in Hr as [[? _]|(_ & _ & ->)].
  - congruence.
  - split; [done|lia].
Qed.

Lemma chord_failed_lookup_sentinel_witness :
  let r := {| key := 0; responsible_node := -1; hop_count := 7;
              path := [0; 1; 2; 3; 4; 5; 6; 7]%Z; success := false |} in
  Chord.lookup chord_chain (chord_chain_node 0) 0 = Ok r
  ∧ success r = false
  ∧ responsible_node r = (-1)%Z
  ∧ ¬ (0 ≤ responsible_node r < 2 ^ Chord.id_bits (chord_chain_node 0))%Z.
Proof.
  intros r. split; [vm_compute; reflexivity|]. split; [reflexivity|].
  apply (chord_failed_lookup_sentinel chord_chain (chord_chain_node 0) 0 r);
    [vm_compute; reflexivity|reflexivity].
Defined.

Lemma pastry_lookup_path_distinct_witness :
  let r := {| key := 128; responsible_node := 256; hop_count := 1;
              path := [512; 256]%Z; success := true |} in
  Pastry.lookup pastry_trio pastry_trio_node 128 = Ok r ∧ NoDup (path r).
Proof.
  intros r. split; [vm_compute; reflexivity|].
  apply (pastry_lookup_path_distinct pastry_trio pastry_trio_node 128 r).
  vm_compute. reflexivity.
Defined.

Example pastry_trio_route_next :
  Pastry._route_next pastry_trio pastry_trio_node 128 = Ok (Some 256%Z).
Proof. vm_compute. reflexivity. Qed.


(** ** C9: a failed store writes nothing *)

Section StoreFrame.
Context {V : Type}.

Lemma chord_store_frame (w w' : World (Chord.ChordNode V)) self key (value : V) :
  Chord.store self key value w = (w', Ok false) → w' = w.
Proof.
  intros Hrun.
  enough (wp (Chord.store self key value) (λ ok s, ok = false → s = w) (λ _, True) w)
    as Hwp by (by eapply (wp_elim _ _ _ _ _ _ Hwp Hrun)).
  unfold Chord.store, Chord.call_lookup. wp_run.
  apply wp_pure_call. destruct (Chord.lookup w n key) as [r| |]; [|done..].
  wp_run.
Qed.

Lemma pastry_store_frame (w w' : World (Pastry.PastryNode V)) self key (value : V) :
  Pastry.store self key value w = (w', Ok false) → w' = w.
Proof.
  intros Hrun.
  enough (wp (Pastry.store self key value) (λ ok s, ok = false → s = w) (λ _, True) w)
    as Hwp by (by eapply (wp_elim _ _ _ _ _ _ Hwp Hrun)).
  unfold Pastry.store, Pastry.call_lookup. wp_run.
  apply wp_pure_call. destruct (Pastry.lookup w n key) as [r| |]; [|done..].
  wp_run.
Qed.

Lemma kademlia_data_stable (w0 : World (Kademlia.KademliaNode V)) :
  bucket_stable (λ s, ∀ i, Kademlia.data <$> objects s !! i
                           = Kademlia.data <$> objects w0 !! i).
Proof.
  intros w r me bs Hw Hr _ i. rewrite <- Hw. unfold updated. simpl.
  rewrite lookup_alter. case_decide; [subst i|done].
  by destruct (objects w !! r).
Qed.

Lemma kademlia_store_frame (w w' : World (Kademlia.KademliaNode V)) self key
    (value : V) :
  Kademlia.store self key value w = (w', Ok false) →
  ∀ i, Kademlia.data <$> objects w' !! i = Kademlia.data <$> objects w !! i.
Proof.
  intros Hrun.
  set (I := λ s : World (Kademlia.KademliaNode V),
         ∀ i, Kademlia.data <$> objects s !! i = Kademlia.data <$> objects w !! i).
  enough (wp (Kademlia.store self key value) (λ ok s, ok = false → I s) (λ _, True) w)
    as Hwp by (by eapply (wp_elim _ _ _ _ _ _ Hwp Hrun)).
  unfold Kademlia.store. apply wp_bind.
  eapply wp_mono; [apply (lookup_preserves I); [apply kademlia_data_stable|done]| |done].
  intros r s Hs. cbv beta. wp_run.
Qed.

End StoreFrame.

(** C9.  For the three overlays, when [store(key, value)] returns [False]
    the data map of every node object is what it was before the call. *)
Theorem failed_store_writes_nothing {V} (self key : Z) (value : V) :
  (∀ w w' : World (Chord.ChordNode V),
     Chord.store self key value w = (w', Ok false) →
     ∀ i, Chord.data <$> objects w' !! i = Chord.data <$> objects w !! i)
  ∧ (∀ w w' : World (Kademlia.KademliaNode V),
       Kademlia.store self key value w = (w', Ok false) →
       ∀ i, Kademlia.data <$> objects w' !! i = Kademlia.data <$> objects w !! i)
  ∧ (∀ w w' : World (Pastry.PastryNode V),
       Pastry.store self key value w = (w', Ok false) →
       ∀ i, Pastry.data <$> objects w' !! i = Pastry.data <$> objects w !! i).
Proof.
  split_and!.
  - by intros w w' ->%chord_store_frame.
  - intros w w'. apply kademlia_store_frame.
  - by intros w w' ->%pastry_store_frame.
Qed.

Lemma failed_store_writes_nothing_witness :
  Chord.store 0 0 "v" chord_chain = (chord_chain, Ok false)
  ∧ Kademlia.store 0 5 "v" kademlia_fresh = (kademlia_fresh, Ok false)
  ∧ Pastry.store 0 5 "v" pastry_fresh = (pastry_fresh, Ok false)
  ∧ (∀ i, Chord.data <$> objects chord_chain !! i
          = Chord.data <$> objects chord_chain !! i)
  ∧ (∀ i, Kademlia.data <$> objects kademlia_fresh !! i
          = Kademlia.data <$> objects kademlia_fresh !! i)
  ∧ (∀ i, Pastry.data <$> objects pastry_fresh !! i
          = Pastry.data <$> objects pastry_fresh !! i).
Proof.
  assert (Chord.store 0 0 "v" chord_chain = (chord_chain, Ok false)) as Hc
    by (vm_compute; reflexivity).
  assert (Kademlia.store 0 5 "v" kademlia_fresh = (kademlia_fresh, Ok false)) as Hk
    by (vm_compute; reflexivity).
  assert (Pastry.store 0 5 "v" pastry_fresh = (pastry_fresh, Ok false)) as Hp
    by (vm_compute; reflexivity).
  split_and!; [done..| | |].
  - exact (proj1 (failed_store_writes_nothing 0 0 "v") chord_chain chord_chain Hc).
  - exact (proj1 (proj2 (failed_store_writes_nothing 0 5 "v"))
             kademlia_fresh kademlia_fresh Hk).
  - exact (proj2 (proj2 (failed_store_writes_nothing 0 5 "v"))
             pastry_fresh pastry_fresh Hp).
Defined.

(** ** C2: joining through a bootstrap that is not registered *)

Lemma get_node_register {Node} (w : World Node) (self b : Z) :
  b ≠ self →
  get_node {| objects := objects w; network := register self (network w) |} b
  = get_node w b.
Proof.
  intros Hb. unfold get_node, register. simpl.
  destruct (decide (b ∈ nodes (network w))).
  - rewrite decide_True; [done|set_solver].
  - rewrite decide_False; [done|set_solver].
Qed.

Section JoinAbsent.
Context {V : Type}.

Lemma pastry_join_absent (w : World (Pastry.PastryNode V)) self me b :
  objects w !! self = Some me → Pastry.node_id me = self → b ≠ self →
  get_node w b = None →
  Pastry.join self (Some b) w
  = ({| objects := objects w; network := register self (network w) |}, Ok 0%Z).
Proof.
  intros Hme Hid Hb Hdead.
  unfold Pastry.join, bind, deref, on_network, modify, gets, ret.
  rewrite Hme, Hid. by rewrite get_node_register, Hdead.
Qed.

Lemma kademlia_registered_stable self :
  bucket_stable (λ s : World (Kademlia.KademliaNode V),
                   self ∈ nodes (network s) ∧ is_Some (objects s !! self)).
Proof.
  intros w r me bs [Hreg Hobj] Hr _. split; [done|].
  unfold updated. simpl. rewrite lookup_alter.
  case_decide; [subst r|done]. rewrite Hr. by eexists.
Qed.

Lemma kademlia_join_registers (w : World (Kademlia.KademliaNode V)) self me b :
  objects w !! self = Some me → Kademlia.node_id me = self →
  is_Some (get_node (fst (Kademlia.join self b w)) self).
Proof.
  intros Hme Hid.
  set (I := λ s : World (Kademlia.KademliaNode V),
              self ∈ nodes (network s) ∧ is_Some (objects s !! self)).
  enough (I (fst (Kademlia.join self b w))) as [Hreg Hobj].
  { unfold get_node. by rewrite decide_True. }
  apply wp_final. unfold Kademlia.join. apply wp_bind, wp_deref; [|congruence].
  intros n Hn. assert (n = me) as -> by congruence. rewrite Hid.
  apply wp_bind, wp_on_network.
  assert (I {| objects := objects w; network := register self (network w) |}) as Hw1.
  { split; simpl; [set_solver|by eexists]. }
  destruct b as [b|]; [|by apply wp_ret].
  apply wp_bind.
  eapply wp_mono;
    [apply (update_bucket_preserves I); [apply kademlia_registered_stable|done]| |done].
  intros [] s Hs. cbv beta. apply wp_bind.
  eapply wp_mono;
    [apply (lookup_preserves I); [apply kademlia_registered_stable|done]| |done].
  intros r s' Hs'. by apply wp_ret.
Qed.

End JoinAbsent.

(** ** Kademlia: XOR distances and bucket indices *)

Lemma lxor_range (a b m : Z) :
  (0 ≤ a < 2 ^ m → 0 ≤ b < 2 ^ m → 0 ≤ Z.lxor a b < 2 ^ m)%Z.
Proof.
  intros Ha Hb.
  assert (0 ≤ Z.lxor a b)%Z as Hnonneg by (apply Z.lxor_nonneg; lia).
  split; [done|].
  destruct (Z.eq_dec (Z.lxor a b) 0%Z) as [->|Hne]; [lia|].
  assert (0 < m)%Z as Hm.
  { destruct (Z.lt_trichotomy m 0%Z) as [Hneg|[->|Hpos]]; [|exfalso|done].
    - rewrite Z.pow_neg_r in Ha by done. lia.
    - assert (a = 0 ∧ b = 0)%Z as [-> ->] by (simpl in *; lia). by apply Hne. }
  assert (∀ x, 0 ≤ x < 2 ^ m → Z.log2 x < m)%Z as Hlog.
  { intros x Hx. destruct (Z.eq_dec x 0%Z) as [->|]; [done|].
    apply Z.log2_lt_pow2; lia. }
  apply Z.log2_lt_pow2; [lia|].
  pose proof (Z.log2_lxor a b ltac:(lia) ltac:(lia)).
  pose proof (Hlog a Ha). pose proof (Hlog b Hb). lia.
Qed.

Section KademliaIndex.
Context {V : Type}.
Implicit Types (me : Kademlia.KademliaNode V).

Lemma bucket_index_range me nid m :
  (0 ≤ Kademlia.node_id me < 2 ^ m)%Z → (0 ≤ nid < 2 ^ m)%Z →
  nid ≠ Kademlia.node_id me →
  (0 ≤ Kademlia._bucket_index me nid < m)%Z.
Proof.
  intros Hme Hnid Hne. unfold Kademlia._bucket_index, Kademlia._distance, Kademlia.bit_length.
  pose proof (lxor_range _ _ _ Hme Hnid) as Hx.
  destruct (Z.eqb_spec (Z.lxor (Kademlia.node_id me) nid) 0) as [Heq|Hx0].
  { apply Z.lxor_eq in Heq. congruence. }
  rewrite Z.abs_eq by lia.
  pose proof (Z.log2_nonneg (Z.lxor (Kademlia.node_id me) nid)).
  assert (Z.log2 (Z.lxor (Kademlia.node_id me) nid) < m)%Z
    by (apply Z.log2_lt_pow2; lia).
  lia.
Qed.

End KademliaIndex.

Lemma concat_insert_replicate_nil {A} (m idx : nat) (l : list A) :
  (idx < m)%nat → concat (<[idx := l]> (replicate m [])) = l.
Proof.
  revert idx. induction m as [|m IH]; intros idx Hidx; [lia|].
  destruct idx as [|idx]; simpl.
  - assert (concat (replicate m ([] : list A)) = []) as ->; [|by rewrite app_nil_r].
    clear. induction m; simpl; [done|]. done.
  - apply IH. lia.
Qed.

Section JoinFresh.
Context {V : Type}.

Lemma get_node_updated_ne (w : World (Kademlia.KademliaNode V)) r f i :
  i ≠ r → get_node (updated r f w) i = get_node w i.
Proof.
  intros Hne. unfold get_node, updated. simpl.
  by rewrite lookup_alter_ne.
Qed.

Lemma slice_to_singleton {A} (n : Z) (x : A) : (1 ≤ n)%Z → slice_to n [x] = [x].
Proof.
  intros Hn. unfold slice_to. destruct (Z.leb_spec 0 n); [|lia].
  destruct (Z.to_nat n) eqn:Hnat; [lia|]. simpl. by rewrite take_nil.
Qed.

Lemma kademlia_round_absent (w : World (Kademlia.KademliaNode V)) fuel self me key b :
  objects w !! self = Some me → Kademlia.node_id me = self →
  (1 ≤ Kademlia.k me)%Z → (1 ≤ Kademlia.alpha me)%Z →
  b ≠ self → get_node w b = None →
  Kademlia.lookup_rounds (S fuel) self key [b] {[self]} [self] 0 w
  = (w, Ok ([b], [self; b], 1%Z)).
Proof.
  intros Hme Hid Hk Halpha Hne Hdead. simpl.
  unfold bind at 1. unfold deref at 1. rewrite Hme.
  assert (filter (λ n : Z, n ∉ ({[self]} : gset Z)) [b] = [b]) as ->.
  { rewrite filter_cons_True by set_solver. done. }
  rewrite slice_to_singleton by done.
  unfold bind at 1. rewrite advance_clock_noop.
  unfold bind at 1. simpl for_fold.
  unfold bind at 1. unfold Kademlia.query_one. unfold bind at 1. unfold gets at 1.
  rewrite Hdead. unfold ret at 1. unfold ret at 1.
  simpl. rewrite slice_to_singleton by done. done.
Qed.

Lemma kademlia_join_fresh (w : World (Kademlia.KademliaNode V)) self me b :
  objects w !! self = Some me → Kademlia.node_id me = self →
  Kademlia.buckets me = replicate (Z.to_nat (Kademlia.id_bits me)) [] →
  (1 ≤ Kademlia.k me)%Z → (1 ≤ Kademlia.alpha me)%Z →
  (0 ≤ self < 2 ^ Kademlia.id_bits me)%Z → (0 ≤ b < 2 ^ Kademlia.id_bits me)%Z →
  b ≠ self → get_node w b = None →
  snd (Kademlia.join self (Some b) w) = Ok 1%Z.
Proof.
  intros Hme Hid Hfresh Hk Halpha Hself Hb Hne Hdead.
  enough (wp (Kademlia.join self (Some b)) (λ r _, r = 1%Z) (λ _, False) w) as Hwp.
  { unfold wp in Hwp. destruct (Kademlia.join self (Some b) w) as [w' [r|e|]]; simpl;
      [by f_equal|done..]. }
  unfold Kademlia.join. apply wp_bind, wp_deref; [|congruence].
  intros n Hn. assert (n = me) as -> by congruence. rewrite Hid.
  apply wp_bind, wp_on_network.
  set (w1 := {| objects := objects w; network := register self (network w) |}).
  assert (0 ≤ Kademlia._bucket_index me b < Kademlia.id_bits me)%Z as Hidx.
  { apply bucket_index_range; [by rewrite Hid| done |congruence]. }
  set (idx := Z.to_nat (Kademlia._bucket_index me b)) in *.
  assert (Kademlia.buckets me !! idx = Some []) as Hbucket.
  { rewrite Hfresh. apply lookup_replicate_2. lia. }
  apply wp_bind. unfold Kademlia._update_bucket.
  apply wp_bind, wp_deref; [|simpl; congruence].
  intros n Hn1. assert (n = me) as -> by (simpl in Hn1; congruence).
  rewrite Hid. destruct (Z.eqb_spec b self) as [|_]; [done|].
  fold idx. rewrite Hbucket.
  assert (mem b [] = false) as -> by done.
  assert ((Z.of_nat (length (@nil Z)) <? Kademlia.k me)%Z = true) as ->
    by (apply Z.ltb_lt; simpl; lia).
  apply wp_update. change ([] ++ [b]) with [b].
  set (me2 := Kademlia.set_buckets (<[idx := [b]]> (Kademlia.buckets me)) me).
  set (w2 := updated self (Kademlia.set_buckets (<[idx := [b]]> (Kademlia.buckets me))) w1).
  assert (objects w2 !! self = Some me2) as Hme2.
  { unfold w2, updated. simpl. rewrite lookup_alter, decide_True by done.
    rewrite Hme. reflexivity. }
  assert (get_node w2 b = None) as Hdead2.
  { unfold w2. rewrite get_node_updated_ne by done.
    unfold w1. by rewrite get_node_register. }
  assert (Kademlia._find_closest_local me2 self (Some (Kademlia.k me2)) = [b]) as Hshort.
  { unfold Kademlia._find_closest_local, me2. simpl. rewrite Hfresh.
    rewrite concat_insert_replicate_nil by lia. simpl.
    by apply slice_to_singleton. }
  unfold Kademlia.lookup. apply wp_bind, wp_bind, wp_deref; [|congruence].
  intros n Hn2. assert (n = me2) as -> by congruence.
  rewrite Hshort. apply wp_bind. unfold wp at 1.
  unfold Kademlia.lookup_fuel. rewrite Nat.add_1_r.
  replace (Kademlia.node_id me2) with self by done.
  rewrite (kademlia_round_absent w2 _ self me2 self b) by done.
  done.
Qed.

End JoinFresh.

(** C2, as the code has it.  A Kademlia or Pastry node that joins through a
    bootstrap id [b] other than its own that is not registered ends up
    registered: [get_node] finds it after the call.  [PastryNode.join]
    returns 0 and changes nothing else; [KademliaNode.join] of a node with
    empty buckets (with [k] and [alpha] at least 1 and [b] in the id space)
    returns 1, the round spent on the absent bootstrap. *)
Theorem join_absent_bootstrap_registers {V} (self b : Z) :
  b ≠ self →
  (∀ (w : World (Pastry.PastryNode V)) me,
     objects w !! self = Some me → Pastry.node_id me = self →
     get_node w b = None →
     Pastry.join self (Some b) w
     = ({| objects := objects w; network := register self (network w) |}, Ok 0%Z)
     ∧ get_node (fst (Pastry.join self (Some b) w)) self = Some me)
  ∧ (∀ (w : World (Kademlia.KademliaNode V)) me,
       objects w !! self = Some me → Kademlia.node_id me = self →
       get_node w b = None →
       is_Some (get_node (fst (Kademlia.join self (Some b) w)) self)
       ∧ (Kademlia.buckets me = replicate (Z.to_nat (Kademlia.id_bits me)) [] →
          (1 ≤ Kademlia.k me)%Z → (1 ≤ Kademlia.alpha me)%Z →
          (0 ≤ self < 2 ^ Kademlia.id_bits me)%Z →
          (0 ≤ b < 2 ^ Kademlia.id_bits me)%Z →
          snd (Kademlia.join self (Some b) w) = Ok 1%Z)).
Proof.
  intros Hne. split.
  - intros w me Hme Hid Hdead.
    rewrite (pastry_join_absent w self me b) by done. split; [done|].
    unfold get_node, register. simpl. rewrite decide_True by set_solver. done.
  - intros w me Hme Hid Hdead. split.
    + by eapply kademlia_join_registers.
    + intros. by eapply kademlia_join_fresh.
Qed.

Lemma join_absent_bootstrap_registers_witness :
  (1 : Z) ≠ 0%Z
  ∧ get_node pastry_fresh 1 = None
  ∧ Pastry.join 0 (Some 1%Z) pastry_fresh
    = ({| objects := objects pastry_fresh;
          network := register 0 (network pastry_fresh) |}, Ok 0%Z)
  ∧ get_node kademlia_fresh 1 = None
  ∧ is_Some (get_node (fst (Kademlia.join 0 (Some 1%Z) kademlia_fresh)) 0)
  ∧ snd (Kademlia.join 0 (Some 1%Z) kademlia_fresh) = Ok 1%Z.
Proof.
  assert ((1 : Z) ≠ 0%Z) as Hne by done.
  pose proof (join_absent_bootstrap_registers (V:=string) 0 1 Hne) as [Hp Hk].
  assert (objects pastry_fresh !! 0%Z = Some pastry_fresh_node) as Hpn
    by (vm_compute; reflexivity).
  assert (objects kademlia_fresh !! 0%Z
          = Some (Kademlia.init 0 16 8 3)) as Hkn by (vm_compute; reflexivity).
  split_and!; [done|done| |done| |].
  - exact (proj1 (Hp pastry_fresh _ Hpn eq_refl eq_refl)).
  - exact (proj1 (Hk kademlia_fresh _ Hkn eq_refl eq_refl)).
  - apply (proj2 (Hk kademlia_fresh _ Hkn eq_refl eq_refl)); done.
Defined.

(** The claim of C2 fails on the default nodes: after joining through the
    unregistered id 1, the Kademlia node 0 has returned 1, not 0, and both
    the Kademlia and the Pastry node 0 are registered. *)
Lemma join_absent_bootstrap_counterexample :
  get_node kademlia_fresh 1 = None
  ∧ snd (Kademlia.join 0 (Some 1%Z) kademlia_fresh) = Ok 1%Z
  ∧ get_node (fst (Kademlia.join 0 (Some 1%Z) kademlia_fresh)) 0 ≠ None
  ∧ get_node pastry_fresh 1 = None
  ∧ snd (Pastry.join 0 (Some 1%Z) pastry_fresh) = Ok 0%Z
  ∧ get_node (fst (Pastry.join 0 (Some 1%Z) pastry_fresh)) 0 ≠ None.
Proof. split_and!; by vm_compute. Qed.

(** ** C7: the deterministic generators *)

Lemma insert_by_sorted {A} (key : A → Z) x l :
  StronglySorted (λ a b, (key a ≤ key b)%Z) l →
  StronglySorted (λ a b, (key a ≤ key b)%Z) (insert_by key x l).
Proof.
  induction 1 as [|y l Hl IH Hy]; simpl; [by repeat constructor|].
  destruct (Z.leb_spec (key x) (key y)).
  - constructor; [by constructor|]. constructor; [done|].
    eapply Forall_impl; [done|]. simpl. intros; lia.
  - constructor; [done|]. rewrite insert_by_perm. constructor; [lia|done].
Qed.

Lemma sort_by_sorted {A} (key : A → Z) l :
  StronglySorted (λ a b, (key a ≤ key b)%Z) (sort_by key l).
Proof. induction l; simpl; [constructor|by apply insert_by_sorted]. Qed.

Lemma sorted_nodup_strict (l : list Z) :
  StronglySorted Z.le l → NoDup l → StronglySorted Z.lt l.
Proof.
  induction 1 as [|x l Hl IH Hx]; intros Hnd; [constructor|].
  apply NoDup_cons in Hnd as [Hnotin Hnd]. constructor; [by apply IH|].
  rewrite Forall_forall in Hx |- *. intros y Hy.
  specialize (Hx y Hy). assert (x ≠ y) by (by intros ->). lia.
Qed.

Lemma sorted_ids_strict (ids : gset Z) : StronglySorted Z.lt (sorted_ids ids).
Proof.
  apply sorted_nodup_strict.
  - apply (sort_by_sorted (λ x : Z, x)).
  - unfold sorted_ids. rewrite sort_by_perm. apply NoDup_elements.
Qed.

Lemma sorted_ids_length (ids : gset Z) : length (sorted_ids ids) = size ids.
Proof. unfold sorted_ids. by rewrite sort_by_length. Qed.

Lemma sorted_ids_elem (ids : gset Z) x : x ∈ sorted_ids ids ↔ x ∈ ids.
Proof. unfold sorted_ids. by rewrite sort_by_elem, elem_of_elements. Qed.

Lemma slice_to_all {A} (l : list A) : slice_to (Z.of_nat (length l)) l = l.
Proof.
  unfold slice_to. destruct (Z.leb_spec 0 (Z.of_nat (length l))); [|lia].
  rewrite Nat2Z.id. apply firstn_all.
Qed.

Lemma size_list_to_set_le (l : list Z) :
  (size (list_to_set l : gset Z) ≤ length l)%nat.
Proof.
  induction l as [|x l IH].
  - rewrite list_to_set_nil, size_empty. simpl. lia.
  - rewrite list_to_set_cons, size_union_alt, size_singleton. simpl.
    pose proof (subseteq_size ((list_to_set l : gset Z) ∖ {[x]}) (list_to_set l)
                  ltac:(set_solver)). lia.
Qed.

(** A set of integers of [[0, N)] has at most [N] elements. *)
Lemma size_bounded (ids : gset Z) (N : Z) :
  (0 ≤ N)%Z → (∀ x, x ∈ ids → (0 ≤ x < N)%Z) → (Z.of_nat (size ids) ≤ N)%Z.
Proof.
  intros HN Hids.
  assert (ids ⊆ list_to_set (seqZ 0 N)) as Hsub.
  { intros x Hx. apply elem_of_list_to_set, elem_of_seqZ. specialize (Hids x Hx). lia. }
  apply subseteq_size in Hsub.
  pose proof (size_list_to_set_le (seqZ 0 N)) as Hle.
  rewrite length_seqZ in Hle. lia.
Qed.

Section GeneratorFacts.
Variable sha1_int : string → Z.
Variables (prefix : string) (count id_bits seed : Z).

Lemma hashed_succ n :
  hashed sha1_int prefix id_bits seed (S n)
  = {[ (sha1_int (prefix +:+ pretty seed +:+ "-" +:+ pretty (Z.of_nat n))
        mod 2 ^ id_bits)%Z ]} ∪ hashed sha1_int prefix id_bits seed n.
Proof.
  unfold hashed. rewrite seq_S, map_app, list_to_set_app_L. simpl. set_solver.
Qed.

Lemma hashed_range n x :
  (0 ≤ id_bits)%Z → x ∈ hashed sha1_int prefix id_bits seed n →
  (0 ≤ x < 2 ^ id_bits)%Z.
Proof.
  intros Hm. unfold hashed. rewrite elem_of_list_to_set, list_elem_of_In, in_map_iff.
  intros (i & <- & _). apply Z.mod_pos_bound. by apply Z.pow_pos_nonneg.
Qed.

(** From the state after [i] strings, the loop stops after [i0 >= i]
    strings, at the first time it holds [count] residues. *)
Lemma generate_loop_stops fuel n i :
  (count ≤ Z.of_nat (size (hashed sha1_int prefix id_bits seed n)))%Z →
  (i ≤ n)%nat → (n - i ≤ fuel)%nat →
  ∃ i0, (i ≤ i0 ≤ n)%nat
    ∧ generate_loop sha1_int fuel prefix count id_bits seed
        (hashed sha1_int prefix id_bits seed i) (Z.of_nat i)
      = Ok (hashed sha1_int prefix id_bits seed i0)
    ∧ (count ≤ Z.of_nat (size (hashed sha1_int prefix id_bits seed i0)))%Z
    ∧ (i0 = i ∨ ∃ j, i0 = S j
         ∧ (Z.of_nat (size (hashed sha1_int prefix id_bits seed j)) < count)%Z).
Proof.
  intros Hn. revert i. induction fuel as [|fuel IH]; intros i Hi Hfuel.
  - assert (i = n) as -> by lia. exists n. simpl.
    destruct (Z.ltb_spec (Z.of_nat (size (hashed sha1_int prefix id_bits seed n))) count);
      [lia|]. split_and!; [lia..|done|done|by left].
  - simpl.
    destruct (Z.ltb_spec (Z.of_nat (size (hashed sha1_int prefix id_bits seed i))) count)
      as [Hlt|Hge].
    + assert (i ≠ n) by (intros ->; lia).
      rewrite <- hashed_succ. replace (Z.of_nat i + 1)%Z with (Z.of_nat (S i)) by lia.
      destruct (IH (S i)) as (i0 & Hi0 & Hrun & Hcount & Hfirst); [lia..|].
      exists i0. split_and!; [lia..|done|done|]. right.
      destruct Hfirst as [->|Hfirst]; [by eauto|done].
    + exists i. split_and!; [lia..|done|done|by left].
Qed.

Lemma generate_loop_result fuel n :
  (0 ≤ count)%Z →
  (count ≤ Z.of_nat (size (hashed sha1_int prefix id_bits seed n)))%Z →
  (n ≤ fuel)%nat →
  ∃ i0, (i0 ≤ n)%nat
    ∧ generate_loop sha1_int fuel prefix count id_bits seed ∅ 0
      = Ok (hashed sha1_int prefix id_bits seed i0)
    ∧ Z.of_nat (size (hashed sha1_int prefix id_bits seed i0)) = count.
Proof.
  intros Hcount Hn Hfuel.
  destruct (generate_loop_stops fuel n 0 Hn) as (i0 & Hi0 & Hrun & Hge & Hfirst); [lia..|].
  exists i0. split_and!; [lia|done|].
  destruct Hfirst as [->|(j & -> & Hlt)].
  - change (hashed sha1_int prefix id_bits seed 0) with (∅ : gset Z) in *.
    rewrite size_empty in *. lia.
  - rewrite hashed_succ in *.
    pose proof (size_union_alt
      ({[ (sha1_int (prefix +:+ pretty seed +:+ "-" +:+ pretty (Z.of_nat j))
           mod 2 ^ id_bits)%Z ]} : gset Z)
      (hashed sha1_int prefix id_bits seed j)) as Hsize.
    rewrite size_singleton in Hsize.
    pose proof (subseteq_size
      (hashed sha1_int prefix id_bits seed j
       ∖ {[ (sha1_int (prefix +:+ pretty seed +:+ "-" +:+ pretty (Z.of_nat j))
             mod 2 ^ id_bits)%Z ]})
      (hashed sha1_int prefix id_bits seed j) ltac:(set_solver)).
    lia.
Qed.

Lemma generate_loop_more_fuel fuel fuel' ids i r :
  generate_loop sha1_int fuel prefix count id_bits seed ids i = Ok r →
  (fuel ≤ fuel')%nat →
  generate_loop sha1_int fuel' prefix count id_bits seed ids i = Ok r.
Proof.
  revert fuel' ids i. induction fuel as [|fuel IH]; intros fuel' ids i; simpl.
  - destruct (Z.ltb_spec (Z.of_nat (size ids)) count) as [Hlt|Hge]; [done|].
    intros Hr _. destruct fuel'; simpl;
      (destruct (Z.ltb_spec (Z.of_nat (size ids)) count); [lia|done]).
  - destruct (Z.ltb_spec (Z.of_nat (size ids)) count) as [Hlt|Hge].
    + intros Hr Hfuel. destruct fuel' as [|fuel']; [lia|]. simpl.
      destruct (Z.ltb_spec (Z.of_nat (size ids)) count); [|lia].
      apply IH; [done|lia].
    + intros Hr _. destruct fuel'; simpl;
        (destruct (Z.ltb_spec (Z.of_nat (size ids)) count); [lia|done]).
Qed.

(** The common body of the two generators, given the loop's result. *)
Lemma generator_result n :
  (0 ≤ count)%Z → (0 ≤ id_bits)%Z →
  (count ≤ Z.of_nat (size (hashed sha1_int prefix id_bits seed n)))%Z →
  ∃ l, (∀ fuel, (n ≤ fuel)%nat →
          (ids ← generate_loop sha1_int fuel prefix count id_bits seed ∅ 0;
           mret (slice_to count (sorted_ids ids))) = Ok l)
       ∧ Z.of_nat (length l) = count
       ∧ StronglySorted Z.lt l
       ∧ Forall (λ x, (0 ≤ x < 2 ^ id_bits)%Z) l.
Proof.
  intros Hcount Hm Hn.
  destruct (generate_loop_result n n Hcount Hn) as (i0 & Hi0 & Hrun0 & Hsize); [done|].
  exists (sorted_ids (hashed sha1_int prefix id_bits seed i0)). split_and!.
  - intros fuel Hfuel.
    rewrite (generate_loop_more_fuel n fuel _ _ _ Hrun0 Hfuel). simpl. f_equal.
    rewrite <- Hsize, <- sorted_ids_length. apply slice_to_all.
  - by rewrite sorted_ids_length.
  - apply sorted_ids_strict.
  - apply Forall_forall. intros x Hx%sorted_ids_elem. by eapply hashed_range.
Qed.

Lemma hashed_mono (i n : nat) :
  (i ≤ n)%nat →
  hashed sha1_int prefix id_bits seed i ⊆ hashed sha1_int prefix id_bits seed n.
Proof.
  induction 1 as [|n Hle IH]; [done|]. rewrite hashed_succ. set_solver.
Qed.

(** The loop returns only a set of [count] residues or more, the one of the
    strings it has hashed. *)
Lemma generate_loop_only_if fuel i r :
  generate_loop sha1_int fuel prefix count id_bits seed
    (hashed sha1_int prefix id_bits seed i) (Z.of_nat i) = Ok r →
  ∃ i0, (i ≤ i0 ≤ i + fuel)%nat
    ∧ r = hashed sha1_int prefix id_bits seed i0
    ∧ (count ≤ Z.of_nat (size r))%Z.
Proof.
  revert i. induction fuel as [|fuel IH]; intros i; simpl;
    destruct (Z.ltb_spec (Z.of_nat (size (hashed sha1_int prefix id_bits seed i))) count)
      as [Hlt|Hge]; try done.
  - intros [= <-]. exists i. split_and!; [lia..|done|done].
  - rewrite <- hashed_succ. replace (Z.of_nat i + 1)%Z with (Z.of_nat (S i)) by lia.
    intros (i0 & Hi0 & -> & Hcount)%IH. exists i0. split_and!; [lia..|done|done].
  - intros [= <-]. exists i. split_and!; [lia..|done|done].
Qed.

Lemma generate_loop_no_raise fuel ids i e :
  generate_loop sha1_int fuel prefix count id_bits seed ids i ≠ Raise e.
Proof.
  revert ids i. induction fuel as [|fuel IH]; intros ids i; simpl;
    destruct (Z.of_nat (size ids) <? count)%Z; done || apply IH.
Qed.

(** The common body of the two generators meets [generator_spec]. *)
Lemma generator_body_spec :
  (0 ≤ count)%Z → (0 ≤ id_bits)%Z →
  generator_spec sha1_int prefix count id_bits seed
    (λ fuel, ids ← generate_loop sha1_int fuel prefix count id_bits seed ∅ 0;
             mret (slice_to count (sorted_ids ids))).
Proof.
  intros Hcount Hm. split_and!.
  - intros n Hn. destruct (generator_result n Hcount Hm Hn) as (l & Hl & _).
    by exists l.
  - intros fuel ids Hrun.
    assert (count ≤ Z.of_nat (size (hashed sha1_int prefix id_bits seed fuel)))%Z
      as Hfuel.
    { destruct (generate_loop sha1_int fuel prefix count id_bits seed ∅ 0)
        as [r| |] eqn:Hloop; [|done..].
      apply (generate_loop_only_if fuel 0 r) in Hloop as (i0 & Hi0 & -> & Hge).
      pose proof (subseteq_size (hashed sha1_int prefix id_bits seed i0)
                    (hashed sha1_int prefix id_bits seed fuel)
                    (hashed_mono i0 fuel ltac:(lia))). lia. }
    destruct (generator_result fuel Hcount Hm Hfuel) as (l & Hl & Hlen & Hsorted & Hrange).
    assert (l = ids) as ->.
    { specialize (Hl fuel ltac:(lia)). cbv beta in Hrun. congruence. }
    split_and!; [done| |by split_and!|done].
    pose proof (size_bounded (hashed sha1_int prefix id_bits seed fuel) (2 ^ id_bits)
                  ltac:(lia) (λ x Hx, hashed_range fuel x Hm Hx)). lia.
  - intros fuel e.
    destruct (generate_loop sha1_int fuel prefix count id_bits seed ∅ 0)
      as [r|e'|] eqn:Hloop; [done| |done].
    by apply generate_loop_no_raise in Hloop.
Qed.

(** With a hash whose values lie below [N], the loop cannot collect more
    than [N] residues, so a greater [count] is never reached. *)
Lemma generate_loop_never_returns (N : Z) fuel :
  (0 ≤ N)%Z → (0 ≤ id_bits)%Z → (∀ s, (0 ≤ sha1_int s < N)%Z) → (N < count)%Z →
  (ids ← generate_loop sha1_int fuel prefix count id_bits seed ∅ 0;
   mret (slice_to count (sorted_ids ids))) = OutOfFuel.
Proof.
  intros HN Hm Hhash Hcount.
  destruct (generate_loop sha1_int fuel prefix count id_bits seed ∅ 0)
    as [r|e|] eqn:Hloop; [|by apply generate_loop_no_raise in Hloop|done].
  apply (generate_loop_only_if fuel 0 r) in Hloop as (i0 & _ & -> & Hge).
  assert (Z.of_nat (size (hashed sha1_int prefix id_bits seed i0)) ≤ N)%Z; [|lia].
  apply size_bounded; [done|]. intros x.
  unfold hashed. rewrite elem_of_list_to_set, list_elem_of_In, in_map_iff.
  intros (i & <- & _).
  destruct (Hhash (prefix +:+ pretty seed +:+ "-" +:+ pretty (Z.of_nat i))) as [Hlo Hhi].
  assert (0 < 2 ^ id_bits)%Z as Hpos by (by apply Z.pow_pos_nonneg).
  split; [by apply Z.mod_pos_bound|].
  eapply Z.le_lt_trans; [by apply Z.mod_le|apply Hhi].
Qed.

End GeneratorFacts.

(** The SHA-1 model on test vectors of the standard and on strings of the
    generators. *)
Example hashlib_sha1_vectors :
  hashlib.sha1_int "" = 0xda39a3ee5e6b4b0d3255bfef95601890afd80709%Z
  ∧ hashlib.sha1_int "abc" = 0xa9993e364706816aba3e25717850c26c9cd0d89d%Z
  ∧ hashlib.sha1_int "abcdbcdecdefdefgefghfghighijhijkijkljklmklmnlmnomnopnopq"
    = 0x84983e441c3bd26ebaae4aa1f95129e5e54670f1%Z
  ∧ hashlib.sha1_int ("node-" +:+ pretty 42%Z +:+ "-" +:+ pretty 0%Z)
    = 838194629693539259648294865038623150153765197817%Z
  ∧ hashlib.sha1_int ("key-" +:+ pretty 123%Z +:+ "-" +:+ pretty 7%Z)
    = 444333049500338893887544753254576329215418025757%Z.
Proof. vm_compute. repeat split. Qed.

Lemma mask32_range (x : Z) : (0 ≤ hashlib.mask32 x < 2 ^ 32)%Z.
Proof.
  unfold hashlib.mask32. change 0xFFFFFFFF%Z with (Z.ones 32).
  rewrite Z.land_ones by lia. apply Z.mod_pos_bound. lia.
Qed.

(** A SHA-1 value has 160 bits. *)
Lemma sha1_int_range (s : string) : (0 ≤ hashlib.sha1_int s < 2 ^ 160)%Z.
Proof.
  assert (∀ h : hashlib.state,
            let '(h0, h1, h2, h3, h4) := h in
            (0 ≤ h0 < 2 ^ 32 ∧ 0 ≤ h1 < 2 ^ 32 ∧ 0 ≤ h2 < 2 ^ 32
             ∧ 0 ≤ h3 < 2 ^ 32 ∧ 0 ≤ h4 < 2 ^ 32)%Z →
            (0 ≤ h0 * 2 ^ 128 + h1 * 2 ^ 96 + h2 * 2 ^ 64 + h3 * 2 ^ 32 + h4
             < 2 ^ 160)%Z) as Hsum.
  { intros [[[[h0 h1] h2] h3] h4]. lia. }
  assert (∀ bl (h : hashlib.state),
            (let '(h0, h1, h2, h3, h4) := h in
             (0 ≤ h0 < 2 ^ 32 ∧ 0 ≤ h1 < 2 ^ 32 ∧ 0 ≤ h2 < 2 ^ 32
              ∧ 0 ≤ h3 < 2 ^ 32 ∧ 0 ≤ h4 < 2 ^ 32)%Z) →
            let '(h0, h1, h2, h3, h4) := fold_left hashlib.compress bl h in
            (0 ≤ h0 < 2 ^ 32 ∧ 0 ≤ h1 < 2 ^ 32 ∧ 0 ≤ h2 < 2 ^ 32
             ∧ 0 ≤ h3 < 2 ^ 32 ∧ 0 ≤ h4 < 2 ^ 32)%Z) as Hfold.
  { induction bl as [|b bl IH]; intros h Hh; simpl; [done|].
    apply IH. clear IH Hh. unfold hashlib.compress.
    destruct h as [[[[h0 h1] h2] h3] h4].
    destruct (fold_left hashlib.round _ _) as [[[[a b'] c] d] e].
    split_and!; apply mask32_range. }
  unfold hashlib.sha1_int, hashlib.sha1.
  specialize (Hfold (hashlib.blocks (length (hashlib.be_words (hashlib.pad (hashlib.encode s))))
                       (hashlib.be_words (hashlib.pad (hashlib.encode s))))
                    hashlib.initial).
  specialize (Hsum (fold_left hashlib.compress
                      (hashlib.blocks
                         (length (hashlib.be_words (hashlib.pad (hashlib.encode s))))
                         (hashlib.be_words (hashlib.pad (hashlib.encode s))))
                      hashlib.initial)).
  destruct (fold_left hashlib.compress _ hashlib.initial) as [[[[h0 h1] h2] h3] h4].
  apply Hsum, Hfold. unfold hashlib.initial. lia.
Qed.

(** With SHA-1 itself, the default 16 identifier bits and the default seeds,
    both generators return for every [count] from 0 to 128: the first 140
    strings already yield 128 distinct residues. *)
Lemma generators_return_by_default (count : Z) :
  (0 ≤ count ≤ 128)%Z →
  ∃ ids keys,
    (∀ fuel, (140 ≤ fuel)%nat →
       generate_node_ids hashlib.sha1_int fuel count 16 42 = Ok ids)
    ∧ (∀ fuel, (140 ≤ fuel)%nat →
         generate_keys hashlib.sha1_int fuel count 16 123 = Ok keys)
    ∧ is_generated count 16 ids ∧ is_generated count 16 keys.
Proof.
  intros Hcount.
  assert (128 ≤ Z.of_nat (size (hashed hashlib.sha1_int "node-" 16 42 140)))%Z as Hn
    by (vm_compute; discriminate).
  assert (128 ≤ Z.of_nat (size (hashed hashlib.sha1_int "key-" 16 123 140)))%Z as Hk
    by (vm_compute; discriminate).
  destruct (generator_body_spec hashlib.sha1_int "node-" count 16 42) as (Hn1 & Hn2 & _);
    [lia..|].
  destruct (generator_body_spec hashlib.sha1_int "key-" count 16 123) as (Hk1 & Hk2 & _);
    [lia..|].
  destruct (Hn1 140%nat) as [ids Hids]; [lia|].
  destruct (Hk1 140%nat) as [keys Hkeys]; [lia|].
  exists ids, keys. split_and!.
  - exact Hids.
  - exact Hkeys.
  - exact (proj1 (proj2 (proj2 (Hn2 140%nat ids (Hids 140%nat (le_n _)))))).
  - exact (proj1 (proj2 (proj2 (Hk2 140%nat keys (Hkeys 140%nat (le_n _)))))).
Qed.

(** The claim of C7 fails as worded: [count <= 2^m] does not make the
    generators return.  SHA-1 values are below [2^160], so with [m = 161]
    and [count = 2^160 + 1] the loops can never hold [count] residues, and
    neither generator returns, whatever fuel its loop is given. *)
Lemma generators_count_counterexample :
  (0 ≤ 2 ^ 160 + 1 ≤ 2 ^ 161)%Z
  ∧ ∀ fuel,
      generate_node_ids hashlib.sha1_int fuel (2 ^ 160 + 1) 161 42 = OutOfFuel
      ∧ generate_keys hashlib.sha1_int fuel (2 ^ 160 + 1) 161 123 = OutOfFuel.
Proof.
  split; [lia|]. intros fuel. split.
  - apply (generate_loop_never_returns hashlib.sha1_int "node-" (2 ^ 160 + 1) 161 42
             (2 ^ 160) fuel); [lia|lia|apply sha1_int_range|lia].
  - apply (generate_loop_never_returns hashlib.sha1_int "key-" (2 ^ 160 + 1) 161 123
             (2 ^ 160) fuel); [lia|lia|apply sha1_int_range|lia].
Qed.

(** C7, as the code has it.  For fixed [(count, m, seed)] with [count] and
    [m] non-negative, whatever the hash: [generate_node_ids] and
    [generate_keys] return exactly when the hashed strings [node-seed-i]
    (resp. [key-seed-i]), [i = 0, 1, ...], yield [count] distinct residues
    modulo [2^m], which forces [count <= 2^m]; they never raise; and the
    list they return is the same in every run, has exactly [count]
    elements, is strictly ascending, and its elements lie in [[0, 2^m)]. *)
Theorem generators_deterministic_ascending (sha1_int : string → Z)
    (count m seed : Z) :
  (0 ≤ count)%Z → (0 ≤ m)%Z →
  generator_spec sha1_int "node-" count m seed
    (λ fuel, generate_node_ids sha1_int fuel count m seed)
  ∧ generator_spec sha1_int "key-" count m seed
      (λ fuel, generate_keys sha1_int fuel count m seed).
Proof.
  intros Hcount Hm. split.
  - exact (generator_body_spec sha1_int "node-" count m seed Hcount Hm).
  - exact (generator_body_spec sha1_int "key-" count m seed Hcount Hm).
Qed.

Lemma generators_deterministic_ascending_witness :
  (0 ≤ 3)%Z ∧ (0 ≤ 16)%Z
  ∧ generate_node_ids hashlib.sha1_int 3 3 16 42 = Ok [17442; 26458; 38905]%Z
  ∧ generate_keys hashlib.sha1_int 3 3 16 123 = Ok [28911; 48310; 54071]%Z
  ∧ is_generated 3 16 [17442; 26458; 38905]%Z
  ∧ is_generated 3 16 [28911; 48310; 54071]%Z
  ∧ (∀ fuel, (3 ≤ fuel)%nat →
       generate_node_ids hashlib.sha1_int fuel 3 16 42 = Ok [17442; 26458; 38905]%Z)
  ∧ (∀ fuel, (3 ≤ fuel)%nat →
       generate_keys hashlib.sha1_int fuel 3 16 123 = Ok [28911; 48310; 54071]%Z).
Proof.
  assert (0 ≤ 3)%Z as Hcount by lia.
  assert (0 ≤ 16)%Z as Hm by lia.
  assert (generate_node_ids hashlib.sha1_int 3 3 16 42 = Ok [17442; 26458; 38905]%Z)
    as Hnodes by (vm_compute; reflexivity).
  assert (generate_keys hashlib.sha1_int 3 3 16 123 = Ok [28911; 48310; 54071]%Z)
    as Hkeys by (vm_compute; reflexivity).
  destruct (generators_deterministic_ascending hashlib.sha1_int 3 16 42 Hcount Hm)
    as [(_ & Hn & _) _].
  destruct (generators_deterministic_ascending hashlib.sha1_int 3 16 123 Hcount Hm)
    as [_ (_ & Hk & _)].
  destruct (Hn 3%nat _ Hnodes) as (_ & _ & Hgn & Hfn).
  destruct (Hk 3%nat _ Hkeys) as (_ & _ & Hgk & Hfk).
  exact (conj Hcount (conj Hm (conj Hnodes (conj Hkeys (conj Hgn (conj Hgk
           (conj Hfn Hfk))))))).
Defined.

(** ** C5, Chord: every node keeps one finger per identifier bit *)

Ltac chord_ok :=
  same_object; unfold chord_node_ok in *; simpl;
  rewrite ?length_insert, ?length_replicate; try done.

Section ChordInvariant.
Context {V : Type}.
Implicit Types (w : World (Chord.ChordNode V)).

Lemma chord_call_lookup_preserves (I : World (Chord.ChordNode V) → Prop) r key :
  preserves I (Chord.call_lookup r key).
Proof. intros w Hw. unfold Chord.call_lookup. wp_read. Qed.

Lemma chord_assign_finger_preserves r i v :
  preserves (all_nodes (@chord_node_ok V)) (Chord.assign_finger r i v).
Proof.
  intros w Hw. unfold Chord.assign_finger. wp_read. wp_write chord_ok.
Qed.

Lemma chord_new_node_preserves nid bits :
  preserves (all_nodes (@chord_node_ok V)) (Chord.new_node nid bits).
Proof.
  intros w Hw. apply wp_modify. apply all_nodes_inserted; [done|].
  unfold chord_node_ok. simpl. by rewrite length_replicate.
Qed.

Lemma chord_join_fingers_preserves self bootstrap messages :
  preserves (all_nodes (@chord_node_ok V)) (Chord.join_fingers self bootstrap messages).
Proof.
  intros w Hw. unfold Chord.join_fingers. wp_read.
  apply (wp_for_fold (λ _, all_nodes chord_node_ok)); [done| |done].
  intros acc i s _ Hs. wp_read.
  wp_apply (chord_call_lookup_preserves (all_nodes chord_node_ok)); [done|].
  intros result s' Hs'. cbv beta.
  wp_apply chord_assign_finger_preserves; [done|].
  intros [] s'' Hs''. by wp_read.
Qed.

Lemma chord_join_preserves self bootstrap_id :
  preserves (all_nodes (@chord_node_ok V)) (Chord.join self bootstrap_id).
Proof.
  intros w Hw. unfold Chord.join. destruct bootstrap_id as [b|].
  - wp_read.
    wp_apply (chord_call_lookup_preserves (all_nodes chord_node_ok)); [done|].
    intros result s Hs. cbv beta zeta.
    wp_write chord_ok.
    wp_apply chord_assign_finger_preserves; [done|]. intros [] s1 Hs1. cbv beta.
    wp_write chord_ok.
    wp_apply chord_join_fingers_preserves; [done|]. intros messages s3 Hs3. cbv beta.
    wp_write chord_ok.
  - wp_write chord_ok. wp_write chord_ok. wp_write chord_ok.
    wp_read.
Qed.

Lemma chord_leave_preserves self :
  preserves (all_nodes (@chord_node_ok V)) (Chord.leave self).
Proof.
  intros w Hw. unfold Chord.leave. wp_read.
  wp_block (all_nodes (@chord_node_ok V)).
  { wp_read. wp_write chord_ok. }
  intros messages s Hs. wp_read.
  wp_block (all_nodes (@chord_node_ok V)).
  { wp_read. wp_write chord_ok.
    wp_apply chord_assign_finger_preserves; [done|]. intros [] s1 Hs1. by wp_read. }
  intros messages' s1 Hs1. wp_read.
  wp_block (all_nodes (@chord_node_ok V)).
  { wp_read. wp_write chord_ok. }
  intros [] s2 Hs2. wp_write chord_ok.
Qed.

Lemma chord_notify_preserves self candidate_id :
  preserves (all_nodes (@chord_node_ok V)) (Chord._notify self candidate_id).
Proof.
  intros w Hw. unfold Chord._notify. wp_read; wp_write chord_ok.
Qed.

Lemma chord_stabilize_rest_preserves self x :
  preserves (all_nodes (@chord_node_ok V)) (Chord.stabilize_rest self x).
Proof.
  intros w Hw. unfold Chord.stabilize_rest. wp_read.
  wp_block (all_nodes (@chord_node_ok V)).
  { wp_read. wp_write chord_ok. by apply chord_assign_finger_preserves. }
  intros [] s Hs. wp_read.
  wp_block (all_nodes (@chord_node_ok V)).
  { wp_read. by apply chord_notify_preserves. }
  intros [] s1 Hs1.
  wp_seq. apply (wp_for_each (all_nodes chord_node_ok)); [done| |].
  { intros i s2 _ Hs2. wp_read.
    wp_apply (chord_call_lookup_preserves (all_nodes chord_node_ok)); [done|].
    intros result s3 Hs3. wp_read. by apply chord_assign_finger_preserves. }
  intros s2 Hs2. wp_write chord_ok. wp_read. wp_write chord_ok.
Qed.

Lemma chord_stabilize_preserves self :
  preserves (all_nodes (@chord_node_ok V)) (Chord.stabilize self).
Proof.
  intros w Hw. unfold Chord.stabilize. wp_read.
  - by apply chord_stabilize_rest_preserves.
  - wp_write chord_ok.
    wp_apply chord_assign_finger_preserves; [done|]. intros [] s1 Hs1. wp_read.
    + by apply chord_stabilize_rest_preserves.
    + wp_write chord_ok.
  - wp_write chord_ok.
Qed.

Lemma chord_store_preserves self key (value : V) :
  preserves (all_nodes (@chord_node_ok V)) (Chord.store self key value).
Proof.
  intros w Hw. unfold Chord.store.
  wp_apply (chord_call_lookup_preserves (all_nodes chord_node_ok)); [done|].
  intros result s Hs. wp_read. wp_write chord_ok.
Qed.

Lemma chord_retrieve_preserves self key :
  preserves (all_nodes (@chord_node_ok V)) (Chord.retrieve self key).
Proof.
  intros w Hw. unfold Chord.retrieve.
  wp_apply (chord_call_lookup_preserves (all_nodes chord_node_ok)); [done|].
  intros result s Hs. wp_read.
Qed.

Lemma chord_exec_preserves (o : Chord.op V) :
  preserves (all_nodes (@chord_node_ok V)) (Chord.exec o).
Proof.
  destruct o; simpl.
  - intros w Hw. wp_read. by apply chord_new_node_preserves.
  - apply preserves_discard, chord_join_preserves.
  - apply preserves_discard, chord_leave_preserves.
  - apply preserves_discard, chord_call_lookup_preserves.
  - apply chord_stabilize_preserves.
  - apply preserves_discard, chord_store_preserves.
  - apply preserves_discard, chord_retrieve_preserves.
Qed.

Lemma chord_routing_table_size_bound (n : Chord.ChordNode V) :
  chord_node_ok n → (0 ≤ Chord.id_bits n)%Z →
  (Chord.routing_table_size n ≤ Chord.id_bits n)%Z.
Proof.
  unfold chord_node_ok, Chord.routing_table_size. intros Hlen Hbits.
  pose proof (subseteq_size
    ((list_to_set (Chord.finger_table n) : gset Z) ∖ {[Chord.node_id n]})
    (list_to_set (Chord.finger_table n)) ltac:(set_solver)) as Hsub.
  pose proof (size_list_to_set_le (Chord.finger_table n)). lia.
Qed.

End ChordInvariant.

(** ** C5, Kademlia: every bucket holds at most [k] ids *)

Ltac kademlia_ok :=
  same_object; unfold kademlia_node_ok in *; simpl; try done.

Section KademliaInvariant.
Context {V : Type}.
Implicit Types (w : World (Kademlia.KademliaNode V)).

Lemma kademlia_ok_stable : bucket_stable (all_nodes (@kademlia_node_ok V)).
Proof.
  intros w r me bs Hw Hr Hbs. apply all_nodes_updated; [done|].
  intros n Hn Hok. assert (n = me) as -> by congruence. by apply Hbs.
Qed.

Lemma kademlia_new_node_preserves nid bits kk a :
  preserves (all_nodes (@kademlia_node_ok V)) (Kademlia.new_node nid bits kk a).
Proof.
  intros w Hw. apply wp_modify. apply all_nodes_inserted; [done|].
  split; simpl; [by rewrite length_replicate|].
  intros Hk. apply Forall_replicate. simpl. lia.
Qed.

Lemma kademlia_join_preserves self bootstrap_id :
  preserves (all_nodes (@kademlia_node_ok V)) (Kademlia.join self bootstrap_id).
Proof.
  intros w Hw. unfold Kademlia.join. wp_read. wp_write kademlia_ok.
  destruct bootstrap_id as [b|]; [|by wp_read].
  wp_apply (update_bucket_preserves (all_nodes (@kademlia_node_ok V)));
    [apply kademlia_ok_stable|done|].
  intros [] s1 Hs1.
  wp_apply (lookup_preserves (all_nodes (@kademlia_node_ok V)));
    [apply kademlia_ok_stable|done|].
  intros result s2 Hs2. by wp_read.
Qed.

Lemma kademlia_leave_preserves self :
  preserves (all_nodes (@kademlia_node_ok V)) (Kademlia.leave self).
Proof. intros w Hw. unfold Kademlia.leave. wp_read. Qed.

Lemma kademlia_stabilize_preserves self :
  preserves (all_nodes (@kademlia_node_ok V)) (Kademlia.stabilize self).
Proof.
  intros w Hw. unfold Kademlia.stabilize. wp_read. wp_write kademlia_ok.
  match goal with H : _ ∧ _ |- _ => destruct H as [Hlen Hk] end.
  split; [by rewrite length_map|].
  intros Hk0. specialize (Hk Hk0). apply Forall_fmap.
  eapply Forall_impl; [done|]. simpl. intros bucket Hb.
  pose proof (length_filter (λ nid : Z, is_live w nid) bucket). lia.
Qed.

Lemma kademlia_store_preserves self key (value : V) :
  preserves (all_nodes (@kademlia_node_ok V)) (Kademlia.store self key value).
Proof.
  intros w Hw. unfold Kademlia.store.
  wp_apply (lookup_preserves (all_nodes (@kademlia_node_ok V)));
    [apply kademlia_ok_stable|done|].
  intros result s Hs. wp_read. wp_write kademlia_ok.
Qed.

Lemma kademlia_retrieve_preserves self key :
  preserves (all_nodes (@kademlia_node_ok V)) (Kademlia.retrieve self key).
Proof.
  intros w Hw. unfold Kademlia.retrieve.
  wp_apply (lookup_preserves (all_nodes (@kademlia_node_ok V)));
    [apply kademlia_ok_stable|done|].
  intros result s Hs. wp_read.
Qed.

Lemma kademlia_exec_preserves (o : Kademlia.op V) :
  preserves (all_nodes (@kademlia_node_ok V)) (Kademlia.exec o).
Proof.
  destruct o; simpl.
  - intros w Hw. wp_read. by apply kademlia_new_node_preserves.
  - apply preserves_discard, kademlia_join_preserves.
  - apply preserves_discard, kademlia_leave_preserves.
  - apply preserves_discard, lookup_preserves, kademlia_ok_stable.
  - apply kademlia_stabilize_preserves.
  - apply preserves_discard, kademlia_store_preserves.
  - apply preserves_discard, kademlia_retrieve_preserves.
Qed.

Lemma concat_length_bound (l : list (list Z)) (k : Z) :
  Forall (λ bucket, (Z.of_nat (length bucket) ≤ k)%Z) l →
  (Z.of_nat (length (concat l)) ≤ k * Z.of_nat (length l))%Z.
Proof.
  induction 1 as [|bucket l Hb _ IH]; simpl; [lia|].
  rewrite length_app. lia.
Qed.

Lemma kademlia_routing_table_size_bound (n : Kademlia.KademliaNode V) :
  kademlia_node_ok n → (0 ≤ Kademlia.id_bits n)%Z → (0 ≤ Kademlia.k n)%Z →
  (Kademlia.routing_table_size n ≤ Kademlia.k n * Kademlia.id_bits n)%Z.
Proof.
  intros [Hlen Hk] Hbits Hk0. unfold Kademlia.routing_table_size.
  pose proof (concat_length_bound _ _ (Hk Hk0)) as Hbound. rewrite Hlen in Hbound.
  rewrite Z2Nat.id in Hbound; done.
Qed.

End KademliaInvariant.

(** ** C5, Pastry: the leaf set stays within [leaf_size] and the routing
       table keeps its shape *)

Lemma updated_updated {Node} (r : Z) (f g : Node → Node) (w : World Node) :
  updated r g (updated r f w) = updated r (g ∘ f) w.
Proof. unfold updated. simpl. by rewrite alter_alter_eq. Qed.

Lemma setitem_length {A} (l l' : list A) i x :
  setitem l i x = Ok l' → length l' = length l.
Proof.
  unfold setitem. destruct (py_index l i); [|done].
  intros [= <-]. apply length_insert.
Qed.

Lemma getitem_elem {A} (l : list A) i x : getitem l i = Ok x → x ∈ l.
Proof.
  unfold getitem. destruct (py_index l i) as [j|]; simpl; [|done].
  destruct (l !! j) eqn:Hj; [|done]. intros [= <-]. by eapply list_elem_of_lookup_2.
Qed.

Lemma set_cell_shape (table table' : list (list (option Z))) row col v (width : nat) :
  Pastry.set_cell table row col v = Ok table' →
  Forall (λ r, length r = width) table →
  length table' = length table ∧ Forall (λ r, length r = width) table'.
Proof.
  unfold Pastry.set_cell. intros Hset Hshape.
  destruct (getitem table row) as [r| |] eqn:Hr; simpl in Hset; [|done..].
  destruct (setitem r col v) as [r'| |] eqn:Hr'; simpl in Hset; [|done..].
  split; [by eapply setitem_length|].
  unfold setitem in Hset. destruct (py_index table row); [|done].
  injection Hset as <-. apply Forall_insert; [done|].
  apply setitem_length in Hr'. rewrite Hr'.
  rewrite Forall_forall in Hshape. by apply Hshape, (getitem_elem _ row).
Qed.

Section PastryBuilt.
Context {V : Type}.
Implicit Types (n : Pastry.PastryNode V).

Lemma built_set_data n d : pastry_node_built n → pastry_node_built (Pastry.set_data d n).
Proof. done. Qed.

Lemma built_set_leaf_set n ls :
  pastry_node_built n →
  ((0 ≤ Pastry.leaf_size n)%Z → (Z.of_nat (length ls) ≤ Pastry.leaf_size n)%Z) →
  pastry_node_built (Pastry.set_leaf_set ls n).
Proof. intros (Hok & Hb & Hnd & _) Hls. by split_and!. Qed.

Lemma built_set_routing_table n rt :
  pastry_node_built n →
  length rt = length (Pastry.routing_table n) →
  Forall (λ row, length row = Z.to_nat (Pastry.base n)) rt →
  pastry_node_built (Pastry.set_routing_table rt n).
Proof.
  intros ((Hb0 & Hbase & Hrows & Hcols) & Hb & Hnd & Hls) Hlen Hshape.
  unfold pastry_node_built, pastry_node_ok. simpl.
  split_and!; try done. congruence.
Qed.

Lemma built_shape n :
  pastry_node_built n →
  Forall (λ row, length row = Z.to_nat (Pastry.base n)) (Pastry.routing_table n).
Proof. by intros ((_ & _ & _ & Hcols) & _). Qed.

End PastryBuilt.

Ltac pastry_ok :=
  same_object;
  first [apply built_set_data|apply built_set_leaf_set|apply built_set_routing_table];
  try done.

Section PastryInvariant.
Context {V : Type}.
Implicit Types (w : World (Pastry.PastryNode V)).

Lemma pastry_init_built nid bits bb ls (n : Pastry.PastryNode V) :
  Pastry.init nid bits bb ls = Ok n → pastry_node_built n.
Proof.
  unfold Pastry.init.
  destruct (Z.ltb_spec bb 0); [done|]. destruct (Z.eqb_spec bb 0); [done|].
  intros [= <-]. unfold pastry_node_built, pastry_node_ok. simpl.
  rewrite Z.shiftl_1_l.
  assert (1 ≤ 2 ^ bb)%Z by (apply (Z.pow_le_mono_r 2 0 bb); lia).
  split_and!; try done; try lia.
  - by rewrite length_replicate.
  - apply Forall_replicate. by rewrite length_replicate.
Qed.

Lemma pastry_new_node_preserves nid bits bb ls :
  preserves (all_nodes (@pastry_node_built V)) (Pastry.new_node nid bits bb ls).
Proof.
  intros w Hw. unfold Pastry.new_node. wp_read.
  apply wp_modify. apply all_nodes_inserted; [done|]. by eapply pastry_init_built.
Qed.

Lemma pastry_call_lookup_preserves (I : World (Pastry.PastryNode V) → Prop) r key :
  preserves I (Pastry.call_lookup r key).
Proof. intros w Hw. unfold Pastry.call_lookup. wp_read. Qed.

Lemma pastry_assign_cell_preserves r row col v :
  preserves (all_nodes (@pastry_node_built V)) (Pastry.assign_cell r row col v).
Proof.
  intros w Hw. unfold Pastry.assign_cell. wp_read. wp_write pastry_ok.
  - by eapply set_cell_shape; [|apply built_shape].
  - by eapply set_cell_shape; [|apply built_shape].
Qed.

Lemma pastry_add_to_state_preserves self nid :
  preserves (all_nodes (@pastry_node_built V)) (Pastry._add_to_state self nid).
Proof.
  intros w Hw. unfold Pastry._add_to_state. wp_read.
  wp_block (all_nodes (@pastry_node_built V)).
  { wp_read. wp_seq. apply wp_update. wp_read.
    - apply wp_update. rewrite updated_updated. apply all_nodes_updated; [done|].
      intros n' Hn' Hbuilt. same_object.
      refine (built_set_leaf_set n _ Hbuilt _).
      intros Hls. by apply slice_to_length_bound.
    - apply all_nodes_updated; [done|]. intros n' Hn' Hbuilt. pastry_ok.
      match goal with H : (_ >? _)%Z = false |- _ => revert H end.
      rewrite Z.gtb_ltb. intros ?%Z.ltb_ge. same_object. lia. }
  intros [] s Hs. wp_read. by apply pastry_assign_cell_preserves.
Qed.

Lemma pastry_learn_ids_preserves self ids :
  preserves (all_nodes (@pastry_node_built V)) (Pastry.learn_ids self ids).
Proof.
  intros w Hw. unfold Pastry.learn_ids.
  apply (wp_for_each (all_nodes pastry_node_built)); [done| |done].
  intros x s _ Hs. by apply pastry_add_to_state_preserves.
Qed.

Lemma pastry_learn_routing_table_preserves self src :
  preserves (all_nodes (@pastry_node_built V)) (Pastry.learn_routing_table self src).
Proof.
  intros w Hw. unfold Pastry.learn_routing_table. wp_read.
  apply (wp_for_each (all_nodes pastry_node_built)); [done| |done].
  intros i s _ Hs. wp_read.
  apply (wp_for_each (all_nodes pastry_node_built)); [done| |done].
  intros j s' _ Hs'. wp_read. by apply pastry_add_to_state_preserves.
Qed.

Lemma pastry_join_preserves self bootstrap_id :
  preserves (all_nodes (@pastry_node_built V)) (Pastry.join self bootstrap_id).
Proof.
  intros w Hw. unfold Pastry.join. wp_read. wp_write pastry_ok.
  destruct bootstrap_id as [bid|]; [|by wp_read]. wp_read.
  wp_apply pastry_add_to_state_preserves; [done|]. intros [] s1 Hs1.
  wp_apply pastry_learn_ids_preserves; [done|]. intros [] s2 Hs2.
  wp_apply pastry_learn_routing_table_preserves; [done|]. intros [] s3 Hs3.
  wp_apply (pastry_call_lookup_preserves (all_nodes pastry_node_built)); [done|].
  intros result s4 Hs4. cbv beta zeta. wp_seq.
  apply (wp_for_fold (λ _, all_nodes pastry_node_built)); [done| |].
  { intros messages nid s5 _ Hs5. wp_read.
    wp_apply pastry_learn_ids_preserves; [done|]. intros [] s6 Hs6.
    wp_apply pastry_learn_routing_table_preserves; [done|]. intros [] s7 Hs7.
    by wp_read. }
  intros messages s5 Hs5. wp_read.
  apply (wp_for_fold (λ _, all_nodes pastry_node_built)); [done| |done].
  intros messages' leaf_id s6 _ Hs6. wp_read.
  wp_apply pastry_add_to_state_preserves; [done|]. intros [] s7 Hs7. by wp_read.
Qed.

Lemma pastry_leave_notify_preserves fuel self i messages :
  preserves (all_nodes (@pastry_node_built V)) (Pastry.leave_notify fuel self i messages).
Proof.
  revert i messages. induction fuel as [|fuel IH]; intros i messages w Hw; simpl.
  { by wp_read. }
  wp_read; [|by apply IH].
  wp_block (all_nodes (@pastry_node_built V)).
  { wp_read. wp_write pastry_ok.
    intros Hls. match goal with H : pastry_node_built _ |- _ =>
      destruct H as (_ & _ & _ & Hleaf) end.
    specialize (Hleaf Hls).
    pose proof (sublist_length _ _ (remove_first_sublist (Pastry.node_id n)
                  (Pastry.leaf_set n0))). lia. }
  intros [] s Hs. wp_write pastry_ok.
  - by rewrite length_map.
  - apply Forall_fmap. eapply Forall_impl; [by apply built_shape|].
    intros row Hrow. simpl. unfold Pastry.forget_in_row. by rewrite length_map.
  - by apply IH.
Qed.

Lemma pastry_leave_preserves self :
  preserves (all_nodes (@pastry_node_built V)) (Pastry.leave self).
Proof.
  intros w Hw. unfold Pastry.leave. wp_read.
  wp_apply pastry_leave_notify_preserves; [done|]. intros messages s Hs. wp_read.
  wp_block (all_nodes (@pastry_node_built V)).
  { wp_read. wp_write pastry_ok. }
  intros [] s1 Hs1. wp_write pastry_ok.
Qed.

Lemma pastry_stabilize_preserves self :
  preserves (all_nodes (@pastry_node_built V)) (Pastry.stabilize self).
Proof.
  intros w Hw. unfold Pastry.stabilize. wp_read. wp_write pastry_ok.
  { intros Hls. match goal with H : pastry_node_built _ |- _ =>
      destruct H as (_ & _ & _ & Hleaf) end.
    specialize (Hleaf Hls).
    pose proof (length_filter (λ nid : Z, is_live w nid) (Pastry.leaf_set n)). lia. }
  wp_seq. apply (wp_for_each (all_nodes pastry_node_built)); [done| |].
  { intros i s _ Hs.
    apply (wp_for_each (all_nodes pastry_node_built)); [done| |done].
    intros j s1 _ Hs1. wp_read. by apply pastry_assign_cell_preserves. }
  intros s Hs. wp_read.
  apply (wp_for_each (all_nodes pastry_node_built)); [done| |done].
  intros leaf_id s1 _ Hs1. wp_read.
  wp_apply pastry_learn_ids_preserves; [done|]. intros [] s2 Hs2.
  by apply pastry_learn_routing_table_preserves.
Qed.

Lemma pastry_store_preserves self key (value : V) :
  preserves (all_nodes (@pastry_node_built V)) (Pastry.store self key value).
Proof.
  intros w Hw. unfold Pastry.store.
  wp_apply (pastry_call_lookup_preserves (all_nodes pastry_node_built)); [done|].
  intros result s Hs. wp_read. wp_write pastry_ok.
Qed.

Lemma pastry_retrieve_preserves self key :
  preserves (all_nodes (@pastry_node_built V)) (Pastry.retrieve self key).
Proof.
  intros w Hw. unfold Pastry.retrieve.
  wp_apply (pastry_call_lookup_preserves (all_nodes pastry_node_built)); [done|].
  intros result s Hs. wp_read.
Qed.

Lemma pastry_exec_preserves (o : Pastry.op V) :
  preserves (all_nodes (@pastry_node_built V)) (Pastry.exec o).
Proof.
  destruct o; simpl.
  - intros w Hw. wp_read. by apply pastry_new_node_preserves.
  - apply preserves_discard, pastry_join_preserves.
  - apply preserves_discard, pastry_leave_preserves.
  - apply preserves_discard, pastry_call_lookup_preserves.
  - apply pastry_stabilize_preserves.
  - apply preserves_discard, pastry_store_preserves.
  - apply preserves_discard, pastry_retrieve_preserves.
Qed.

Lemma concat_length_exact {A} (l : list (list A)) (width : nat) :
  Forall (λ row, length row = width) l → length (concat l) = (length l * width)%nat.
Proof.
  induction 1 as [|row l Hrow _ IH]; simpl; [done|].
  rewrite length_app. lia.
Qed.

Lemma omap_length_le {A B} (f : A → option B) (l : list A) :
  (length (omap f l) ≤ length l)%nat.
Proof.
  induction l as [|x l IH]; [done|].
  change (omap f (x :: l))
    with (match f x with Some y => y :: omap f l | None => omap f l end).
  destruct (f x); simpl; lia.
Qed.

Lemma pastry_routing_table_size_bound (n : Pastry.PastryNode V) :
  pastry_node_built n → (0 ≤ Pastry.id_bits n)%Z → (0 ≤ Pastry.leaf_size n)%Z →
  (Pastry.routing_table_size n
   ≤ Pastry.leaf_size n + Pastry.num_digits n * Pastry.base n)%Z.
Proof.
  intros ((Hb0 & Hbase & Hrows & Hcols) & Hb & Hnd & Hleaf) Hbits Hls.
  unfold Pastry.routing_table_size, Pastry.entries.
  specialize (Hleaf Hls).
  pose proof (omap_length_le id (concat (Pastry.routing_table n))) as Hentries.
  rewrite (concat_length_exact _ _ Hcols), Hrows in Hentries.
  assert (0 ≤ Pastry.num_digits n)%Z.
  { rewrite Hnd. apply Z.div_pos; lia. }
  nia.
Qed.

End PastryInvariant.

(** C5.  In every state a driver can reach through the public operations,
    [routing_table_size] obeys the bound of its protocol (for non-negative
    [id_bits], [k] and [leaf_size]): at most [id_bits] for a Chord node, at
    most [k * id_bits] for a Kademlia node, whose buckets each hold at most
    [k] ids, and at most [leaf_size + num_digits * base] for a Pastry
    node. *)
Theorem routing_table_size_bounds {V} :
  (∀ (w : World (Chord.ChordNode V)) i n,
     reachable Chord.exec w → objects w !! i = Some n →
     (0 ≤ Chord.id_bits n)%Z →
     (Chord.routing_table_size n ≤ Chord.id_bits n)%Z)
  ∧ (∀ (w : World (Kademlia.KademliaNode V)) i n,
       reachable Kademlia.exec w → objects w !! i = Some n →
       (0 ≤ Kademlia.id_bits n)%Z → (0 ≤ Kademlia.k n)%Z →
       (Kademlia.routing_table_size n ≤ Kademlia.k n * Kademlia.id_bits n)%Z
       ∧ length (Kademlia.buckets n) = Z.to_nat (Kademlia.id_bits n)
       ∧ Forall (λ bucket, (Z.of_nat (length bucket) ≤ Kademlia.k n)%Z)
           (Kademlia.buckets n))
  ∧ (∀ (w : World (Pastry.PastryNode V)) i n,
       reachable Pastry.exec w → objects w !! i = Some n →
       (0 ≤ Pastry.id_bits n)%Z → (0 ≤ Pastry.leaf_size n)%Z →
       (Pastry.routing_table_size n
        ≤ Pastry.leaf_size n + Pastry.num_digits n * Pastry.base n)%Z).
Proof.
  split_and!.
  - intros w i n Hw Hn Hbits. apply chord_routing_table_size_bound; [|done].
    eapply (reachable_invariant Chord.exec (all_nodes chord_node_ok)); [| |done..].
    + by intros ? ?.
    + apply chord_exec_preserves.
  - intros w i n Hw Hn Hbits Hk.
    assert (kademlia_node_ok n) as Hok.
    { eapply (reachable_invariant Kademlia.exec (all_nodes kademlia_node_ok)); [| |done..].
      - by intros ? ?.
      - apply kademlia_exec_preserves. }
    split; [by apply kademlia_routing_table_size_bound|].
    destruct Hok as [Hlen Hbuckets]. split; [done|by apply Hbuckets].
  - intros w i n Hw Hn Hbits Hls. apply pastry_routing_table_size_bound; [|done..].
    eapply (reachable_invariant Pastry.exec (all_nodes pastry_node_built)); [| |done..].
    + by intros ? ?.
    + apply pastry_exec_preserves.
Qed.

Lemma routing_table_size_bounds_witness :
  reachable Chord.exec chord_after_churn
  ∧ objects chord_after_churn !! 5%Z = Some chord_after_churn_node
  ∧ reachable Kademlia.exec kademlia_chain
  ∧ objects kademlia_chain !! 0%Z = Some kademlia_chain_node
  ∧ reachable Pastry.exec pastry_trio
  ∧ objects pastry_trio !! 512%Z = Some pastry_trio_node
  ∧ (Chord.routing_table_size chord_after_churn_node
     ≤ Chord.id_bits chord_after_churn_node)%Z
  ∧ (Kademlia.routing_table_size kademlia_chain_node
     ≤ Kademlia.k kademlia_chain_node * Kademlia.id_bits kademlia_chain_node)%Z
  ∧ (Pastry.routing_table_size pastry_trio_node
     ≤ Pastry.leaf_size pastry_trio_node
       + Pastry.num_digits pastry_trio_node * Pastry.base pastry_trio_node)%Z.
Proof.
  assert (reachable Chord.exec chord_after_churn) as Hc
    by (apply reachable_run; constructor).
  assert (objects chord_after_churn !! 5%Z = Some chord_after_churn_node) as Hcn
    by (vm_compute; reflexivity).
  assert (reachable Kademlia.exec kademlia_chain) as Hk
    by (apply reachable_run; constructor).
  assert (objects kademlia_chain !! 0%Z = Some kademlia_chain_node) as Hkn
    by (vm_compute; reflexivity).
  assert (reachable Pastry.exec pastry_trio) as Hp
    by (apply reachable_run; constructor).
  assert (objects pastry_trio !! 512%Z = Some pastry_trio_node) as Hpn
    by (vm_compute; reflexivity).
  pose proof (routing_table_size_bounds (V:=string)) as (Bc & Bk & Bp).
  split_and!; [done..| | |].
  - apply (Bc chord_after_churn 5%Z chord_after_churn_node Hc Hcn). simpl. lia.
  - apply (Bk kademlia_chain 0%Z kademlia_chain_node Hk Hkn); simpl; lia.
  - apply (Bp pastry_trio 512%Z pastry_trio_node Hp Hpn); simpl; lia.
Defined.

(** ** C1, Kademlia: a lookup in a well-formed network returns *)

Lemma Forall_concat_elem {A} (P : A → Prop) (l : list (list A)) x :
  Forall (Forall P) l → x ∈ concat l → P x.
Proof.
  induction 1 as [|y l Hy _ IH]; simpl; [by intros ?%elem_of_nil|].
  intros [Hx|Hx]%elem_of_app; [|by apply IH].
  rewrite Forall_forall in Hy. by apply Hy.
Qed.

Section KademliaTotal.
Context {V : Type}.
Variables (m : Z) (D : gset Z).
Implicit Types (w : World (Kademlia.KademliaNode V)) (n me : Kademlia.KademliaNode V).

Lemma kademlia_net_deref w r :
  kademlia_net_ok m D w → r ∈ D →
  ∃ n, objects w !! r = Some n ∧ kademlia_ids_ok m n.
Proof.
  intros [Hall Hdom] Hr. rewrite <- Hdom in Hr. apply elem_of_dom in Hr as [n Hn].
  exists n. split; [done|]. by eapply Hall.
Qed.

Lemma kademlia_net_updated w r bs :
  kademlia_net_ok m D w →
  (∀ n, objects w !! r = Some n → kademlia_ids_ok m (Kademlia.set_buckets bs n)) →
  kademlia_net_ok m D (updated r (Kademlia.set_buckets bs) w).
Proof.
  intros [Hall Hdom] Hbs. split.
  - apply all_nodes_updated; [done|]. intros n Hn _. by apply Hbs.
  - unfold updated. simpl. by rewrite dom_alter_L.
Qed.

Lemma find_closest_local_in_space n target count :
  kademlia_ids_ok m n →
  Forall (in_space m) (Kademlia._find_closest_local n target count).
Proof.
  intros (_ & _ & _ & Hb). apply Forall_forall. intros x Hx.
  unfold Kademlia._find_closest_local in Hx.
  apply slice_to_elem, sort_by_elem in Hx. by eapply Forall_concat_elem.
Qed.

Lemma update_bucket_total self nid w :
  kademlia_net_ok m D w → self ∈ D → in_space m nid →
  wp (Kademlia._update_bucket self nid) (λ _, kademlia_net_ok m D) (λ _, False) w.
Proof.
  intros Hw Hself Hnid.
  destruct (kademlia_net_deref w self Hw Hself) as (me & Hme & Hok).
  unfold Kademlia._update_bucket. apply wp_bind, wp_deref; [|congruence].
  intros n Hn. assert (n = me) as -> by congruence.
  destruct (Z.eqb_spec nid (Kademlia.node_id me)) as [|Hne]; [by apply wp_ret|].
  destruct Hok as (Hbits & Hlen & Hid & Hb).
  pose proof (bucket_index_range me nid m Hid Hnid Hne) as Hidx.
  destruct (lookup_lt_is_Some_2 (Kademlia.buckets me)
              (Z.to_nat (Kademlia._bucket_index me nid))) as [bucket Hbucket]; [lia|].
  rewrite Hbucket.
  assert (Forall (in_space m) bucket) as Hbucket_ok
    by (by eapply Forall_lookup_1 in Hb).
  destruct (mem nid bucket); [|destruct (_ <? _)%Z; [|by apply wp_ret]].
  - apply wp_update, kademlia_net_updated; [done|].
    intros n Hn'. assert (n = me) as -> by congruence.
    split_and!; simpl; [done|by rewrite length_insert|done|].
    apply Forall_insert; [done|]. apply Forall_app. split; [|by constructor].
    eapply Forall_forall. intros x Hx. rewrite Forall_forall in Hbucket_ok.
    apply Hbucket_ok. eapply elem_of_sublist; [done|apply remove_first_sublist].
  - apply wp_update, kademlia_net_updated; [done|].
    intros n Hn'. assert (n = me) as -> by congruence.
    split_and!; simpl; [done|by rewrite length_insert|done|].
    apply Forall_insert; [done|]. apply Forall_app. split; [done|by constructor].
Qed.

Lemma find_node_rpc_total self target querier w :
  kademlia_net_ok m D w → self ∈ D → in_space m querier →
  wp (Kademlia.find_node_rpc self target querier)
     (λ returned s, kademlia_net_ok m D s ∧ Forall (in_space m) returned)
     (λ _, False) w.
Proof.
  intros Hw Hself Hq. unfold Kademlia.find_node_rpc.
  wp_apply update_bucket_total; [done..|].
  intros [] s Hs.
  destruct (kademlia_net_deref s self Hs Hself) as (me & Hme & Hok).
  apply wp_bind, wp_deref; [|congruence].
  intros n Hn. assert (n = me) as -> by congruence.
  apply wp_ret. split; [done|].
  apply Forall_forall. intros x Hx%slice_to_elem%sort_by_elem.
  apply elem_of_app in Hx as [Hx| ->%list_elem_of_singleton].
  - pose proof (find_closest_local_in_space me target None Hok) as Hc.
    rewrite Forall_forall in Hc. by apply Hc.
  - apply Hok.
Qed.

Lemma ingest_total self shortlist found_new r w :
  kademlia_net_ok m D w → self ∈ D → in_space m r → Forall (in_space m) shortlist →
  wp (Kademlia.ingest self (shortlist, found_new) r)
     (λ acc s, kademlia_net_ok m D s ∧ Forall (in_space m) acc.1)
     (λ _, False) w.
Proof.
  intros Hw Hself Hr Hsl. unfold Kademlia.ingest.
  wp_apply update_bucket_total; [done..|].
  intros [] s Hs.
  destruct (kademlia_net_deref s self Hs Hself) as (me & Hme & Hok).
  apply wp_bind, wp_deref; [|congruence]. intros n Hn.
  destruct (_ && _); apply wp_ret; (split; [done|]); simpl; [|done].
  apply Forall_app. split; [done|by constructor].
Qed.

Lemma query_one_total self key shortlist queried pth found_new nid w :
  kademlia_net_ok m D w → self ∈ D → Forall (in_space m) shortlist →
  wp (Kademlia.query_one self key (shortlist, queried, pth, found_new) nid)
     (λ acc s, kademlia_net_ok m D s ∧ Forall (in_space m) acc.1.1.1)
     (λ _, False) w.
Proof.
  intros Hw Hself Hsl. unfold Kademlia.query_one.
  apply wp_bind, wp_gets.
  destruct (get_node w nid) as [t|] eqn:Ht; [|by apply wp_ret].
  apply get_node_Some in Ht as [Ht _].
  assert (nid ∈ D) as Hnid.
  { destruct Hw as [_ <-]. apply elem_of_dom. by eexists. }
  destruct (kademlia_net_deref w self Hw Hself) as (me & Hme & Hok).
  apply wp_bind, wp_deref; [|congruence].
  intros n Hn. assert (n = me) as -> by congruence.
  wp_apply find_node_rpc_total; [done|done|apply Hok|].
  intros returned s [Hs Hret]. wp_seq.
  apply (wp_for_fold (λ acc s, kademlia_net_ok m D s ∧ Forall (in_space m) acc.1));
    [done| |].
  - intros [sl fn] r s' Hr [Hs' Hsl']. apply ingest_total; [done..| |done].
    rewrite Forall_forall in Hret. by apply Hret.
  - intros [sl fn] s' [Hs' Hsl']. by apply wp_ret.
Qed.

Lemma lookup_rounds_total fuel self key shortlist queried pth hops w :
  kademlia_net_ok m D w → self ∈ D → Forall (in_space m) shortlist →
  (1 ≤ fuel)%nat → (m * 2 - hops + 1 ≤ Z.of_nat fuel)%Z →
  wp (Kademlia.lookup_rounds fuel self key shortlist queried pth hops)
     (λ res s, kademlia_net_ok m D s ∧ (res.2 ≤ Z.max (hops + 1) (m * 2 + 1))%Z)
     (λ _, False) w.
Proof.
  revert shortlist queried pth hops w.
  induction fuel as [|fuel IH];
    intros shortlist queried pth hops w Hw Hself Hsl Hfuel1 Hfuel; [lia|].
  destruct (kademlia_net_deref w self Hw Hself) as (me & Hme & Hok).
  simpl. apply wp_bind, wp_deref; [|congruence].
  intros n Hn. assert (n = me) as -> by congruence.
  assert (Kademlia.id_bits me = m) as Hm by apply Hok.
  destruct (slice_to _ _) as [|q qs] eqn:Hq.
  { apply wp_ret. split; [done|]. simpl. lia. }
  apply wp_bind. unfold wp at 1. rewrite advance_clock_noop.
  wp_seq.
  apply (wp_for_fold (λ acc s, kademlia_net_ok m D s ∧ Forall (in_space m) acc.1.1.1));
    [done| |].
  - intros [[[sl qd] p] fn] x s _ [Hs Hsl']. by apply query_one_total.
  - intros [[[sl qd] p] fn] s [Hs Hsl']. simpl in Hsl'.
    destruct (negb fn); [apply wp_ret; split; [done|simpl; lia]|].
    rewrite Hm. destruct (Z.gtb_spec (hops + 1) (m * 2)).
    { apply wp_ret. split; [done|]. simpl. lia. }
    eapply wp_mono; [apply IH| |done]; [done|done| |lia|lia|].
    + apply Forall_forall. intros y Hy%slice_to_elem%sort_by_elem.
      rewrite Forall_forall in Hsl'. by apply Hsl'.
    + intros res s' [Hs' Hres]. split; [done|]. lia.
Qed.

Lemma kademlia_lookup_total self key w :
  kademlia_net_ok m D w → self ∈ D →
  wp (Kademlia.lookup self key)
     (λ r s, kademlia_net_ok m D s ∧ success r = true
             ∧ (hop_count r ≤ Z.max 1 (m * 2 + 1))%Z)
     (λ _, False) w.
Proof.
  intros Hw Hself.
  destruct (kademlia_net_deref w self Hw Hself) as (me & Hme & Hok).
  unfold Kademlia.lookup. apply wp_bind, wp_deref; [|congruence].
  intros n Hn. assert (n = me) as -> by congruence.
  assert (Kademlia.id_bits me = m) as Hm by apply Hok.
  pose proof (find_closest_local_in_space me key (Some (Kademlia.k me)) Hok) as Hsl.
  destruct (Kademlia._find_closest_local me key (Some (Kademlia.k me))) as [|c cs] eqn:Hc.
  { apply wp_ret. split_and!; [done|done|simpl; lia]. }
  wp_apply lookup_rounds_total; [done|done|done| | |].
  - unfold Kademlia.lookup_fuel. lia.
  - unfold Kademlia.lookup_fuel. rewrite Hm. lia.
  - intros [[sl p] h] s [Hs Hh]. apply wp_ret. split_and!; [done|done|]. simpl in *. lia.
Qed.

End KademliaTotal.

(** ** C1: what a lookup returns *)

(** The claim of C1 fails for Kademlia: in the reachable network
    [kademlia_chain] ([id_bits = 3], so the cap is 6) the lookup of key 7
    from node 0 takes 7 rounds, more than the cap, and reports success. *)
Lemma kademlia_lookup_cap_counterexample :
  reachable Kademlia.exec kademlia_chain
  ∧ ∃ r, snd (Kademlia.lookup 0 7 kademlia_chain) = Ok r
         ∧ (Kademlia.id_bits kademlia_chain_node * 2 < hop_count r)%Z
         ∧ success r = true.
Proof.
  split; [apply reachable_run; constructor|].
  eexists. split; [vm_compute; reflexivity|]. split; reflexivity.
Qed.

(** C1, as the code has it.  In a well-formed network (finger tables of
    [id_bits] entries; Pastry tables of the constructor's shape over a
    non-negative number of identifier bits; Kademlia ids within the
    [m]-bit space) a lookup returns a result and raises nothing.  For Chord
    and Pastry the result has [success = false] exactly when the hop count
    exceeds the cap [2 * id_bits].  A Kademlia lookup always reports
    success, also when its round count exceeds the cap; it makes at most
    [2 * id_bits + 1] rounds. *)
Theorem lookup_returns_and_reports_cap {V} :
  (∀ (w : World (Chord.ChordNode V)) (self : Chord.ChordNode V) (key : Z),
     all_nodes chord_node_ok w → chord_node_ok self →
     ∃ r, Chord.lookup w self key = Ok r
          ∧ (success r = false ↔ (Chord.id_bits self * 2 < hop_count r)%Z))
  ∧ (∀ (w : World (Pastry.PastryNode V)) (self : Pastry.PastryNode V) (key : Z),
       all_nodes pastry_node_sized w → pastry_node_sized self →
       ∃ r, Pastry.lookup w self key = Ok r
            ∧ (success r = false ↔ (Pastry.id_bits self * 2 < hop_count r)%Z))
  ∧ (∀ (m : Z) (D : gset Z) (w : World (Kademlia.KademliaNode V)) (self key : Z),
       kademlia_net_ok m D w → self ∈ D →
       ∃ w' r, Kademlia.lookup self key w = (w', Ok r)
               ∧ success r = true
               ∧ (hop_count r ≤ Z.max 1 (m * 2 + 1))%Z).
Proof.
  split_and!.
  - intros w self key Hw Hself.
    destruct (chord_lookup_loop_total (Chord.lookup_fuel self) w self self key 0
                [Chord.node_id self] Hw Hself) as [r Hr].
    { unfold Chord.lookup_fuel. lia. }
    exists r. split; [done|].
    apply chord_lookup_loop_result in Hr as [[Hs Hh]|(Hs & Hh & _)];
      rewrite Hs; split; (done || lia).
  - intros w self key Hw [Hself _].
    assert (all_nodes pastry_node_ok w) as Hw' by (intros i n Hn; apply (Hw i n Hn)).
    clear Hw. rename Hw' into Hw.
    destruct (pastry_lookup_loop_total (Pastry.lookup_fuel self) w self self key 0
                [Pastry.node_id self] {[Pastry.node_id self]} Hw Hself) as [r Hr].
    { unfold Pastry.lookup_fuel. lia. }
    exists r. split; [done|].
    apply pastry_lookup_loop_result in Hr as [[Hs Hh]|[Hs Hh]];
      rewrite Hs; split; (done || lia).
  - intros m D w self key Hw Hself.
    pose proof (kademlia_lookup_total m D self key w Hw Hself) as Hwp.
    unfold wp in Hwp.
    destruct (Kademlia.lookup self key w) as [w' [r| |]]; [|done..].
    exists w', r. split; [done|]. apply Hwp.
Qed.

Lemma chord_chain_ok : all_nodes chord_node_ok chord_chain.
Proof.
  intros i n Hn. apply elem_of_list_to_map_2, list_elem_of_fmap in Hn
    as (j & [= -> ->] & _). reflexivity.
Qed.

Lemma kademlia_chain_ok :
  kademlia_net_ok 3 (list_to_set [0; 1; 2; 3; 4; 5; 6; 7]%Z) kademlia_chain.
Proof.
  split; [|vm_compute; reflexivity].
  intros i n Hn. apply elem_of_map_to_list in Hn. vm_compute in Hn.
  repeat (apply elem_of_cons in Hn as [[= -> ->]|Hn];
          [split_and!; [done|done|by vm_compute|];
           repeat constructor; by vm_compute|]).
  by apply elem_of_nil in Hn.
Qed.

Lemma lookup_returns_and_reports_cap_witness :
  all_nodes chord_node_ok chord_chain ∧ chord_node_ok (chord_chain_node 0)
  ∧ all_nodes pastry_node_sized pastry_fresh ∧ pastry_node_sized pastry_fresh_node
  ∧ kademlia_net_ok 3 (list_to_set [0; 1; 2; 3; 4; 5; 6; 7]%Z) kademlia_chain
  ∧ (0%Z ∈ (list_to_set [0; 1; 2; 3; 4; 5; 6; 7]%Z : gset Z))
  ∧ (∃ r, Chord.lookup chord_chain (chord_chain_node 0) 0 = Ok r
          ∧ (success r = false
             ↔ (Chord.id_bits (chord_chain_node 0) * 2 < hop_count r)%Z))
  ∧ (∃ r, Pastry.lookup pastry_fresh pastry_fresh_node 5 = Ok r
          ∧ (success r = false
             ↔ (Pastry.id_bits pastry_fresh_node * 2 < hop_count r)%Z))
  ∧ (∃ w' r, Kademlia.lookup 0 7 kademlia_chain = (w', Ok r)
             ∧ success r = true
             ∧ (hop_count r ≤ Z.max 1 (3 * 2 + 1))%Z).
Proof.
  assert (pastry_node_sized pastry_fresh_node) as Hpn.
  { split; [|simpl; lia]. split_and!; [done|done|done|]. by repeat constructor. }
  assert (all_nodes pastry_node_sized pastry_fresh) as Hp.
  { intros i n Hn.
    assert (objects pastry_fresh = {[0%Z := pastry_fresh_node]}) as Hobj
      by (vm_compute; reflexivity).
    rewrite Hobj in Hn. apply lookup_singleton_Some in Hn as [_ <-]. exact Hpn. }
  assert (0%Z ∈ (list_to_set [0; 1; 2; 3; 4; 5; 6; 7]%Z : gset Z)) as H0
    by (by vm_compute).
  pose proof (lookup_returns_and_reports_cap (V:=string)) as (Lc & Lp & Lk).
  split_and!;
    [exact chord_chain_ok|reflexivity|done|done|exact kademlia_chain_ok|done| | |].
  - exact (Lc chord_chain (chord_chain_node 0) 0%Z chord_chain_ok eq_refl).
  - exact (Lp pastry_fresh pastry_fresh_node 5%Z Hp Hpn).
  - exact (Lk 3%Z _ kademlia_chain 0%Z 7%Z kademlia_chain_ok H0).
Defined.

(* ===================================================================== *)
(** * Further properties of the code                                       *)
(* ===================================================================== *)

(** ** Ring intervals, distances and bucket indices *)

(** X1.  The ring intervals of Chord: [(a, b]] is [(a, b)] together with
    its end point [b]; the open interval holds neither end point; and two
    distinct points [a], [b] split the rest of the ring into [(a, b)] and
    [(b, a)], every other point lying in exactly one of them. *)
Theorem chord_ring_intervals (x a b : Z) :
  Chord._in_half_open x a b = Chord._in_open x a b || (x =? b)%Z
  ∧ Chord._in_open a a b = false
  ∧ Chord._in_open b a b = false
  ∧ (a ≠ b → x ≠ a → x ≠ b →
     Chord._in_open x a b = negb (Chord._in_open x b a)).
Proof.
  unfold Chord._in_half_open, Chord._in_open. rewrite !Z.gtb_ltb.
  split_and!; [| | |intros Hab Hxa Hxb];
    repeat match goal with
           | |- context [(?u =? ?v)%Z] => destruct (Z.eqb_spec u v)
           | |- context [(?u <? ?v)%Z] => destruct (Z.ltb_spec u v)
           | |- context [(?u <=? ?v)%Z] => destruct (Z.leb_spec u v)
           end; simpl; try done; lia.
Qed.

Lemma chord_ring_intervals_witness :
  (1 ≠ 5 ∧ 7 ≠ 1 ∧ 7 ≠ 5)%Z
  ∧ Chord._in_open 7 1 5 = negb (Chord._in_open 7 5 1).
Proof.
  split; [lia|].
  apply (proj2 (proj2 (proj2 (chord_ring_intervals 7 1 5)))); lia.
Defined.

(** X2.  The circular distance of Pastry is symmetric; on identifiers of
    the space [[0, 2^m)] it lies in [[0, 2^m / 2]], is zero exactly between
    equal identifiers, and obeys the triangle inequality. *)
Theorem pastry_circular_distance_metric {V} (self : Pastry.PastryNode V) (x y z : Z) :
  Pastry._circular_distance self x y = Pastry._circular_distance self y x
  ∧ ((0 ≤ x < Pastry.id_space self)%Z → (0 ≤ y < Pastry.id_space self)%Z →
     (0 ≤ Pastry._circular_distance self x y ≤ Pastry.id_space self / 2)%Z
     ∧ (Pastry._circular_distance self x y = 0%Z ↔ x = y)
     ∧ ((0 ≤ z < Pastry.id_space self)%Z →
        (Pastry._circular_distance self x z
         ≤ Pastry._circular_distance self x y
           + Pastry._circular_distance self y z)%Z)).
Proof.
  unfold Pastry._circular_distance. split; [lia|].
  intros Hx Hy. set (s := Pastry.id_space self) in *. clearbody s.
  split; [|split].
  - split; [lia|]. apply Z.div_le_lower_bound; lia.
  - lia.
  - intros Hz. lia.
Qed.

Lemma pastry_circular_distance_metric_witness :
  (0 ≤ 512 < Pastry.id_space pastry_trio_node)%Z
  ∧ (0 ≤ 65280 < Pastry.id_space pastry_trio_node)%Z
  ∧ (0 ≤ 256 < Pastry.id_space pastry_trio_node)%Z
  ∧ Pastry._circular_distance pastry_trio_node 512 65280 = 768%Z
  ∧ (0 ≤ Pastry._circular_distance pastry_trio_node 512 65280
       ≤ Pastry.id_space pastry_trio_node / 2)%Z
  ∧ (Pastry._circular_distance pastry_trio_node 512 256
     ≤ Pastry._circular_distance pastry_trio_node 512 65280
       + Pastry._circular_distance pastry_trio_node 65280 256)%Z.
Proof.
  assert (0 ≤ 512 < Pastry.id_space pastry_trio_node)%Z as Hx by (vm_compute; split; congruence).
  assert (0 ≤ 65280 < Pastry.id_space pastry_trio_node)%Z as Hy by (vm_compute; split; congruence).
  assert (0 ≤ 256 < Pastry.id_space pastry_trio_node)%Z as Hz by (vm_compute; split; congruence).
  destruct (proj2 (pastry_circular_distance_metric pastry_trio_node 512 65280 256) Hx Hy)
    as (Hrange & _ & Htri).
  exact (conj Hx (conj Hy (conj Hz (conj eq_refl (conj Hrange (Htri Hz)))))).
Defined.

(** X3.  The bucket index of Kademlia: for two distinct identifiers of the
    [m]-bit space, [_bucket_index] is the position [i < m] of the highest
    bit in which they differ, so that their XOR distance lies in
    [[2^i, 2^(i+1))]; for the node's own identifier it is [0]. *)
Theorem kademlia_bucket_index_placement {V} (me : Kademlia.KademliaNode V) (nid m : Z) :
  Kademlia._bucket_index me (Kademlia.node_id me) = 0%Z
  ∧ ((0 ≤ Kademlia.node_id me < 2 ^ m)%Z → (0 ≤ nid < 2 ^ m)%Z →
     nid ≠ Kademlia.node_id me →
     (0 ≤ Kademlia._bucket_index me nid < m)%Z
     ∧ (2 ^ Kademlia._bucket_index me nid
        ≤ Kademlia._distance (Kademlia.node_id me) nid
        < 2 ^ (Kademlia._bucket_index me nid + 1))%Z).
Proof.
  split.
  { unfold Kademlia._bucket_index, Kademlia._distance.
    by rewrite Z.lxor_nilpotent. }
  intros Hme Hnid Hne. split; [by apply bucket_index_range|].
  unfold Kademlia._bucket_index, Kademlia._distance, Kademlia.bit_length.
  pose proof (lxor_range _ _ _ Hme Hnid) as Hx.
  destruct (Z.eqb_spec (Z.lxor (Kademlia.node_id me) nid) 0) as [Heq|Hx0].
  { apply Z.lxor_eq in Heq. congruence. }
  rewrite Z.abs_eq by lia.
  replace (Z.log2 (Z.lxor (Kademlia.node_id me) nid) + 1 - 1)%Z
    with (Z.log2 (Z.lxor (Kademlia.node_id me) nid)) by lia.
  pose proof (Z.log2_spec (Z.lxor (Kademlia.node_id me) nid) ltac:(lia)) as Hlog.
  unfold Z.succ in Hlog. lia.
Qed.

Lemma kademlia_bucket_index_placement_witness :
  (0 ≤ Kademlia.node_id kademlia_chain_node < 2 ^ 3)%Z ∧ (0 ≤ 6 < 2 ^ 3)%Z
  ∧ 6%Z ≠ Kademlia.node_id kademlia_chain_node
  ∧ Kademlia._bucket_index kademlia_chain_node 6 = 2%Z
  ∧ (2 ^ Kademlia._bucket_index kademlia_chain_node 6
     ≤ Kademlia._distance (Kademlia.node_id kademlia_chain_node) 6
     < 2 ^ (Kademlia._bucket_index kademlia_chain_node 6 + 1))%Z.
Proof.
  assert (0 ≤ Kademlia.node_id kademlia_chain_node < 2 ^ 3)%Z as Hme by (simpl; lia).
  assert (0 ≤ 6 < 2 ^ 3)%Z as Hnid by lia.
  assert (6%Z ≠ Kademlia.node_id kademlia_chain_node) as Hne by (simpl; lia).
  refine (conj Hme (conj Hnid (conj Hne (conj eq_refl _)))).
  apply (proj2 (kademlia_bucket_index_placement kademlia_chain_node 6 3) Hme Hnid Hne).
Defined.

(** ** The registry of the network simulator *)

(** X4.  Registering and unregistering: a registered id resolves to its
    object and an unregistered one to [None], other ids are not affected;
    unregistering an id that is not registered changes nothing (and so
    undoes a registration), registering a registered id changes nothing,
    and [node_count] moves by one exactly when the registry changes. *)
Theorem registry_round_trip {Node} (w : World Node) (i j : Z) :
  get_node {| objects := objects w; network := register i (network w) |} i
  = objects w !! i
  ∧ get_node {| objects := objects w; network := unregister i (network w) |} i = None
  ∧ (j ≠ i →
     get_node {| objects := objects w; network := register i (network w) |} j
     = get_node w j
     ∧ get_node {| objects := objects w; network := unregister i (network w) |} j
       = get_node w j)
  ∧ (i ∉ nodes (network w) →
     unregister i (network w) = network w
     ∧ unregister i (register i (network w)) = network w
     ∧ node_count (register i (network w)) = (node_count (network w) + 1)%Z)
  ∧ (i ∈ nodes (network w) →
     register i (network w) = network w
     ∧ node_count (unregister i (network w)) = (node_count (network w) - 1)%Z).
Proof.
  destruct w as [objs [reg]]. unfold get_node, register, unregister, node_count.
  simpl. split_and!.
  - rewrite decide_True; [done|set_solver].
  - rewrite decide_False; [done|set_solver].
  - intros Hj. split.
    + destruct (decide (j ∈ reg)).
      * rewrite decide_True; [done|set_solver].
      * rewrite decide_False; [done|set_solver].
    + destruct (decide (j ∈ reg)).
      * rewrite decide_True; [done|set_solver].
      * rewrite decide_False; [done|set_solver].
  - intros Hi. split_and!.
    + f_equal. set_solver.
    + f_equal. set_solver.
    + rewrite size_union by set_solver. rewrite size_singleton. lia.
  - intros Hi. split.
    + f_equal. set_solver.
    + pose proof (size_union ({[i]} : gset Z) (reg ∖ {[i]}) ltac:(set_solver)) as Hsize.
      rewrite size_singleton in Hsize.
      replace ({[i]} ∪ reg ∖ {[i]}) with reg in Hsize; [lia|].
      apply set_eq. intros x. destruct (decide (x = i)); set_solver.
Qed.

Lemma registry_round_trip_witness :
  (7 : Z) ≠ 0%Z ∧ ((9 : Z) ∉ nodes (network kademlia_chain))
  ∧ ((0 : Z) ∈ nodes (network kademlia_chain))
  ∧ get_node {| objects := objects kademlia_chain;
                network := unregister 0 (network kademlia_chain) |} 7
    = get_node kademlia_chain 7
  ∧ unregister 9 (register 9 (network kademlia_chain)) = network kademlia_chain
  ∧ node_count (unregister 0 (network kademlia_chain))
    = (node_count (network kademlia_chain) - 1)%Z.
Proof.
  assert ((7 : Z) ≠ 0%Z) as Hne by lia.
  assert ((9 : Z) ∉ nodes (network kademlia_chain)) as Hout by (vm_compute; intros [=]).
  assert ((0 : Z) ∈ nodes (network kademlia_chain)) as Hin by (vm_compute; reflexivity).
  destruct (registry_round_trip kademlia_chain 0 7) as (_ & _ & Hother & _ & Hreg).
  destruct (registry_round_trip kademlia_chain 9 7) as (_ & _ & _ & Hunreg & _).
  exact (conj Hne (conj Hout (conj Hin
           (conj (proj2 (Hother Hne))
              (conj (proj1 (proj2 (Hunreg Hout))) (proj2 (Hreg Hin))))))).
Defined.

(** ** The generators on a count that asks for nothing *)

(** X5.  For a count of zero or less both generators return the empty list
    at once, whatever the hash: the loop body never runs. *)
Theorem generators_nonpositive_count (sha1_int : string → Z) (fuel : nat)
    (count m seed : Z) :
  (count ≤ 0)%Z →
  generate_node_ids sha1_int fuel count m seed = Ok []
  ∧ generate_keys sha1_int fuel count m seed = Ok [].
Proof.
  intros Hcount.
  assert (∀ prefix, generate_loop sha1_int fuel prefix count m seed ∅ 0 = Ok ∅) as Hloop.
  { intros prefix.
    assert ((Z.of_nat (size (∅ : gset Z)) <? count)%Z = false) as Hdone.
    { rewrite size_empty. apply Z.ltb_ge. lia. }
    destruct fuel; cbn [generate_loop]; by rewrite Hdone. }
  assert (slice_to count (sorted_ids ∅) = []) as Hslice.
  { unfold sorted_ids. rewrite elements_empty. simpl. unfold slice_to.
    destruct (0 <=? count)%Z; apply take_nil. }
  unfold generate_node_ids, generate_keys. rewrite !Hloop. simpl.
  by rewrite Hslice.
Qed.

Lemma generators_nonpositive_count_witness :
  (0 ≤ 0)%Z
  ∧ generate_node_ids length_hash 0 0 16 42 = Ok []
  ∧ generate_keys length_hash 0 0 16 123 = Ok [].
Proof.
  split; [lia|].
  split.
  - apply (generators_nonpositive_count length_hash 0 0 16 42). lia.
  - apply (generators_nonpositive_count length_hash 0 0 16 123). lia.
Defined.

(** ** The closest known ids of a Kademlia node *)

Lemma slice_to_take {A} (n : Z) (l : list A) : ∃ j, slice_to n l = take j l.
Proof. unfold slice_to. destruct (0 <=? n)%Z; by eexists. Qed.

Lemma slice_to_length_min {A} (n : Z) (l : list A) :
  (0 ≤ n)%Z → Z.of_nat (length (slice_to n l)) = Z.min n (Z.of_nat (length l)).
Proof.
  intros Hn. unfold slice_to. destruct (Z.leb_spec 0 n); [|lia].
  rewrite length_take. lia.
Qed.

Lemma slice_to_sorted {A} (R : relation A) (n : Z) (l : list A) :
  StronglySorted R l → StronglySorted R (slice_to n l).
Proof.
  intros Hl. destruct (slice_to_take n l) as [j ->].
  rewrite <- (take_drop j l) in Hl. by apply StronglySorted_app_1_l in Hl.
Qed.

Lemma slice_to_prefix_closest {A} (R : relation A) (n : Z) (l : list A) x y :
  StronglySorted R l → x ∈ slice_to n l → y ∈ l → y ∉ slice_to n l → R x y.
Proof.
  intros Hl Hx Hy Hny. destruct (slice_to_take n l) as [j Hj]. rewrite Hj in *.
  rewrite <- (take_drop j l) in Hl, Hy.
  apply elem_of_app in Hy as [Hy|Hy]; [done|].
  by eapply StronglySorted_app_1_elem_of.
Qed.

(** X6.  [_find_closest_local(target, count)] returns ids the node knows,
    in ascending order of XOR distance to the target; for a non-negative
    [count] (by default [k]) it returns [count] of them, or all when it
    knows fewer; and every known id it leaves out is at least as far from
    the target as every id it returns. *)
Theorem kademlia_find_closest_local_spec {V} (self : Kademlia.KademliaNode V)
    (target : Z) (count : option Z) :
  let res := Kademlia._find_closest_local self target count in
  let known := concat (Kademlia.buckets self) in
  StronglySorted
    (λ a b, (Kademlia._distance a target ≤ Kademlia._distance b target)%Z) res
  ∧ (∀ x, x ∈ res → x ∈ known)
  ∧ ((0 ≤ default (Kademlia.k self) count)%Z →
     Z.of_nat (length res)
     = Z.min (default (Kademlia.k self) count) (Z.of_nat (length known)))
  ∧ (∀ x y, x ∈ res → y ∈ known → y ∉ res →
       (Kademlia._distance x target ≤ Kademlia._distance y target)%Z).
Proof.
  intros res known. subst res known. unfold Kademlia._find_closest_local.
  set (key := λ nid : Z, Kademlia._distance nid target).
  set (all := concat (Kademlia.buckets self)).
  assert (match count with Some c => c | None => Kademlia.k self end
          = default (Kademlia.k self) count) as -> by (by destruct count).
  pose proof (sort_by_sorted key all) as Hsorted.
  split_and!.
  - by apply slice_to_sorted.
  - intros x Hx%slice_to_elem. by apply sort_by_elem in Hx.
  - intros Hc. by rewrite slice_to_length_min, sort_by_length.
  - intros x y Hx Hy Hny.
    apply (slice_to_prefix_closest _ _ _ x y Hsorted Hx); [|done].
    by apply sort_by_elem.
Qed.

Lemma kademlia_find_closest_local_spec_witness :
  let self : Kademlia.KademliaNode string :=
    {| Kademlia.node_id := 0; Kademlia.id_bits := 3; Kademlia.data := ∅;
       Kademlia.k := 2; Kademlia.alpha := 1;
       Kademlia.buckets := [[1%Z]; [3; 2]%Z; [6; 4]%Z] |} in
  Kademlia._find_closest_local self 7 None = [6; 4]%Z
  ∧ (0 ≤ default (Kademlia.k self) None)%Z
  ∧ Z.of_nat (length (Kademlia._find_closest_local self 7 None))
    = Z.min (default (Kademlia.k self) None)
        (Z.of_nat (length (concat (Kademlia.buckets self)))).
Proof.
  intros self. split; [vm_compute; reflexivity|].
  assert (0 ≤ default (Kademlia.k self) None)%Z as Hk by (simpl; lia).
  split; [done|].
  apply (proj1 (proj2 (proj2 (kademlia_find_closest_local_spec self 7 None))) Hk).
Defined.

(** ** The oracles of the tests *)

Lemma find_sorted_first (P : Z → bool) (l : list Z) (x : Z) :
  StronglySorted Z.le l → find P l = Some x →
  x ∈ l ∧ P x = true ∧ ∀ y, y ∈ l → P y = true → (x ≤ y)%Z.
Proof.
  induction 1 as [|z l Hl IH Hz]; simpl; [done|].
  destruct (P z) eqn:Hpz.
  - intros [= <-]. split_and!; [set_solver|done|].
    intros y [->|Hy]%elem_of_cons _; [lia|].
    rewrite Forall_forall in Hz. by apply Hz.
  - intros Hfind. destruct (IH Hfind) as (Hx & Hpx & Hmin).
    split_and!; [set_solver|done|].
    intros y [->|Hy]%elem_of_cons Hpy; [congruence|by apply Hmin].
Qed.

Lemma find_none_all (P : Z → bool) (l : list Z) :
  find P l = None → ∀ y, y ∈ l → P y = false.
Proof.
  induction l as [|z l IH]; simpl; [by intros _ y ?%elem_of_nil|].
  destruct (P z) eqn:Hpz; [done|].
  intros Hfind y [->|Hy]%elem_of_cons; [done|by apply IH].
Qed.

Lemma chord_ground_truth_cases (key : Z) (node_ids : list Z) :
  match Chord.ground_truth key node_ids with
  | Ok r => is_ring_successor key node_ids r
  | Raise e => e = IndexError ∧ node_ids = []
  | OutOfFuel => False
  end.
Proof.
  unfold Chord.ground_truth, is_ring_successor.
  pose proof (sort_by_sorted (λ nid : Z, nid) node_ids) as Hsorted.
  pose proof (sort_by_elem (λ nid : Z, nid) node_ids) as Helem.
  pose proof (sort_by_length (λ nid : Z, nid) node_ids) as Hlen.
  destruct (find _ _) as [r|] eqn:Hfind.
  - apply find_sorted_first in Hfind as (Hr & Hge & Hmin); [|done].
    apply Z.geb_le in Hge. split; [by apply Helem|]. left. split; [done|].
    intros y Hy Hky. apply Hmin; [by apply Helem|]. by apply Z.geb_le.
  - pose proof (find_none_all _ _ Hfind) as Hall.
    destruct (sort_by (λ nid : Z, nid) node_ids) as [|r rest] eqn:Hs.
    + simpl. split; [done|]. by destruct node_ids.
    + change (getitem (r :: rest) 0) with (Ok r : outcome Z).
      apply StronglySorted_cons in Hsorted as [Hle _].
      rewrite Forall_forall in Hle.
      split; [apply Helem; set_solver|]. right. split.
      * intros y Hy%Helem. specialize (Hall y Hy). simpl in Hall.
        rewrite Z.geb_leb in Hall. apply Z.leb_gt in Hall. lia.
      * intros y [->|Hy]%Helem%elem_of_cons; [lia|by apply Hle].
Qed.

Lemma is_ring_successor_unique (key : Z) (l : list Z) (r1 r2 : Z) :
  is_ring_successor key l r1 → is_ring_successor key l r2 → r1 = r2.
Proof.
  intros (H1 & [[Hk1 Hm1]|[Hb1 Hm1]]) (H2 & [[Hk2 Hm2]|[Hb2 Hm2]]).
  - specialize (Hm1 r2 H2 Hk2). specialize (Hm2 r1 H1 Hk1). lia.
  - specialize (Hb2 r1 H1). lia.
  - specialize (Hb1 r2 H2). lia.
  - specialize (Hm1 r2 H2). specialize (Hm2 r1 H1). lia.
Qed.

Lemma chord_ground_truth_intro (key : Z) (l : list Z) (r : Z) :
  is_ring_successor key l r → Chord.ground_truth key l = Ok r.
Proof.
  intros Hr. pose proof (chord_ground_truth_cases key l) as Hgt.
  destruct (Chord.ground_truth key l) as [r'|e|]; [| |done].
  - f_equal. by eapply is_ring_successor_unique.
  - destruct Hgt as [_ ->]. destruct Hr as [Hr _]. by apply elem_of_nil in Hr.
Qed.

(** X7.  The oracle of Chord: on a non-empty list [ground_truth] returns
    the least listed id that is not below the key, and the least listed id
    of all when every one is below the key (the wrap-around); on the empty
    list it raises [IndexError]. *)
Theorem chord_ground_truth_spec (key : Z) (node_ids : list Z) :
  match Chord.ground_truth key node_ids with
  | Ok r =>
      r ∈ node_ids
      ∧ (((key ≤ r)%Z ∧ ∀ y, y ∈ node_ids → (key ≤ y)%Z → (r ≤ y)%Z)
         ∨ ((∀ y, y ∈ node_ids → (y < key)%Z) ∧ ∀ y, y ∈ node_ids → (r ≤ y)%Z))
  | Raise e => e = IndexError ∧ node_ids = []
  | OutOfFuel => False
  end.
Proof. exact (chord_ground_truth_cases key node_ids). Qed.

Lemma min_by_le {A} (key : A → Z) (best : A) (l : list A) (y : A) :
  y ∈ best :: l → (key (min_by key best l) ≤ key y)%Z.
Proof.
  revert best y. induction l as [|z l IH]; intros best y; simpl.
  - intros ->%list_elem_of_singleton. lia.
  - intros Hy.
    pose proof (IH (if (key z <? key best)%Z then z else best)) as Hrec.
    destruct (Z.ltb_spec (key z) (key best)).
    + apply elem_of_cons in Hy as [->|[->|Hy]%elem_of_cons].
      * specialize (Hrec z ltac:(set_solver)). lia.
      * apply Hrec. set_solver.
      * apply Hrec. set_solver.
    + apply elem_of_cons in Hy as [->|[->|Hy]%elem_of_cons].
      * apply Hrec. set_solver.
      * specialize (Hrec best ltac:(set_solver)). lia.
      * apply Hrec. set_solver.
Qed.

(** X8.  The oracle of Kademlia: on a non-empty list [ground_truth]
    returns the listed id at the least XOR distance from the key, and no
    other listed id is at that distance; on the empty list it raises
    [ValueError]. *)
Theorem kademlia_ground_truth_spec (key : Z) (node_ids : list Z) :
  match Kademlia.ground_truth key node_ids with
  | Ok r =>
      r ∈ node_ids
      ∧ ∀ y, y ∈ node_ids →
          (Kademlia._distance r key ≤ Kademlia._distance y key)%Z
          ∧ (Kademlia._distance y key = Kademlia._distance r key → y = r)
  | Raise e => e = ValueError ∧ node_ids = []
  | OutOfFuel => False
  end.
Proof.
  unfold Kademlia.ground_truth, Kademlia._distance.
  destruct node_ids as [|c rest]; [done|].
  split; [apply min_by_elem|].
  intros y Hy. split; [by apply (min_by_le (λ nid, Z.lxor nid key))|].
  intros Heq. apply (f_equal (λ d, Z.lxor d key)) in Heq.
  by rewrite !Z.lxor_assoc, Z.lxor_nilpotent, !Z.lxor_0_r in Heq.
Qed.

Lemma min_by_pair_elem {A} (key : A → Z * Z) (best : A) (l : list A) :
  min_by_pair key best l ∈ best :: l.
Proof.
  revert best. induction l as [|y l IH]; intros best; simpl; [set_solver|].
  specialize (IH (if pair_ltb (key y) (key best) then y else best)).
  destruct (pair_ltb _ _); set_solver.
Qed.

Lemma pair_ltb_false (p q : Z * Z) :
  pair_ltb p q = false ↔ (q.1 < p.1 ∨ (q.1 = p.1 ∧ q.2 ≤ p.2))%Z.
Proof.
  unfold pair_ltb.
  destruct (Z.ltb_spec p.1 q.1), (Z.eqb_spec p.1 q.1), (Z.ltb_spec p.2 q.2);
    simpl; split; try done; lia.
Qed.

Lemma min_by_pair_le {A} (key : A → Z * Z) (best : A) (l : list A) (y : A) :
  y ∈ best :: l → pair_ltb (key y) (key (min_by_pair key best l)) = false.
Proof.
  revert best y. induction l as [|z l IH]; intros best y; simpl.
  - intros ->%list_elem_of_singleton. apply pair_ltb_false. lia.
  - intros Hy.
    pose proof (IH (if pair_ltb (key z) (key best) then z else best)) as Hrec.
    destruct (pair_ltb (key z) (key best)) eqn:Hzb.
    + apply elem_of_cons in Hy as [->|[->|Hy]%elem_of_cons];
        [|apply Hrec; set_solver..].
      specialize (Hrec z ltac:(set_solver)).
      apply pair_ltb_false. apply pair_ltb_false in Hrec.
      assert (pair_ltb (key best) (key z) = false) as Hbz.
      { apply pair_ltb_false. unfold pair_ltb in Hzb.
        destruct (Z.ltb_spec (key z).1 (key best).1),
          (Z.eqb_spec (key z).1 (key best).1), (Z.ltb_spec (key z).2 (key best).2);
          simpl in Hzb; try done; lia. }
      apply pair_ltb_false in Hbz. lia.
    + apply elem_of_cons in Hy as [->|[->|Hy]%elem_of_cons];
        [apply Hrec; set_solver| |apply Hrec; set_solver].
      specialize (Hrec best ltac:(set_solver)).
      apply pair_ltb_false. apply pair_ltb_false in Hrec, Hzb. lia.
Qed.

(** X9.  The oracle of Pastry: on a non-empty list [ground_truth] returns
    the listed id that is least in (circular distance to the key, id),
    compared lexicographically, over the given identifier space (65536 by
    default); on the empty list it raises [ValueError]. *)
Theorem pastry_ground_truth_spec (key : Z) (node_ids : list Z) (id_space : option Z) :
  match Pastry.ground_truth key node_ids id_space with
  | Ok r =>
      r ∈ node_ids
      ∧ ∀ y, y ∈ node_ids →
          (Pastry.circ (default 65536%Z id_space) r key
           < Pastry.circ (default 65536%Z id_space) y key)%Z
          ∨ (Pastry.circ (default 65536%Z id_space) r key
             = Pastry.circ (default 65536%Z id_space) y key ∧ (r ≤ y)%Z)
  | Raise e => e = ValueError ∧ node_ids = []
  | OutOfFuel => False
  end.
Proof.
  unfold Pastry.ground_truth. destruct node_ids as [|c rest]; [done|].
  split; [apply min_by_pair_elem|].
  intros y Hy.
  pose proof (min_by_pair_le
    (λ nid, (Pastry.circ (default 65536%Z id_space) nid key, nid)) c rest y Hy) as Hle.
  apply pair_ltb_false in Hle. simpl in Hle. lia.
Qed.

(** ** Chord: routing *)

Section ChordRouting.
Context {V : Type}.
Implicit Types (self n cur : Chord.ChordNode V) (w : World (Chord.ChordNode V)).

Lemma cpf_loop_spec w n kk i :
  match Chord.cpf_loop w n kk i with
  | Ok f =>
      (f = Chord.node_id n
       ∧ ∀ j g, (j < i)%nat → Chord.finger_table n !! j = Some g →
           precedes w n kk g = false)
      ∨ (∃ j, (j < i)%nat ∧ Chord.finger_table n !! j = Some f
              ∧ precedes w n kk f = true
              ∧ ∀ j' g, (j < j' < i)%nat → Chord.finger_table n !! j' = Some g →
                  precedes w n kk g = false)
  | Raise e => e = IndexError ∧ (length (Chord.finger_table n) < i)%nat
  | OutOfFuel => False
  end.
Proof.
  induction i as [|j IH]; simpl.
  { left. split; [done|]. intros; lia. }
  destruct (Chord.finger_table n !! j) as [f|] eqn:Hf.
  2:{ split; [done|]. apply lookup_ge_None in Hf. lia. }
  change (negb (f =? Chord.node_id n)%Z && Chord._in_open f (Chord.node_id n) kk
          && is_live w f) with (precedes w n kk f).
  destruct (precedes w n kk f) eqn:Hfit.
  { right. exists j. split_and!; [lia|done|done|]. intros; lia. }
  destruct (Chord.cpf_loop w n kk j) as [f'|e|]; [| |done].
  - destruct IH as [[-> Hnone]|(j0 & Hj0 & Hf' & Hfit' & Hnone)].
    + left. split; [done|]. intros j' g Hj' Hg.
      destruct (decide (j' = j)) as [->|]; [congruence|].
      apply (Hnone j'); [lia|done].
    + right. exists j0. split_and!; [lia|done|done|].
      intros j' g Hj' Hg.
      destruct (decide (j' = j)) as [->|]; [congruence|].
      apply (Hnone j'); [lia|done].
  - destruct IH as [-> Hlen]. split; [done|lia].
Qed.

(** X10.  [_closest_preceding_finger(key)] returns the finger of highest
    index that is not the node itself, lies in the open ring interval
    between the node and the key, and is registered; it returns the node's
    own id when no finger passes that test; it raises [IndexError] only on
    a finger table with fewer than [id_bits] entries. *)
Theorem chord_closest_preceding_finger_spec w n kk :
  match Chord._closest_preceding_finger w n kk with
  | Ok f =>
      (f = Chord.node_id n
       ∧ ∀ j g, (j < Z.to_nat (Chord.id_bits n))%nat →
           Chord.finger_table n !! j = Some g → precedes w n kk g = false)
      ∨ (∃ j, (j < Z.to_nat (Chord.id_bits n))%nat
              ∧ Chord.finger_table n !! j = Some f
              ∧ f ≠ Chord.node_id n
              ∧ Chord._in_open f (Chord.node_id n) kk = true
              ∧ is_live w f = true
              ∧ ∀ j' g, (j < j' < Z.to_nat (Chord.id_bits n))%nat →
                  Chord.finger_table n !! j' = Some g → precedes w n kk g = false)
  | Raise e =>
      e = IndexError
      ∧ (length (Chord.finger_table n) < Z.to_nat (Chord.id_bits n))%nat
  | OutOfFuel => False
  end.
Proof.
  unfold Chord._closest_preceding_finger.
  pose proof (cpf_loop_spec w n kk (Z.to_nat (Chord.id_bits n))) as Hspec.
  destruct (Chord.cpf_loop _ _ _ _) as [f|e|]; [|done..].
  destruct Hspec as [?|(j & Hj & Hf & Hfit & Hnone)]; [by left|].
  right. exists j. unfold precedes in Hfit.
  apply andb_true_iff in Hfit as [[Hne Hin]%andb_true_iff Hlive].
  apply negb_true_iff, Z.eqb_neq in Hne. by split_and!.
Qed.

Lemma chord_lookup_loop_shape fuel w self cur kk hops pth r :
  Chord.lookup_loop fuel w self cur kk hops pth = Ok r →
  key r = kk
  ∧ ∃ rest, path r = pth ++ rest
      ∧ hop_count r = (hops + Z.of_nat (length rest))%Z
      ∧ Forall (λ i, is_live w i = true) rest
      ∧ (success r = true →
         ∃ c, responsible_node r = Chord.successor c
              ∧ match last rest with
                | Some i => get_node w i = Some c
                | None => c = cur
                end).
Proof.
  revert cur hops pth.
  assert (∀ cur hops pth (ok : bool) resp,
            (ok = true → resp = Chord.successor cur) →
            let r := Build_LookupResult kk resp hops pth ok in
            key r = kk
            ∧ ∃ rest, path r = pth ++ rest
                ∧ hop_count r = (hops + Z.of_nat (length rest))%Z
                ∧ Forall (λ i, is_live w i = true) rest
                ∧ (success r = true →
                   ∃ c, responsible_node r = Chord.successor c
                        ∧ match last rest with
                          | Some i => get_node w i = Some c
                          | None => c = cur
                          end)) as Hstop.
  { intros cur hops pth ok resp Hresp. simpl. split; [done|]. exists [].
    rewrite app_nil_r. simpl. split_and!; [done|lia|done|].
    intros Hok. exists cur. by split; [apply Hresp|]. }
  induction fuel as [|fuel IH]; intros cur hops pth; simpl.
  - destruct (_ <=? _)%Z; [done|]. intros [= <-]. by apply Hstop.
  - destruct (_ <=? _)%Z; [|intros [= <-]; by apply Hstop].
    destruct (Chord._in_half_open _ _ _); [intros [= <-]; by apply Hstop|].
    destruct (Chord._closest_preceding_finger w cur kk) as [f| |]; simpl; [|done..].
    destruct (f =? Chord.node_id cur)%Z; [intros [= <-]; by apply Hstop|].
    destruct (get_node w f) as [next|] eqn:Hnext; [|intros [= <-]; by apply Hstop].
    intros Hr. destruct (IH _ _ _ Hr) as (Hkey & rest & Hpath & Hhops & Hlive & Hresp).
    split; [done|]. exists (f :: rest). split_and!.
    + by rewrite Hpath, <- app_assoc.
    + rewrite Hhops. simpl length. lia.
    + constructor; [|done]. unfold is_live. by rewrite Hnext.
    + intros Hok. destruct (Hresp Hok) as (c & Hc & Hlast). exists c.
      split; [done|]. rewrite last_cons. destruct (last rest); [done|by subst].
Qed.

(** X11.  The result of [ChordNode.lookup]: it echoes the key; its path
    starts at the initiator and lists one id per hop, so that [hop_count]
    is the length of the path less one; every id after the first was
    registered when it was visited; and a successful result names the
    [successor] of the last node on the path. *)
Theorem chord_lookup_path_shape w self kk r :
  Chord.lookup w self kk = Ok r →
  key r = kk
  ∧ ∃ rest, path r = Chord.node_id self :: rest
      ∧ hop_count r = Z.of_nat (length rest)
      ∧ Forall (λ i, is_live w i = true) rest
      ∧ (success r = true →
         ∃ c, responsible_node r = Chord.successor c
              ∧ match last rest with
                | Some i => get_node w i = Some c
                | None => c = self
                end).
Proof.
  intros Hr. apply chord_lookup_loop_shape in Hr
    as (Hkey & rest & Hpath & Hhops & Hlive & Hresp).
  split; [done|]. exists rest. split_and!; [done|lia|done|done].
Qed.

(** X12.  A node that joins without a bootstrap forms a ring of its own:
    [join] returns 0 and registers the node with itself as successor, no
    predecessor and every finger pointing to itself; from then on it
    answers every lookup itself, in no hop (for a non-negative
    [id_bits]). *)
Theorem chord_single_node_ring w (self : Z) (me : Chord.ChordNode V) (kk : Z) :
  objects w !! self = Some me → Chord.node_id me = self →
  (0 ≤ Chord.id_bits me)%Z →
  ∃ w' me',
    Chord.join self None w = (w', Ok 0%Z)
    ∧ network w' = register self (network w)
    ∧ get_node w' self = Some me'
    ∧ Chord.successor me' = self ∧ Chord.predecessor me' = None
    ∧ Chord.finger_table me' = replicate (Z.to_nat (Chord.id_bits me)) self
    ∧ Chord.routing_table_size me' = 0%Z
    ∧ Chord.call_lookup self kk w'
      = (w', Ok {| key := kk; responsible_node := self; hop_count := 0;
                   path := [self]; success := true |}).
Proof.
  intros Hme Hid Hbits.
  set (me' := Chord.set_finger_table (replicate (Z.to_nat (Chord.id_bits me)) self)
                (Chord.set_successor self (Chord.set_predecessor None me))).
  exists {| objects := <[self := me']> (objects w);
            network := register self (network w) |}, me'.
  assert (Chord.join self None w
          = ({| objects := <[self := me']> (objects w);
                network := register self (network w) |}, Ok 0%Z)) as Hjoin.
  { unfold Chord.join, bind, update, modify, deref, on_network, ret. simpl.
    rewrite !lookup_alter_eq, Hme. simpl. rewrite Hid. f_equal. f_equal.
    apply map_eq. intros i. destruct (decide (i = self)) as [->|Hi].
    - rewrite !lookup_alter_eq, lookup_insert_eq, Hme. simpl. by rewrite Hid.
    - by rewrite !lookup_alter_ne, lookup_insert_ne. }
  split; [exact Hjoin|]. split; [reflexivity|].
  split.
  { unfold get_node, register. simpl. rewrite decide_True by set_solver.
    by rewrite lookup_insert_eq. }
  split; [reflexivity|]. split; [reflexivity|]. split; [reflexivity|].
  split.
  - unfold Chord.routing_table_size. subst me'. cbn [Chord.finger_table
      Chord.node_id Chord.set_finger_table Chord.set_successor Chord.set_predecessor].
    rewrite Hid.
    assert ((list_to_set (replicate (Z.to_nat (Chord.id_bits me)) self) : gset Z)
              ∖ {[self]} = ∅) as ->; [|by rewrite size_empty].
    apply set_eq. intros x. rewrite elem_of_difference, elem_of_list_to_set.
    split; [|by intros ?%elem_of_empty].
    intros [[-> _]%elem_of_replicate Hx]. set_solver.
  - unfold Chord.call_lookup, bind, deref, pure_call.
    cbn [objects]. rewrite lookup_insert_eq.
    unfold Chord.lookup, Chord.lookup_fuel.
    assert (Chord.id_bits me' = Chord.id_bits me) as Hbits' by reflexivity.
    assert (Chord.node_id me' = self) as Hid' by (subst me'; simpl; done).
    assert (Chord.successor me' = self) as Hsucc' by reflexivity.
    rewrite Hbits'.
    destruct (Z.to_nat (Chord.id_bits me * 2 + 1)) as [|fuel] eqn:Hfuel; [lia|].
    cbn [Chord.lookup_loop]. rewrite Hbits', Hid', Hsucc'.
    destruct (Z.leb_spec 0 (Chord.id_bits me * 2)); [|lia].
    unfold Chord._in_half_open. by rewrite Z.eqb_refl.
Qed.

End ChordRouting.

Example chord_ring_node_in_world : objects chord_ring !! 1%Z = Some chord_ring_node.
Proof. vm_compute. reflexivity. Qed.

Lemma chord_lookup_path_shape_witness :
  let r := {| key := 5; responsible_node := 6; hop_count := 1;
              path := [1; 3]%Z; success := true |} in
  Chord.lookup chord_ring chord_ring_node 5 = Ok r
  ∧ ∃ rest, path r = Chord.node_id chord_ring_node :: rest
      ∧ hop_count r = Z.of_nat (length rest)
      ∧ Forall (λ i, is_live chord_ring i = true) rest.
Proof.
  intros r.
  assert (Chord.lookup chord_ring chord_ring_node 5 = Ok r) as Hr
    by (vm_compute; reflexivity).
  split; [exact Hr|].
  destruct (chord_lookup_path_shape chord_ring chord_ring_node 5 r Hr)
    as (_ & rest & Hpath & Hhops & Hlive & _).
  exists rest. exact (conj Hpath (conj Hhops Hlive)).
Defined.

Lemma chord_single_node_ring_witness :
  objects chord_fresh !! 5%Z = Some (Chord.init 5 3)
  ∧ Chord.node_id (Chord.init (V:=string) 5 3) = 5%Z
  ∧ (0 ≤ Chord.id_bits (Chord.init (V:=string) 5 3))%Z
  ∧ ∃ w' me',
      Chord.join 5 None chord_fresh = (w', Ok 0%Z)
      ∧ network w' = register 5 (network chord_fresh)
      ∧ get_node w' 5 = Some me'
      ∧ Chord.successor me' = 5%Z ∧ Chord.predecessor me' = None
      ∧ Chord.finger_table me'
        = replicate (Z.to_nat (Chord.id_bits (Chord.init (V:=string) 5 3))) 5%Z
      ∧ Chord.routing_table_size me' = 0%Z
      ∧ Chord.call_lookup 5 2 w'
        = (w', Ok {| key := 2; responsible_node := 5; hop_count := 0;
                     path := [5%Z]; success := true |}).
Proof.
  assert (objects chord_fresh !! 5%Z = Some (Chord.init 5 3)) as Hme
    by (vm_compute; reflexivity).
  assert (Chord.node_id (Chord.init (V:=string) 5 3) = 5%Z) as Hid by reflexivity.
  assert (0 ≤ Chord.id_bits (Chord.init (V:=string) 5 3))%Z as Hbits by (simpl; lia).
  exact (conj Hme (conj Hid (conj Hbits
           (chord_single_node_ring chord_fresh 5 (Chord.init 5 3) 2 Hme Hid Hbits)))).
Defined.

(** ** Chord: lookups on a ring whose nodes know their successors *)

Section ChordRing.
Context {V : Type}.
Implicit Types (n cur : Chord.ChordNode V) (w : World (Chord.ChordNode V)).

Lemma chord_ring_ok_at w i :
  chord_ring_ok w = true → i ∈ nodes (network w) →
  ∃ n, objects w !! i = Some n ∧ Chord.node_id n = i ∧ (1 ≤ Chord.id_bits n)%Z
       ∧ is_ring_successor (i + 1) (live_ids w) (Chord.successor n)
       ∧ Chord.finger_table n !! 0%nat = Some (Chord.successor n).
Proof.
  unfold chord_ring_ok. rewrite forallb_forall. intros Hring Hi.
  specialize (Hring i). unfold chord_ring_node_ok in Hring.
  destruct (objects w !! i) as [n|];
    [|discriminate Hring; apply list_elem_of_In; by apply elem_of_elements].
  exists n. split; [done|].
  assert (In i (live_ids w)) as Hin by (apply list_elem_of_In; by apply elem_of_elements).
  specialize (Hring Hin).
  apply andb_true_iff in Hring as [[[Hid Hbits]%andb_true_iff Hsucc]%andb_true_iff Hfinger].
  apply Z.eqb_eq in Hid. apply Z.leb_le in Hbits.
  pose proof (chord_ground_truth_cases (i + 1) (live_ids w)) as Hgt.
  destruct (Chord.ground_truth (i + 1) (live_ids w)) as [s| |]; [|done..].
  apply Z.eqb_eq in Hsucc. subst s.
  destruct (Chord.finger_table n !! 0%nat) as [f|]; [|done].
  apply Z.eqb_eq in Hfinger. by subst f.
Qed.

Lemma chord_ring_live w i n :
  chord_ring_ok w = true → get_node w i = Some n →
  Chord.node_id n = i ∧ Chord.node_id n ∈ live_ids w
  ∧ (1 ≤ Chord.id_bits n)%Z
  ∧ is_ring_successor (Chord.node_id n + 1) (live_ids w) (Chord.successor n)
  ∧ Chord.finger_table n !! 0%nat = Some (Chord.successor n).
Proof.
  intros Hring [Hn Hi]%get_node_Some.
  destruct (chord_ring_ok_at w i Hring Hi) as (n' & Hn' & Hid & Hbits & Hsucc & Hf).
  assert (n' = n) as -> by congruence. rewrite Hid.
  split_and!; try done. by apply elem_of_elements.
Qed.

(** The successor of a node owns the keys of the interval up to it. *)
Lemma ring_successor_owns (l : list Z) (a b kk : Z) :
  a ∈ l → is_ring_successor (a + 1) l b →
  Chord._in_half_open kk a b = true → is_ring_successor kk l b.
Proof.
  intros Ha (Hb & Hsucc) Hin. split; [done|].
  unfold Chord._in_half_open in Hin. rewrite Z.gtb_ltb in Hin.
  destruct Hsucc as [[Hab Hmin]|[Hmax Hmin]].
  - destruct (Z.eqb_spec a b); [lia|]. destruct (Z.ltb_spec a b); [|lia].
    apply andb_true_iff in Hin as [Hak%Z.ltb_lt Hkb%Z.leb_le].
    left. split; [done|]. intros y Hy Hky. apply Hmin; [done|lia].
  - pose proof (Hmax a Ha). pose proof (Hmin a Ha).
    destruct (Z.le_gt_cases kk b) as [Hkb|Hkb].
    + left. split; [done|]. intros y Hy _. by apply Hmin.
    + right. split; [|done]. intros y Hy. specialize (Hmax y Hy).
      destruct (Z.eqb_spec a b); [lia|]. destruct (Z.ltb_spec a b); [lia|].
      apply orb_true_iff in Hin as [Hak%Z.ltb_lt|Hk%Z.leb_le]; lia.
Qed.

(** Outside that interval, the successor precedes the key. *)
Lemma ring_successor_precedes (a b kk : Z) :
  Chord._in_half_open kk a b = false →
  b ≠ a ∧ Chord._in_open b a kk = true.
Proof.
  unfold Chord._in_half_open, Chord._in_open. rewrite !Z.gtb_ltb.
  repeat match goal with
         | |- context [(?u =? ?v)%Z] => destruct (Z.eqb_spec u v)
         | |- context [(?u <? ?v)%Z] => destruct (Z.ltb_spec u v)
         | |- context [(?u <=? ?v)%Z] => destruct (Z.leb_spec u v)
         end; simpl; try done; intros _; split; try done; lia.
Qed.

Lemma chord_ring_progress w cur kk f :
  chord_ring_ok w = true → get_node w (Chord.node_id cur) = Some cur →
  Chord._in_half_open kk (Chord.node_id cur) (Chord.successor cur) = false →
  Chord._closest_preceding_finger w cur kk = Ok f →
  f ≠ Chord.node_id cur ∧ is_live w f = true.
Proof.
  intros Hring Hcur Hout Hcpf.
  destruct (chord_ring_live w _ cur Hring Hcur) as (_ & Hlive & Hbits & Hsucc & Hf0).
  destruct (ring_successor_precedes _ _ _ Hout) as [Hne Hopen].
  assert (is_live w (Chord.successor cur) = true) as Hslive.
  { destruct Hsucc as [Hs _]. unfold live_ids in Hs. apply elem_of_elements in Hs.
    destruct (chord_ring_ok_at w _ Hring Hs) as (n & Hn & _).
    unfold is_live, get_node. rewrite decide_True by done. by rewrite Hn. }
  assert (precedes w cur kk (Chord.successor cur) = true) as Hfit.
  { unfold precedes. rewrite Hopen, Hslive.
    by destruct (Z.eqb_spec (Chord.successor cur) (Chord.node_id cur)). }
  unfold Chord._closest_preceding_finger in Hcpf.
  pose proof (cpf_loop_spec w cur kk (Z.to_nat (Chord.id_bits cur))) as Hspec.
  rewrite Hcpf in Hspec.
  destruct Hspec as [[_ Hnone]|(j & _ & _ & Hfitf & _)].
  - specialize (Hnone 0%nat _ ltac:(lia) Hf0). congruence.
  - unfold precedes in Hfitf.
    apply andb_true_iff in Hfitf as [[Hnef _]%andb_true_iff Hlivef].
    by apply negb_true_iff, Z.eqb_neq in Hnef.
Qed.

Lemma chord_ring_lookup_loop fuel w self cur kk hops pth r :
  chord_ring_ok w = true → get_node w (Chord.node_id cur) = Some cur →
  Chord.lookup_loop fuel w self cur kk hops pth = Ok r → success r = true →
  Chord.ground_truth kk (live_ids w) = Ok (responsible_node r).
Proof.
  intros Hring. revert cur hops pth.
  induction fuel as [|fuel IH]; intros cur hops pth Hcur; simpl.
  - destruct (_ <=? _)%Z; [done|]. by intros [= <-].
  - destruct (_ <=? _)%Z; [|by intros [= <-]].
    destruct (Chord._in_half_open _ _ _) eqn:Hin.
    { intros [= <-] _. simpl. apply chord_ground_truth_intro.
      destruct (chord_ring_live w _ cur Hring Hcur) as (_ & Hlive & _ & Hsucc & _).
      by eapply ring_successor_owns. }
    destruct (Chord._closest_preceding_finger w cur kk) as [f| |] eqn:Hcpf;
      simpl; [|done..].
    destruct (chord_ring_progress w cur kk f Hring Hcur Hin Hcpf) as [Hne Hlive].
    destruct (Z.eqb_spec f (Chord.node_id cur)); [done|].
    unfold is_live in Hlive.
    destruct (get_node w f) as [next|] eqn:Hnext; [|done].
    apply IH.
    destruct (chord_ring_live w f next Hring Hnext) as (-> & _). done.
Qed.

(** X13.  Routing is correct on a consistent ring: when every registered
    node holds as [successor] and first finger the next registered id on
    the ring, every lookup started at a registered node that reports
    success names the node the oracle [ground_truth] names for the key over
    the registered ids. *)
Theorem chord_lookup_correct_on_ring w (i : Z) self kk r :
  chord_ring_ok w = true → get_node w i = Some self →
  Chord.lookup w self kk = Ok r → success r = true →
  Chord.ground_truth kk (live_ids w) = Ok (responsible_node r).
Proof.
  intros Hring Hself Hr Hok.
  destruct (chord_ring_live w i self Hring Hself) as (Hid & _).
  eapply chord_ring_lookup_loop; [done| |done..]. by rewrite Hid.
Qed.

End ChordRing.

Lemma chord_lookup_correct_on_ring_witness :
  let r := {| key := 5; responsible_node := 6; hop_count := 1;
              path := [1; 3]%Z; success := true |} in
  chord_ring_ok chord_ring = true
  ∧ get_node chord_ring 1 = Some chord_ring_node
  ∧ Chord.lookup chord_ring chord_ring_node 5 = Ok r
  ∧ success r = true
  ∧ Chord.ground_truth 5 (live_ids chord_ring) = Ok (responsible_node r).
Proof.
  intros r.
  assert (chord_ring_ok chord_ring = true) as Hring by (vm_compute; reflexivity).
  assert (get_node chord_ring 1 = Some chord_ring_node) as Hself
    by (vm_compute; reflexivity).
  assert (Chord.lookup chord_ring chord_ring_node 5 = Ok r) as Hr
    by (vm_compute; reflexivity).
  exact (conj Hring (conj Hself (conj Hr (conj eq_refl
           (chord_lookup_correct_on_ring chord_ring 1 chord_ring_node 5 r
              Hring Hself Hr eq_refl))))).
Defined.

(** ** Pastry: the result of a lookup *)

Section PastryRouting.
Context {V : Type}.
Implicit Types (self n cur : Pastry.PastryNode V) (w : World (Pastry.PastryNode V)).

Lemma pastry_lookup_loop_shape fuel w self cur kk hops pth visited r :
  Pastry.lookup_loop fuel w self cur kk hops pth visited = Ok r →
  key r = kk
  ∧ ∃ rest, path r = pth ++ rest
      ∧ hop_count r = (hops + Z.of_nat (length rest))%Z
      ∧ Forall (λ i, is_live w i = true) rest
      ∧ ∃ c, responsible_node r = Pastry.node_id c
             ∧ match last rest with
               | Some i => get_node w i = Some c
               | None => c = cur
               end.
Proof.
  revert cur hops pth visited.
  assert (∀ cur hops pth (ok : bool),
            let r := Build_LookupResult kk (Pastry.node_id cur) hops pth ok in
            key r = kk
            ∧ ∃ rest, path r = pth ++ rest
                ∧ hop_count r = (hops + Z.of_nat (length rest))%Z
                ∧ Forall (λ i, is_live w i = true) rest
                ∧ ∃ c, responsible_node r = Pastry.node_id c
                       ∧ match last rest with
                         | Some i => get_node w i = Some c
                         | None => c = cur
                         end) as Hstop.
  { intros cur hops pth ok. simpl. split; [done|]. exists [].
    rewrite app_nil_r. simpl. split_and!; [done|lia|done|]. by exists cur. }
  induction fuel as [|fuel IH]; intros cur hops pth visited; simpl.
  - destruct (_ <=? _)%Z; [done|]. intros [= <-]. by apply Hstop.
  - destruct (_ <=? _)%Z; [|intros [= <-]; by apply Hstop].
    destruct (Pastry._route_next w cur kk) as [[nh|]| |]; simpl; [| |done..].
    2:{ intros [= <-]. by apply Hstop. }
    case_bool_decide; [intros [= <-]; by apply Hstop|].
    destruct (get_node w nh) as [next|] eqn:Hnext; [|intros [= <-]; by apply Hstop].
    intros Hr. destruct (IH _ _ _ _ Hr) as (Hkey & rest & Hpath & Hhops & Hlive & Hresp).
    split; [done|]. exists (nh :: rest). split_and!.
    + by rewrite Hpath, <- app_assoc.
    + rewrite Hhops. simpl length. lia.
    + constructor; [|done]. unfold is_live. by rewrite Hnext.
    + destruct Hresp as (c & Hc & Hlast). exists c.
      split; [done|]. rewrite last_cons. destruct (last rest); [done|by subst].
Qed.

(** X14.  The result of [PastryNode.lookup]: it echoes the key; its path
    starts at the initiator and lists one id per hop, so that [hop_count]
    is the length of the path less one; every id after the first was
    registered when it was visited; and the result, successful or not,
    names the last node on the path. *)
Theorem pastry_lookup_path_shape w self kk r :
  Pastry.lookup w self kk = Ok r →
  key r = kk
  ∧ ∃ rest, path r = Pastry.node_id self :: rest
      ∧ hop_count r = Z.of_nat (length rest)
      ∧ Forall (λ i, is_live w i = true) rest
      ∧ ∃ c, responsible_node r = Pastry.node_id c
             ∧ match last rest with
               | Some i => get_node w i = Some c
               | None => c = self
               end.
Proof.
  intros Hr. apply pastry_lookup_loop_shape in Hr
    as (Hkey & rest & Hpath & Hhops & Hlive & Hresp).
  split; [done|]. exists rest. split_and!; [done|lia|done|done].
Qed.

(** X15.  A Pastry node is responsible for its own id: [_route_next] on a
    key at circular distance 0 has no next hop, so that a lookup of the
    node's own id (as [join] makes) ends at once, with no hop, the path
    [[node_id]] and success (for a non-negative [id_bits]). *)
Theorem pastry_lookup_own_id w self :
  (0 ≤ Pastry.id_bits self)%Z →
  Pastry._route_next w self (Pastry.node_id self) = Ok None
  ∧ Pastry.lookup w self (Pastry.node_id self)
    = Ok {| key := Pastry.node_id self; responsible_node := Pastry.node_id self;
            hop_count := 0; path := [Pastry.node_id self]; success := true |}.
Proof.
  intros Hbits.
  assert (Pastry._route_next w self (Pastry.node_id self) = Ok None) as Hnext.
  { unfold Pastry._route_next, Pastry._circular_distance, Pastry.id_space.
    rewrite Z.sub_diag. simpl Z.abs. rewrite Z.sub_0_r.
    rewrite Z.min_l by (apply Z.pow_nonneg; lia). done. }
  split; [done|].
  unfold Pastry.lookup, Pastry.lookup_fuel.
  destruct (Z.to_nat (Pastry.id_bits self * 2 + 1)) as [|fuel] eqn:Hfuel; [lia|].
  cbn [Pastry.lookup_loop]. rewrite Hnext.
  by destruct (Z.leb_spec 0 (Pastry.id_bits self * 2)); [|lia].
Qed.

End PastryRouting.

Lemma pastry_lookup_path_shape_witness :
  let r := {| key := 128; responsible_node := 256; hop_count := 1;
              path := [512; 256]%Z; success := true |} in
  Pastry.lookup pastry_trio pastry_trio_node 128 = Ok r
  ∧ ∃ rest, path r = Pastry.node_id pastry_trio_node :: rest
      ∧ hop_count r = Z.of_nat (length rest)
      ∧ Forall (λ i, is_live pastry_trio i = true) rest.
Proof.
  intros r.
  assert (Pastry.lookup pastry_trio pastry_trio_node 128 = Ok r) as Hr
    by (vm_compute; reflexivity).
  split; [exact Hr|].
  destruct (pastry_lookup_path_shape pastry_trio pastry_trio_node 128 r Hr)
    as (_ & rest & Hpath & Hhops & Hlive & _).
  exists rest. exact (conj Hpath (conj Hhops Hlive)).
Defined.

Lemma pastry_lookup_own_id_witness :
  (0 ≤ Pastry.id_bits pastry_trio_node)%Z
  ∧ Pastry.lookup pastry_trio pastry_trio_node (Pastry.node_id pastry_trio_node)
    = Ok {| key := 512; responsible_node := 512; hop_count := 0;
            path := [512%Z]; success := true |}.
Proof.
  assert (0 ≤ Pastry.id_bits pastry_trio_node)%Z as Hbits by (simpl; lia).
  exact (conj Hbits (proj2 (pastry_lookup_own_id pastry_trio pastry_trio_node Hbits))).
Defined.

(** ** Store, then retrieve *)

Section ChordRoundTrip.
Context {V : Type}.
Implicit Types (n cur : Chord.ChordNode V) (w : World (Chord.ChordNode V)).

Lemma chord_variant_get_node w w' i :
  chord_data_variant w w' →
  option_Forall2 (λ n' n, ∃ d, n' = Chord.set_data d n) (get_node w' i) (get_node w i).
Proof.
  intros [Hnet Hobj]. unfold get_node. rewrite Hnet.
  case_decide; [apply Hobj|constructor].
Qed.

Lemma chord_variant_is_live w w' i :
  chord_data_variant w w' → is_live w' i = is_live w i.
Proof.
  intros Hv. unfold is_live. by destruct (chord_variant_get_node w w' i Hv).
Qed.

Lemma chord_variant_cpf_loop w w' n d kk i :
  chord_data_variant w w' →
  Chord.cpf_loop w' (Chord.set_data d n) kk i = Chord.cpf_loop w n kk i.
Proof.
  intros Hv. induction i as [|j IH]; simpl; [done|].
  destruct (Chord.finger_table n !! j) as [f|]; [|done].
  by rewrite (chord_variant_is_live w w' f Hv), IH.
Qed.

Lemma chord_variant_lookup_loop fuel w w' n d cur d' kk hops pth :
  chord_data_variant w w' →
  Chord.lookup_loop fuel w' (Chord.set_data d n) (Chord.set_data d' cur) kk hops pth
  = Chord.lookup_loop fuel w n cur kk hops pth.
Proof.
  intros Hv. revert cur d' hops pth.
  induction fuel as [|fuel IH]; intros cur d' hops pth; simpl; [done|].
  destruct (_ <=? _)%Z; [|done].
  destruct (Chord._in_half_open _ _ _); [done|].
  unfold Chord._closest_preceding_finger. simpl.
  rewrite (chord_variant_cpf_loop w w' cur d' kk _ Hv).
  destruct (Chord.cpf_loop w cur kk _) as [f| |]; simpl; [|done..].
  destruct (f =? Chord.node_id cur)%Z; [done|].
  destruct (chord_variant_get_node w w' f Hv) as [next' next [dn ->]|]; [|done].
  apply IH.
Qed.

Lemma chord_variant_updated w r (f : gmap Z V → gmap Z V) :
  chord_data_variant w (updated r (λ n, Chord.set_data (f (Chord.data n)) n) w).
Proof.
  split; [done|]. intros i. unfold updated. simpl.
  destruct (decide (i = r)) as [->|Hne].
  - rewrite lookup_alter_eq. destruct (objects w !! r) as [n|]; simpl; constructor.
    by eexists.
  - rewrite lookup_alter_ne by done.
    destruct (objects w !! i) as [n|]; constructor.
    exists (Chord.data n). by destruct n.
Qed.

(** X16.  Store, then retrieve, on Chord: when [store(key, value)] returns
    [True], a [retrieve(key)] from the same node in the state it leaves
    returns the stored value. *)
Theorem chord_store_then_retrieve w w1 (self kk : Z) (value : V) :
  Chord.store self kk value w = (w1, Ok true) →
  Chord.retrieve self kk w1 = (w1, Ok (Some value)).
Proof.
  unfold Chord.store, Chord.retrieve, Chord.call_lookup, bind, deref, pure_call,
    gets, update, modify, ret.
  destruct (objects w !! self) as [me|] eqn:Hme; [|done].
  destruct (Chord.lookup w me kk) as [r| |] eqn:Hr; [|done..].
  destruct (success r) eqn:Hok; simpl; [|done].
  destruct (get_node w (responsible_node r)) as [t|] eqn:Ht; [|done].
  intros [= <-].
  set (f := λ n : Chord.ChordNode V, Chord.set_data (<[kk:=value]> (Chord.data n)) n).
  fold (updated (responsible_node r) f w).
  assert (chord_data_variant w (updated (responsible_node r) f w)) as Hv
    by apply (chord_variant_updated w _ (λ d, <[kk:=value]> d)).
  destruct (proj2 Hv self) as [me' me0 [d ->]|]; [|congruence].
  assert (me0 = me) as -> by congruence. cbv beta iota zeta.
  assert (Chord.lookup (updated (responsible_node r) f w) (Chord.set_data d me) kk
          = Ok r) as ->.
  { rewrite <- Hr. apply (chord_variant_lookup_loop _ w _ me d me d kk 0 _ Hv). }
  rewrite Hok. change (negb true) with false. cbv beta iota zeta.
  apply get_node_Some in Ht as [Ht Hreg].
  assert (get_node (updated (responsible_node r) f w) (responsible_node r)
          = Some (f t)) as ->.
  { unfold get_node, updated. simpl. rewrite decide_True by done.
    by rewrite lookup_alter_eq, Ht. }
  subst f. simpl. by rewrite lookup_insert_eq.
Qed.

End ChordRoundTrip.

Lemma chord_store_then_retrieve_witness :
  ∃ w1, Chord.store 1 5 "v" chord_ring = (w1, Ok true)
        ∧ Chord.retrieve 1 5 w1 = (w1, Ok (Some "v")).
Proof.
  eexists. 
  assert (∀ w1, Chord.store 1 5 "v" chord_ring = (w1, Ok true) →
            Chord.store 1 5 "v" chord_ring = (w1, Ok true)
            ∧ Chord.retrieve 1 5 w1 = (w1, Ok (Some "v"))) as Hstep.
  { intros w1 Hs. exact (conj Hs (chord_store_then_retrieve chord_ring w1 1 5 "v" Hs)). }
  apply Hstep. vm_compute. reflexivity.
Defined.

Section PastryRoundTrip.
Context {V : Type}.
Implicit Types (n cur : Pastry.PastryNode V) (w : World (Pastry.PastryNode V)).

Lemma pastry_variant_get_node w w' i :
  pastry_data_variant w w' →
  option_Forall2 (λ n' n, ∃ d, n' = Pastry.set_data d n) (get_node w' i) (get_node w i).
Proof.
  intros [Hnet Hobj]. unfold get_node. rewrite Hnet.
  case_decide; [apply Hobj|constructor].
Qed.

Lemma pastry_variant_is_live w w' i :
  pastry_data_variant w w' → is_live w' i = is_live w i.
Proof.
  intros Hv. unfold is_live. by destruct (pastry_variant_get_node w w' i Hv).
Qed.

Lemma pastry_variant_spl_loop n d x y idxs :
  Pastry.spl_loop (Pastry.set_data d n) x y idxs = Pastry.spl_loop n x y idxs.
Proof.
  induction idxs as [|i idxs IH]; simpl; [done|].
  change (Pastry._get_digit (Pastry.set_data d n)) with (Pastry._get_digit n).
  destruct (Pastry._get_digit n x (Z.of_nat i)) as [dx| |]; simpl; [|done..].
  destruct (Pastry._get_digit n y (Z.of_nat i)) as [dy| |]; simpl; [|done..].
  by rewrite IH.
Qed.

Lemma pastry_variant_scan w w' n d kk l acc :
  pastry_data_variant w w' →
  fold_left (Pastry.consider w' (Pastry.set_data d n) kk) l acc
  = fold_left (Pastry.consider w n kk) l acc.
Proof.
  intros Hv. revert acc. induction l as [|x l IH]; intros acc; simpl; [done|].
  rewrite IH. f_equal. unfold Pastry.consider. destruct acc as [best best_dist].
  by rewrite (pastry_variant_is_live w w' x Hv).
Qed.

Lemma pastry_variant_route_next w w' n d kk :
  pastry_data_variant w w' →
  Pastry._route_next w' (Pastry.set_data d n) kk = Pastry._route_next w n kk.
Proof.
  intros Hv. unfold Pastry._route_next.
  change (Pastry._circular_distance (Pastry.set_data d n))
    with (Pastry._circular_distance n).
  change (Pastry.node_id (Pastry.set_data d n)) with (Pastry.node_id n).
  change (Pastry.num_digits (Pastry.set_data d n)) with (Pastry.num_digits n).
  change (Pastry.routing_table (Pastry.set_data d n)) with (Pastry.routing_table n).
  change (Pastry.leaf_set (Pastry.set_data d n)) with (Pastry.leaf_set n).
  change (Pastry._get_digit (Pastry.set_data d n)) with (Pastry._get_digit n).
  unfold Pastry._shared_prefix_length.
  change (Pastry.num_digits (Pastry.set_data d n)) with (Pastry.num_digits n).
  rewrite pastry_variant_spl_loop.
  destruct (_ =? 0)%Z; [done|].
  destruct (Pastry.spl_loop n _ _ _) as [plen| |]; simpl; [|done..].
  rewrite !(pastry_variant_scan w w' n d kk _ _ Hv).
  destruct (plen <? Pastry.num_digits n)%Z; simpl; [|done].
  destruct (Pastry._get_digit n kk plen) as [digit| |]; simpl; [|done..].
  destruct (Pastry.cell _ _ _) as [[e|]| |]; simpl; [|done..].
  by rewrite (pastry_variant_is_live w w' e Hv).
Qed.

Lemma pastry_variant_lookup_loop fuel w w' n d cur d' kk hops pth visited :
  pastry_data_variant w w' →
  Pastry.lookup_loop fuel w' (Pastry.set_data d n) (Pastry.set_data d' cur) kk hops
    pth visited
  = Pastry.lookup_loop fuel w n cur kk hops pth visited.
Proof.
  intros Hv. revert cur d' hops pth visited.
  induction fuel as [|fuel IH]; intros cur d' hops pth visited; simpl; [done|].
  destruct (_ <=? _)%Z; [|done].
  rewrite (pastry_variant_route_next w w' cur d' kk Hv).
  destruct (Pastry._route_next w cur kk) as [[nh|]| |]; simpl; [|done..].
  case_bool_decide; [done|].
  destruct (pastry_variant_get_node w w' nh Hv) as [next' next [dn ->]|]; [|done].
  apply IH.
Qed.

Lemma pastry_variant_updated w r (f : gmap Z V → gmap Z V) :
  pastry_data_variant w (updated r (λ n, Pastry.set_data (f (Pastry.data n)) n) w).
Proof.
  split; [done|]. intros i. unfold updated. simpl.
  destruct (decide (i = r)) as [->|Hne].
  - rewrite lookup_alter_eq. destruct (objects w !! r) as [n|]; simpl; constructor.
    by eexists.
  - rewrite lookup_alter_ne by done.
    destruct (objects w !! i) as [n|]; constructor.
    exists (Pastry.data n). by destruct n.
Qed.

(** X17.  Store, then retrieve, on Pastry: when [store(key, value)] returns
    [True], a [retrieve(key)] from the same node in the state it leaves
    returns the stored value. *)
Theorem pastry_store_then_retrieve w w1 (self kk : Z) (value : V) :
  Pastry.store self kk value w = (w1, Ok true) →
  Pastry.retrieve self kk w1 = (w1, Ok (Some value)).
Proof.
  unfold Pastry.store, Pastry.retrieve, Pastry.call_lookup, bind, deref, pure_call,
    gets, update, modify, ret.
  destruct (objects w !! self) as [me|] eqn:Hme; [|done].
  destruct (Pastry.lookup w me kk) as [r| |] eqn:Hr; [|done..].
  destruct (success r) eqn:Hok; simpl; [|done].
  destruct (get_node w (responsible_node r)) as [t|] eqn:Ht; [|done].
  intros [= <-].
  set (f := λ n : Pastry.PastryNode V, Pastry.set_data (<[kk:=value]> (Pastry.data n)) n).
  fold (updated (responsible_node r) f w).
  assert (pastry_data_variant w (updated (responsible_node r) f w)) as Hv
    by apply (pastry_variant_updated w _ (λ d, <[kk:=value]> d)).
  destruct (proj2 Hv self) as [me' me0 [d ->]|]; [|congruence].
  assert (me0 = me) as -> by congruence. cbv beta iota zeta.
  assert (Pastry.lookup (updated (responsible_node r) f w) (Pastry.set_data d me) kk
          = Ok r) as ->.
  { rewrite <- Hr. apply (pastry_variant_lookup_loop _ w _ me d me d kk 0 _ _ Hv). }
  rewrite Hok. change (negb true) with false. cbv beta iota zeta.
  apply get_node_Some in Ht as [Ht Hreg].
  assert (get_node (updated (responsible_node r) f w) (responsible_node r)
          = Some (f t)) as ->.
  { unfold get_node, updated. simpl. rewrite decide_True by done.
    by rewrite lookup_alter_eq, Ht. }
  subst f. simpl. by rewrite lookup_insert_eq.
Qed.

End PastryRoundTrip.

Lemma pastry_store_then_retrieve_witness :
  ∃ w1, Pastry.store 512 128 "v" pastry_trio = (w1, Ok true)
        ∧ Pastry.retrieve 512 128 w1 = (w1, Ok (Some "v")).
Proof.
  eexists.
  assert (∀ w1, Pastry.store 512 128 "v" pastry_trio = (w1, Ok true) →
            Pastry.store 512 128 "v" pastry_trio = (w1, Ok true)
            ∧ Pastry.retrieve 512 128 w1 = (w1, Ok (Some "v"))) as Hstep.
  { intros w1 Hs.
    exact (conj Hs (pastry_store_then_retrieve pastry_trio w1 512 128 "v" Hs)). }
  apply Hstep. vm_compute. reflexivity.
Defined.

(** ** Kademlia: the discipline of the buckets *)

Lemma wp_any {S A} (m : M S A) (s : S) : wp m (λ _ _, True) (λ _, True) s.
Proof. unfold wp. by destruct (m s) as [s' [a|e|]]. Qed.

(** A call whose effect on the state does not matter to what follows. *)
Ltac wp_skip :=
  cbv beta zeta; apply wp_bind; eapply wp_mono; [apply wp_any|cbv beta|done].

(** A loop that carries a value, with an invariant that sees the elements
    already processed. *)
Lemma wp_for_fold_prefix {S A B} (I : list A → B → S → Prop) (l : list A)
    (body : B → A → M S B) (acc : B) (Q : B → S → Prop) (E : S → Prop) (s : S) :
  I [] acc s →
  (∀ seen x acc s', seen ++ [x] `prefix_of` l → I seen acc s' →
     wp (body acc x) (I (seen ++ [x])) E s') →
  (∀ acc s', I l acc s' → Q acc s') →
  wp (for_fold l body acc) Q E s.
Proof.
  intros Hinit Hbody HQ.
  enough (∀ seen rest acc s, seen ++ rest = l → I seen acc s →
            wp (for_fold rest body acc) Q E s) as Hgen by (by apply (Hgen [] l)).
  intros seen rest. revert seen.
  induction rest as [|x rest IH]; intros seen acc' s' Hl Hs; simpl.
  - rewrite app_nil_r in Hl. subst seen. by apply wp_ret, HQ.
  - apply wp_bind. eapply wp_mono; [apply (Hbody seen x); [|done]| |done].
    + exists rest. by rewrite <- app_assoc.
    + intros acc'' s'' Hs''. apply (IH (seen ++ [x])); [|done].
      by rewrite <- app_assoc.
Qed.

Lemma remove_first_not_elem x l : NoDup l → x ∉ remove_first x l.
Proof.
  induction 1 as [|y l Hy _ IH]; simpl; [by intros ?%elem_of_nil|].
  destruct (Z.eqb_spec x y) as [->|Hne]; [done|].
  intros [?|?]%elem_of_cons; [done|by apply IH].
Qed.

Lemma remove_first_elem x y l : y ∈ remove_first x l → y ∈ l.
Proof. intros Hy. eapply elem_of_sublist; [done|apply remove_first_sublist]. Qed.

Lemma remove_first_NoDup x l : NoDup l → NoDup (remove_first x l).
Proof. intros Hl. eapply sublist_NoDup; [done|apply remove_first_sublist]. Qed.


Section KademliaTouch.
Context {V : Type}.
Implicit Types (n me : Kademlia.KademliaNode V) (w : World (Kademlia.KademliaNode V)).
Implicit Types (I : World (Kademlia.KademliaNode V) → Prop).

Lemma update_bucket_touch I self nid :
  touch_stable I → preserves I (Kademlia._update_bucket self nid).
Proof.
  intros HI w Hw. unfold Kademlia._update_bucket. wp_run.
  - apply (HI w self n nid); [done..|].
    split; [by apply Z.eqb_neq|]. eexists. split; [done|]. left.
    split; [|done].
    match goal with H : mem _ _ = true |- _ => by apply bool_decide_eq_true in H end.
  - apply (HI w self n nid); [done..|].
    split; [by apply Z.eqb_neq|]. eexists. split; [done|]. right.
    split_and!; [|by apply Z.ltb_lt|done].
    match goal with H : mem _ _ = false |- _ => by apply bool_decide_eq_false in H end.
Qed.

Lemma find_node_rpc_touch I self target querier :
  touch_stable I → preserves I (Kademlia.find_node_rpc self target querier).
Proof.
  intros HI w Hw. unfold Kademlia.find_node_rpc.
  wp_call update_bucket_touch. intros [] w' Hw'. simpl. wp_run.
Qed.

Lemma ingest_touch I self acc r :
  touch_stable I → preserves I (Kademlia.ingest self acc r).
Proof.
  intros HI w Hw. unfold Kademlia.ingest. destruct acc as [shortlist found_new].
  wp_call update_bucket_touch. intros [] w' Hw'. simpl. wp_run.
Qed.

Lemma query_one_touch I self kk acc nid :
  touch_stable I → preserves I (Kademlia.query_one self kk acc nid).
Proof.
  intros HI w Hw. unfold Kademlia.query_one.
  destruct acc as [[[shortlist queried] pth] found_new]. wp_run.
  wp_call find_node_rpc_touch. intros returned w' Hw'. simpl. wp_step.
  apply (wp_for_fold (λ _, I)); [done| |].
  - intros acc x w'' _ Hw''. by apply ingest_touch.
  - intros [sl fn] w'' Hw''. cbv beta. wp_run.
Qed.

Lemma lookup_rounds_touch I fuel self kk shortlist queried pth hops :
  touch_stable I →
  preserves I (Kademlia.lookup_rounds fuel self kk shortlist queried pth hops).
Proof.
  intros HI. revert shortlist queried pth hops.
  induction fuel as [|fuel IH]; intros shortlist queried pth hops w Hw; simpl.
  - wp_run.
  - wp_run. unfold wp at 1. rewrite advance_clock_noop.
    wp_step. apply (wp_for_fold (λ _, I)); [done| |].
    + intros acc x w' _ Hw'. by apply query_one_touch.
    + intros [[[sl q] p] fn] w' Hw'. cbv beta. wp_run. by apply IH.
Qed.

Lemma lookup_touch I self kk :
  touch_stable I → preserves I (Kademlia.lookup self kk).
Proof.
  intros HI w Hw. unfold Kademlia.lookup. wp_run.
  wp_call lookup_rounds_touch. intros [[sl p] h] w' Hw'. cbv beta. wp_run.
Qed.

Lemma kademlia_tidy_set_data n d :
  kademlia_node_tidy n → kademlia_node_tidy (Kademlia.set_data d n).
Proof. done. Qed.

Lemma kademlia_tidy_touch_stable : touch_stable (all_nodes (@kademlia_node_tidy V)).
Proof.
  intros w r me nid bs Hw Hr (Hne & bucket & Hbucket & Hbs).
  apply all_nodes_updated; [done|].
  intros n Hn Htidy. assert (n = me) as -> by congruence.
  destruct (Htidy _ _ Hbucket) as [Hnodup Hplace].
  assert (∀ bucket', NoDup bucket' →
            (∀ x, x ∈ bucket' → x = nid ∨ x ∈ bucket) →
            kademlia_node_tidy
              (Kademlia.set_buckets
                 (<[Z.to_nat (Kademlia._bucket_index me nid) := bucket']>
                    (Kademlia.buckets me)) me)) as Hset.
  { intros bucket' Hnodup' Hsub i b. simpl.
    destruct (decide (i = Z.to_nat (Kademlia._bucket_index me nid))) as [->|Hi].
    - rewrite list_lookup_insert_eq by (by eapply lookup_lt_Some).
      intros [= <-]. split; [done|].
      intros x [->|Hx]%Hsub; [done|by apply Hplace].
    - rewrite list_lookup_insert_ne by done. apply Htidy. }
  destruct Hbs as [[Hin ->]|(Hnotin & _ & ->)]; apply Hset.
  - apply NoDup_app. split_and!; [by apply remove_first_NoDup| |apply NoDup_singleton].
    intros x Hx ->%list_elem_of_singleton. by eapply remove_first_not_elem.
  - intros x [Hx%remove_first_elem| ->%list_elem_of_singleton]%elem_of_app; auto.
  - apply NoDup_app. split_and!; [done| |apply NoDup_singleton].
    by intros x Hx ->%list_elem_of_singleton.
  - intros x [Hx| ->%list_elem_of_singleton]%elem_of_app; auto.
Qed.

Lemma kademlia_new_node_tidy nid bits kk a :
  preserves (all_nodes (@kademlia_node_tidy V)) (Kademlia.new_node nid bits kk a).
Proof.
  intros w Hw. apply wp_modify. apply all_nodes_inserted; [done|].
  intros i bucket. simpl. intros [-> _]%lookup_replicate.
  split; [constructor|]. by intros x ?%elem_of_nil.
Qed.

Lemma kademlia_join_tidy self bootstrap_id :
  preserves (all_nodes (@kademlia_node_tidy V)) (Kademlia.join self bootstrap_id).
Proof.
  intros w Hw. unfold Kademlia.join. wp_read. wp_write idtac.
  destruct bootstrap_id as [b|]; [|by wp_read].
  wp_apply (update_bucket_touch (all_nodes (@kademlia_node_tidy V)));
    [apply kademlia_tidy_touch_stable|done|].
  intros [] s1 Hs1.
  wp_apply (lookup_touch (all_nodes (@kademlia_node_tidy V)));
    [apply kademlia_tidy_touch_stable|done|].
  intros result s2 Hs2. by wp_read.
Qed.

Lemma kademlia_leave_tidy self :
  preserves (all_nodes (@kademlia_node_tidy V)) (Kademlia.leave self).
Proof. intros w Hw. unfold Kademlia.leave. wp_read. Qed.

Lemma kademlia_stabilize_tidy self :
  preserves (all_nodes (@kademlia_node_tidy V)) (Kademlia.stabilize self).
Proof.
  intros w Hw. unfold Kademlia.stabilize. wp_read.
  wp_write ltac:(same_object).
  match goal with H : kademlia_node_tidy _ |- _ => rename H into Htidy end.
  intros i bucket. simpl. rewrite list_lookup_fmap.
  destruct (Kademlia.buckets n !! i) as [b|] eqn:Hb; simpl; [|done].
  intros [= <-]. destruct (Htidy _ _ Hb) as [Hnodup Hplace].
  split; [by apply NoDup_filter|].
  intros x [_ Hx]%list_elem_of_filter. by apply Hplace.
Qed.

Lemma kademlia_store_tidy self kk (value : V) :
  preserves (all_nodes (@kademlia_node_tidy V)) (Kademlia.store self kk value).
Proof.
  intros w Hw. unfold Kademlia.store.
  wp_apply (lookup_touch (all_nodes (@kademlia_node_tidy V)));
    [apply kademlia_tidy_touch_stable|done|].
  intros result s Hs. wp_read. wp_write ltac:(by apply kademlia_tidy_set_data).
Qed.

Lemma kademlia_retrieve_tidy self kk :
  preserves (all_nodes (@kademlia_node_tidy V)) (Kademlia.retrieve self kk).
Proof.
  intros w Hw. unfold Kademlia.retrieve.
  wp_apply (lookup_touch (all_nodes (@kademlia_node_tidy V)));
    [apply kademlia_tidy_touch_stable|done|].
  intros result s Hs. wp_read.
Qed.

Lemma kademlia_exec_tidy (o : Kademlia.op V) :
  preserves (all_nodes (@kademlia_node_tidy V)) (Kademlia.exec o).
Proof.
  destruct o; simpl.
  - intros w Hw. wp_read. by apply kademlia_new_node_tidy.
  - apply preserves_discard, kademlia_join_tidy.
  - apply preserves_discard, kademlia_leave_tidy.
  - apply preserves_discard, lookup_touch, kademlia_tidy_touch_stable.
  - apply kademlia_stabilize_tidy.
  - apply preserves_discard, kademlia_store_tidy.
  - apply preserves_discard, kademlia_retrieve_tidy.
Qed.

Lemma kademlia_reachable_tidy w :
  reachable Kademlia.exec w → all_nodes (@kademlia_node_tidy V) w.
Proof.
  apply (reachable_invariant Kademlia.exec (all_nodes kademlia_node_tidy)).
  - by intros ? ?.
  - apply kademlia_exec_tidy.
Qed.

Lemma kademlia_tidy_concat_NoDup n : kademlia_node_tidy n → NoDup (concat (Kademlia.buckets n)).
Proof.
  unfold kademlia_node_tidy.
  generalize (Kademlia.buckets n) as bs.
  intros bs Htidy.
  assert (∀ (off : nat) (l : list (list Z)),
            (∀ i bucket, l !! i = Some bucket →
               NoDup bucket
               ∧ ∀ x, x ∈ bucket →
                   Z.to_nat (Kademlia._bucket_index n x) = (off + i)%nat) →
            NoDup (concat l)) as Hgen.
  { intros off l. revert off. induction l as [|b l IH]; intros off Hl; simpl.
    - constructor.
    - apply NoDup_app. split_and!.
      + apply (Hl 0%nat b eq_refl).
      + intros x Hx (b' & Hb' & Hxb')%elem_of_concat.
        apply list_elem_of_lookup in Hb' as [j Hj].
        pose proof (proj2 (Hl 0%nat b eq_refl) x Hx).
        pose proof (proj2 (Hl (S j) b' Hj) x Hxb'). lia.
      + apply (IH (S off)). intros i bucket Hi.
        destruct (Hl (S i) bucket Hi) as [Hnd Hpl]. split; [done|].
        intros x Hx. rewrite (Hpl x Hx). lia. }
  apply (Hgen 0%nat). intros i bucket Hi. destruct (Htidy i bucket Hi) as [Hnd Hpl].
  split; [done|]. intros x Hx. by apply Hpl.
Qed.

End KademliaTouch.

(** X18.  The discipline of the buckets, in every state a driver can reach
    through the public operations: a bucket never holds an id twice, never
    holds the node's own id, holds an id only at the index
    [_bucket_index] gives it, and so no id sits in two buckets of a
    node. *)
Theorem kademlia_buckets_tidy {V} (w : World (Kademlia.KademliaNode V)) (i : Z)
    (n : Kademlia.KademliaNode V) :
  reachable Kademlia.exec w → objects w !! i = Some n →
  NoDup (concat (Kademlia.buckets n))
  ∧ ∀ j bucket, Kademlia.buckets n !! j = Some bucket →
      NoDup bucket
      ∧ ∀ x, x ∈ bucket →
          x ≠ Kademlia.node_id n ∧ Z.to_nat (Kademlia._bucket_index n x) = j.
Proof.
  intros Hw Hn. pose proof (kademlia_reachable_tidy w Hw i n Hn) as Htidy.
  split; [by apply kademlia_tidy_concat_NoDup|done].
Qed.

Lemma kademlia_buckets_tidy_witness :
  reachable Kademlia.exec kademlia_chain
  ∧ objects kademlia_chain !! 0%Z = Some kademlia_chain_node
  ∧ NoDup (concat (Kademlia.buckets kademlia_chain_node))
  ∧ ∀ x, x ∈ [1%Z] →
      x ≠ Kademlia.node_id kademlia_chain_node
      ∧ Z.to_nat (Kademlia._bucket_index kademlia_chain_node x) = 0%nat.
Proof.
  assert (reachable Kademlia.exec kademlia_chain) as Hk
    by (apply reachable_run; constructor).
  assert (objects kademlia_chain !! 0%Z = Some kademlia_chain_node) as Hkn
    by (vm_compute; reflexivity).
  destruct (kademlia_buckets_tidy kademlia_chain 0 kademlia_chain_node Hk Hkn)
    as [Hnodup Hplace].
  exact (conj Hk (conj Hkn (conj Hnodup (proj2 (Hplace 0%nat [1%Z] eq_refl))))).
Defined.

(** ** Kademlia: the path of a lookup *)

Section KademliaPath.
Context {V : Type}.
Implicit Types (n me : Kademlia.KademliaNode V) (w : World (Kademlia.KademliaNode V)).

Lemma ingest_shortlist self shortlist found_new r w :
  NoDup shortlist →
  wp (Kademlia.ingest self (shortlist, found_new) r)
     (λ acc _, NoDup acc.1) (λ _, True) w.
Proof.
  intros Hsl. unfold Kademlia.ingest.
  wp_skip. intros [] s _.
  apply wp_bind, wp_deref; [|done]. intros me Hme.
  destruct (negb (mem r shortlist)) eqn:Hmem; simpl.
  - destruct (negb (r =? Kademlia.node_id me)%Z); apply wp_ret; simpl; [|done].
    apply NoDup_app. split_and!; [done| |apply NoDup_singleton].
    intros x Hx ->%list_elem_of_singleton.
    apply negb_true_iff, bool_decide_eq_false in Hmem. done.
  - by apply wp_ret.
Qed.

Lemma query_one_path self kk shortlist queried pth found_new nid w :
  NoDup shortlist →
  wp (Kademlia.query_one self kk (shortlist, queried, pth, found_new) nid)
     (λ acc _, NoDup acc.1.1.1 ∧ acc.1.1.2 = {[nid]} ∪ queried
               ∧ acc.1.2 = pth ++ [nid])
     (λ _, True) w.
Proof.
  intros Hsl. unfold Kademlia.query_one.
  apply wp_bind, wp_gets.
  destruct (get_node w nid) as [t|]; [|by apply wp_ret].
  apply wp_bind, wp_deref; [|done]. intros me Hme.
  wp_skip. intros returned s _.
  apply wp_bind.
  apply (wp_for_fold (λ acc _, NoDup acc.1)); [done| |].
  - intros [sl fn] x s' _ Hacc. by apply ingest_shortlist.
  - intros [sl fn] s' Hacc. by apply wp_ret.
Qed.

Lemma lookup_rounds_path fuel self kk shortlist queried pth hops w :
  NoDup shortlist → NoDup pth → (∀ x, x ∈ pth → x ∈ queried) →
  wp (Kademlia.lookup_rounds fuel self kk shortlist queried pth hops)
     (λ res _, ∃ suffix,
        res.1.2 = pth ++ suffix ∧ NoDup res.1.2
        ∧ (hops ≤ res.2)%Z ∧ (res.2 - hops ≤ Z.of_nat (length suffix))%Z)
     (λ _, True) w.
Proof.
  revert shortlist queried pth hops w.
  induction fuel as [|fuel IH]; intros shortlist queried pth hops w Hsl Hpth Hq;
    simpl.
  - apply wp_bind, wp_deref; [|done]. intros me Hme.
    destruct (slice_to _ _); [|done].
    apply wp_ret. exists []. rewrite app_nil_r. simpl. split_and!; [done|done|lia|lia].
  - apply wp_bind, wp_deref; [|done]. intros me Hme.
    destruct (slice_to (Kademlia.alpha me) (filter (λ x : Z, x ∉ queried) shortlist))
      as [|q0 qs] eqn:Hquery.
    { apply wp_ret. exists []. rewrite app_nil_r. simpl.
      split_and!; [done|done|lia|lia]. }
    set (to_query := q0 :: qs) in *.
    assert (NoDup to_query ∧ ∀ x, x ∈ to_query → x ∉ queried) as [Hnd Hfresh].
    { rewrite <- Hquery. split.
      - eapply sublist_NoDup; [|apply slice_to_sublist]. by apply NoDup_filter.
      - intros x Hx%slice_to_elem. by apply list_elem_of_filter in Hx as [Hx _]. }
    apply wp_bind. unfold wp at 1. rewrite advance_clock_noop.
    apply wp_bind.
    apply (wp_for_fold_prefix
             (λ seen acc _, NoDup acc.1.1.1
                            ∧ acc.1.1.2 = list_to_set seen ∪ queried
                            ∧ acc.1.2 = pth ++ seen)).
    { simpl. split_and!; [done|set_solver|by rewrite app_nil_r]. }
    { intros seen x [[[sl q] p] fn] s _ (Hsl' & Hq' & Hp'). simpl in Hsl', Hq', Hp'.
      subst q p.
      eapply wp_mono; [by apply query_one_path| |done].
      intros [[[sl' q'] p'] fn'] s' (Hsl'' & Hq'' & Hp''). simpl in *. subst q' p'.
      split_and!; [done| |by rewrite <- app_assoc].
      rewrite list_to_set_app_L. set_solver. }
    intros [[[sl q] p] fn] s (Hsl' & Hq' & Hp'). simpl in Hsl', Hq', Hp'. subst q p.
    assert (NoDup (pth ++ to_query)) as Hpath.
    { apply NoDup_app. split_and!; [done| |done].
      intros x Hx Hx'. by apply (Hfresh x Hx'), Hq. }
    assert (1 ≤ Z.of_nat (length to_query))%Z as Hlen by (subst to_query; simpl; lia).
    cbv beta iota zeta.
    destruct (negb fn).
    { apply wp_ret. exists to_query. simpl. split_and!; [done|done|lia|lia]. }
    destruct (hops + 1 >? Kademlia.id_bits me * 2)%Z.
    { apply wp_ret. exists to_query. simpl. split_and!; [done|done|lia|lia]. }
    eapply wp_mono; [apply IH| |done].
    + eapply sublist_NoDup; [|apply slice_to_sublist]. by rewrite sort_by_perm.
    + done.
    + intros x [Hx|Hx]%elem_of_app; [|set_solver].
      apply elem_of_union_r. by apply Hq.
    + intros [[sl' p'] h'] s' (suffix & Hp' & Hnd' & Hh1 & Hh2).
      cbn [fst snd] in *.
      exists (to_query ++ suffix). rewrite length_app, Nat2Z.inj_add.
      split_and!; [by rewrite Hp', <- app_assoc|done|lia|lia].
Qed.

Lemma kademlia_lookup_path self kk me w :
  objects w !! self = Some me → NoDup (concat (Kademlia.buckets me)) →
  wp (Kademlia.lookup self kk)
     (λ r _, key r = kk ∧ success r = true
             ∧ (∃ rest, path r = Kademlia.node_id me :: rest
                        ∧ (0 ≤ hop_count r ≤ Z.of_nat (length rest))%Z)
             ∧ NoDup (path r)
             ∧ (Kademlia._distance (responsible_node r) kk
                ≤ Kademlia._distance (Kademlia.node_id me) kk)%Z)
     (λ _, True) w.
Proof.
  intros Hme Hbuckets. unfold Kademlia.lookup.
  apply wp_bind, wp_deref; [|done]. intros n Hn. assert (n = me) as -> by congruence.
  destruct (Kademlia._find_closest_local me kk (Some (Kademlia.k me)))
    as [|c0 cs] eqn:Hclosest.
  { apply wp_ret. simpl. split_and!; [done|done| |apply NoDup_singleton|lia].
    exists []. simpl. split; [done|lia]. }
  set (shortlist := c0 :: cs) in *.
  assert (NoDup shortlist) as Hsl.
  { rewrite <- Hclosest. unfold Kademlia._find_closest_local.
    eapply sublist_NoDup; [|apply slice_to_sublist]. by rewrite sort_by_perm. }
  apply wp_bind.
  eapply wp_mono;
    [apply (lookup_rounds_path _ self kk shortlist {[Kademlia.node_id me]}
              [Kademlia.node_id me] 0 w Hsl)| |done].
  - apply NoDup_singleton.
  - intros x ->%list_elem_of_singleton. set_solver.
  - intros [[sl p] h] s (suffix & Hp & Hnd & Hh1 & Hh2). simpl in *.
    apply wp_ret. simpl. split_and!; [done|done| |done|].
    + exists suffix. split; [done|lia].
    + destruct (sl ++ [Kademlia.node_id me]) as [|c rest] eqn:Hcand; [lia|].
      apply (min_by_le (λ x : Z, Kademlia._distance x kk)).
      rewrite <- Hcand. set_solver.
Qed.

End KademliaPath.

(** X19.  The result of [KademliaNode.lookup], in every state a driver can
    reach: it echoes the key and reports success; its path starts at the
    initiator and never names a node twice (no node is queried twice, the
    initiator never); every round queries at least one node, so that
    [hop_count] is at most the length of the path less one; and the node
    it names is at most as far from the key, in XOR distance, as the
    initiator itself. *)
Theorem kademlia_lookup_path_shape {V} (w w' : World (Kademlia.KademliaNode V))
    (self kk : Z) (me : Kademlia.KademliaNode V) (r : LookupResult) :
  reachable Kademlia.exec w → objects w !! self = Some me →
  Kademlia.lookup self kk w = (w', Ok r) →
  key r = kk ∧ success r = true
  ∧ (∃ rest, path r = Kademlia.node_id me :: rest
             ∧ (0 ≤ hop_count r ≤ Z.of_nat (length rest))%Z)
  ∧ NoDup (path r)
  ∧ (Kademlia._distance (responsible_node r) kk
     ≤ Kademlia._distance (Kademlia.node_id me) kk)%Z.
Proof.
  intros Hw Hme Hrun.
  pose proof (kademlia_reachable_tidy w Hw self me Hme) as Htidy.
  apply kademlia_tidy_concat_NoDup in Htidy.
  exact (wp_elim _ _ _ _ _ _ (kademlia_lookup_path self kk me w Hme Htidy) Hrun).
Qed.

Lemma kademlia_lookup_path_shape_witness :
  reachable Kademlia.exec kademlia_chain
  ∧ objects kademlia_chain !! 0%Z = Some kademlia_chain_node
  ∧ ∃ w' r, Kademlia.lookup 0 7 kademlia_chain = (w', Ok r)
      ∧ path r = [0; 1; 2; 3; 4; 5; 6; 7]%Z
      ∧ responsible_node r = 7%Z
      ∧ NoDup (path r)
      ∧ (Kademlia._distance (responsible_node r) 7
         ≤ Kademlia._distance (Kademlia.node_id kademlia_chain_node) 7)%Z.
Proof.
  assert (reachable Kademlia.exec kademlia_chain) as Hk
    by (apply reachable_run; constructor).
  assert (objects kademlia_chain !! 0%Z = Some kademlia_chain_node) as Hkn
    by (vm_compute; reflexivity).
  refine (conj Hk (conj Hkn _)).
  eexists _, _.
  assert (∀ w' r, Kademlia.lookup 0 7 kademlia_chain = (w', Ok r) →
            path r = [0; 1; 2; 3; 4; 5; 6; 7]%Z → responsible_node r = 7%Z →
            Kademlia.lookup 0 7 kademlia_chain = (w', Ok r)
            ∧ path r = [0; 1; 2; 3; 4; 5; 6; 7]%Z
            ∧ responsible_node r = 7%Z
            ∧ NoDup (path r)
            ∧ (Kademlia._distance (responsible_node r) 7
               ≤ Kademlia._distance (Kademlia.node_id kademlia_chain_node) 7)%Z)
    as Hstep.
  { intros w' r Hrun Hpath Hresp.
    destruct (kademlia_lookup_path_shape kademlia_chain w' 0 7 kademlia_chain_node r
                Hk Hkn Hrun) as (_ & _ & _ & Hnd & Hdist).
    exact (conj Hrun (conj Hpath (conj Hresp (conj Hnd Hdist)))). }
  apply Hstep; vm_compute; reflexivity.
Defined.

(** ** Kademlia: stabilization *)

Section KademliaStabilize.
Context {V : Type}.
Implicit Types (n me : Kademlia.KademliaNode V) (w : World (Kademlia.KademliaNode V)).

Lemma is_live_updated w r (f : Kademlia.KademliaNode V → Kademlia.KademliaNode V) x :
  is_live (updated r f w) x = is_live w x.
Proof.
  unfold is_live, get_node, updated. simpl. case_decide; [|done].
  destruct (decide (x = r)) as [->|Hne].
  - rewrite lookup_alter_eq. by destruct (objects w !! r).
  - by rewrite lookup_alter_ne.
Qed.

Lemma kademlia_stabilize_run w self me :
  objects w !! self = Some me →
  Kademlia.stabilize self w
  = (updated self
       (Kademlia.set_buckets
          (map (filter (λ nid, is_live w nid)) (Kademlia.buckets me))) w, Ok tt).
Proof.
  intros Hme. unfold Kademlia.stabilize, bind, deref, gets, update, modify.
  by rewrite Hme.
Qed.

End KademliaStabilize.

(** X20.  Stabilization of a Kademlia node: it returns, changes neither the
    registry nor any other node, keeps in the buckets exactly the ids that
    are registered, in their order, and is idempotent: a second
    [stabilize] changes nothing. *)
Theorem kademlia_stabilize_purges {V} (w : World (Kademlia.KademliaNode V))
    (self : Z) (me : Kademlia.KademliaNode V) :
  objects w !! self = Some me →
  ∃ w' me',
    Kademlia.stabilize self w = (w', Ok tt)
    ∧ network w' = network w
    ∧ (∀ i, i ≠ self → objects w' !! i = objects w !! i)
    ∧ objects w' !! self = Some me'
    ∧ length (Kademlia.buckets me') = length (Kademlia.buckets me)
    ∧ (∀ j bucket, Kademlia.buckets me !! j = Some bucket →
         Kademlia.buckets me' !! j = Some (filter (λ nid, is_live w' nid) bucket))
    ∧ (∀ x, x ∈ concat (Kademlia.buckets me') → is_live w' x = true)
    ∧ Kademlia.stabilize self w' = (w', Ok tt).
Proof.
  intros Hme. rewrite (kademlia_stabilize_run w self me Hme).
  set (f := Kademlia.set_buckets
              (map (filter (λ nid, is_live w nid)) (Kademlia.buckets me))).
  assert (objects (updated self f w) !! self = Some (f me)) as Hme'.
  { unfold updated. simpl. by rewrite lookup_alter_eq, Hme. }
  assert (∀ bucket : list Z,
            filter (λ nid, is_live (updated self f w) nid) bucket
            = filter (λ nid, is_live w nid) bucket) as Hsame.
  { intros bucket. apply list_filter_iff. intros x.
    by rewrite is_live_updated. }
  exists (updated self f w), (f me). split_and!; [done|done| |done| | | |].
  - intros i Hi. unfold updated. simpl. by rewrite lookup_alter_ne.
  - subst f. simpl. by rewrite length_map.
  - intros j bucket Hj. subst f. simpl. rewrite list_lookup_fmap, Hj. simpl.
    by rewrite Hsame.
  - intros x (b & Hb & Hx)%elem_of_concat. subst f. simpl in Hb.
    apply list_elem_of_fmap in Hb as (b0 & -> & _).
    apply list_elem_of_filter in Hx as [Hx _]. rewrite is_live_updated.
    by destruct (is_live w x).
  - rewrite (kademlia_stabilize_run _ self (f me) Hme'). f_equal.
    unfold updated. simpl. f_equal. rewrite alter_alter_eq.
    apply map_eq. intros i. destruct (decide (i = self)) as [->|Hi].
    + rewrite !lookup_alter_eq, Hme. simpl. f_equal. subst f.
      unfold Kademlia.set_buckets. simpl. f_equal.
      rewrite <- list_fmap_compose. apply list_fmap_ext. intros j bucket _. simpl.
      rewrite Hsame. rewrite list_filter_filter. apply list_filter_iff.
      intros x. tauto.
    + by rewrite !lookup_alter_ne.
Qed.

Lemma kademlia_stabilize_purges_witness :
  objects kademlia_chain !! 0%Z = Some kademlia_chain_node
  ∧ ∃ w' me',
      Kademlia.stabilize 0 kademlia_chain = (w', Ok tt)
      ∧ objects w' !! 0%Z = Some me'
      ∧ (∀ x, x ∈ concat (Kademlia.buckets me') → is_live w' x = true)
      ∧ Kademlia.stabilize 0 w' = (w', Ok tt).
Proof.
  assert (objects kademlia_chain !! 0%Z = Some kademlia_chain_node) as Hkn
    by (vm_compute; reflexivity).
  refine (conj Hkn _).
  destruct (kademlia_stabilize_purges kademlia_chain 0 kademlia_chain_node Hkn)
    as (w' & me' & Hrun & _ & _ & Hme' & _ & _ & Hlive & Hidem).
  exists w', me'. exact (conj Hrun (conj Hme' (conj Hlive Hidem))).
Defined.

(** X21.  Departure and clean-up on Kademlia: [leave] only unregisters the
    node, so other nodes keep its id in their buckets; the next
    [stabilize] of such a node drops it. *)
Theorem kademlia_leave_then_stabilize {V} (w : World (Kademlia.KademliaNode V))
    (gone self : Z) (mg me : Kademlia.KademliaNode V) :
  objects w !! gone = Some mg → Kademlia.node_id mg = gone →
  objects w !! self = Some me →
  ∃ w1 w2 me',
    Kademlia.leave gone w = (w1, Ok 0%Z)
    ∧ objects w1 = objects w ∧ get_node w1 gone = None
    ∧ Kademlia.stabilize self w1 = (w2, Ok tt)
    ∧ objects w2 !! self = Some me'
    ∧ gone ∉ concat (Kademlia.buckets me').
Proof.
  intros Hg Hid Hme.
  set (w1 := {| objects := objects w; network := unregister gone (network w) |}).
  assert (Kademlia.leave gone w = (w1, Ok 0%Z)) as Hleave.
  { unfold Kademlia.leave, bind, deref, on_network, modify, ret.
    by rewrite Hg, Hid. }
  assert (get_node w1 gone = None) as Hdead.
  { unfold get_node, w1, unregister. simpl. rewrite decide_False; [done|set_solver]. }
  destruct (kademlia_stabilize_purges w1 self me Hme)
    as (w2 & me' & Hrun & Hnet & _ & Hme' & _ & _ & Hlive & _).
  exists w1, w2, me'. split_and!; [done|done|done|done|done|].
  intros Hin. specialize (Hlive gone Hin).
  unfold is_live, get_node in Hlive. rewrite Hnet in Hlive.
  unfold get_node in Hdead. destruct (decide (gone ∈ nodes (network w1))); [|done].
  simpl in Hdead. by rewrite Hdead in *.
Qed.

Lemma kademlia_leave_then_stabilize_witness :
  ∃ mg, objects kademlia_chain !! 1%Z = Some mg
    ∧ Kademlia.node_id mg = 1%Z
    ∧ objects kademlia_chain !! 0%Z = Some kademlia_chain_node
    ∧ 1%Z ∈ concat (Kademlia.buckets kademlia_chain_node)
    ∧ ∃ w1 w2 me',
        Kademlia.leave 1 kademlia_chain = (w1, Ok 0%Z)
        ∧ Kademlia.stabilize 0 w1 = (w2, Ok tt)
        ∧ objects w2 !! 0%Z = Some me'
        ∧ 1%Z ∉ concat (Kademlia.buckets me').
Proof.
  eexists.
  assert (∀ mg, objects kademlia_chain !! 1%Z = Some mg → Kademlia.node_id mg = 1%Z →
            objects kademlia_chain !! 1%Z = Some mg
            ∧ Kademlia.node_id mg = 1%Z
            ∧ objects kademlia_chain !! 0%Z = Some kademlia_chain_node
            ∧ 1%Z ∈ concat (Kademlia.buckets kademlia_chain_node)
            ∧ ∃ w1 w2 me',
                Kademlia.leave 1 kademlia_chain = (w1, Ok 0%Z)
                ∧ Kademlia.stabilize 0 w1 = (w2, Ok tt)
                ∧ objects w2 !! 0%Z = Some me'
                ∧ 1%Z ∉ concat (Kademlia.buckets me')) as Hstep.
  { intros mg Hmg Hid.
    assert (objects kademlia_chain !! 0%Z = Some kademlia_chain_node) as Hkn
      by (vm_compute; reflexivity).
    assert (1%Z ∈ concat (Kademlia.buckets kademlia_chain_node)) as Hin
      by (simpl; apply list_elem_of_singleton; reflexivity).
    destruct (kademlia_leave_then_stabilize kademlia_chain 1 0 mg kademlia_chain_node
                Hmg Hid Hkn) as (w1 & w2 & me' & Hleave & _ & _ & Hstab & Hme' & Hout).
    refine (conj Hmg (conj Hid (conj Hkn (conj Hin _)))).
    exists w1, w2, me'. exact (conj Hleave (conj Hstab (conj Hme' Hout))). }
  apply Hstep; vm_compute; reflexivity.
Defined.

(** ** Pastry: the discipline of the leaf set and of the routing table *)

Lemma sublist_StronglySorted {A} (R : relation A) (l1 l2 : list A) :
  l1 `sublist_of` l2 → StronglySorted R l2 → StronglySorted R l1.
Proof.
  induction 1 as [|x l1 l2 Hsub IH|x l1 l2 Hsub IH]; intros Hs; [done| |].
  - apply StronglySorted_cons in Hs as [Hx Hs]. apply StronglySorted_cons.
    split; [|by apply IH]. rewrite Forall_forall in Hx |- *.
    intros y Hy. apply Hx. by eapply elem_of_sublist.
  - apply StronglySorted_cons in Hs as [_ Hs]. by apply IH.
Qed.

Lemma getitem_nonneg {A} (l : list A) (i : Z) (x : A) :
  getitem l i = Ok x → (0 ≤ i)%Z → l !! Z.to_nat i = Some x.
Proof.
  unfold getitem, py_index. intros Hget Hi.
  destruct (Z.leb_spec 0 i); [|lia].
  destruct (i <? Z.of_nat (length l))%Z; simpl in Hget; [|done].
  destruct (l !! Z.to_nat i); [|done]. by injection Hget as ->.
Qed.

Lemma setitem_nonneg {A} (l l' : list A) (i : Z) (x : A) :
  setitem l i x = Ok l' → (0 ≤ i)%Z → l' = <[Z.to_nat i := x]> l.
Proof.
  unfold setitem, py_index. intros Hset Hi.
  destruct (Z.leb_spec 0 i); [|lia].
  destruct (i <? Z.of_nat (length l))%Z; [|done]. by injection Hset as <-.
Qed.

Lemma set_cell_nonneg (table table' : list (list (option Z))) (row col : Z) v :
  Pastry.set_cell table row col v = Ok table' → (0 ≤ row)%Z → (0 ≤ col)%Z →
  ∃ r0, table !! Z.to_nat row = Some r0
        ∧ table' = <[Z.to_nat row := <[Z.to_nat col := v]> r0]> table.
Proof.
  unfold Pastry.set_cell. intros Hset Hrow Hcol.
  destruct (getitem table row) as [r0| |] eqn:Hr0; simpl in Hset; [|done..].
  destruct (setitem r0 col v) as [r1| |] eqn:Hr1; simpl in Hset; [|done..].
  exists r0. split; [by apply getitem_nonneg|].
  apply setitem_nonneg in Hr1; [|done]. subst r1. by apply setitem_nonneg in Hset.
Qed.

Lemma cell_nonneg (table : list (list (option Z))) (row col : Z) v :
  Pastry.cell table row col = Ok v → (0 ≤ row)%Z → (0 ≤ col)%Z →
  ∃ r0, table !! Z.to_nat row = Some r0 ∧ r0 !! Z.to_nat col = Some v.
Proof.
  unfold Pastry.cell. intros Hcell Hrow Hcol.
  destruct (getitem table row) as [r0| |] eqn:Hr0; simpl in Hcell; [|done..].
  exists r0. split; by apply getitem_nonneg.
Qed.

Section PastryDigits.
Context {V : Type}.
Implicit Types (self n : Pastry.PastryNode V).

(** What the loop of [_shared_prefix_length] returns: the first position at
    which the digits differ, all digits before it being equal. *)
Lemma spl_loop_spec self x y idxs r :
  Pastry.spl_loop self x y idxs = Ok r →
  (r = Pastry.num_digits self
   ∧ ∀ i, i ∈ idxs →
       Pastry._get_digit self x (Z.of_nat i) = Pastry._get_digit self y (Z.of_nat i))
  ∨ (∃ pre i post, idxs = pre ++ i :: post ∧ r = Z.of_nat i
       ∧ (∀ j, j ∈ pre →
            Pastry._get_digit self x (Z.of_nat j)
            = Pastry._get_digit self y (Z.of_nat j))
       ∧ Pastry._get_digit self x (Z.of_nat i)
         ≠ Pastry._get_digit self y (Z.of_nat i)).
Proof.
  revert r. induction idxs as [|i idxs IH]; intros r; simpl.
  { intros [= <-]. left. split; [done|]. by intros i ?%elem_of_nil. }
  destruct (Pastry._get_digit self x (Z.of_nat i)) as [dx| |] eqn:Hdx; simpl; [|done..].
  destruct (Pastry._get_digit self y (Z.of_nat i)) as [dy| |] eqn:Hdy; simpl; [|done..].
  destruct (Z.eqb_spec dx dy) as [->|Hne]; simpl.
  - intros Hr. destruct (IH r Hr) as [[-> Hall]|(pre & i0 & post & -> & -> & Hpre & Hi0)].
    + left. split; [done|]. intros j [->|Hj]%elem_of_cons; [congruence|by apply Hall].
    + right. exists (i :: pre), i0, post. split_and!; [done|done| |done].
      intros j [->|Hj]%elem_of_cons; [congruence|by apply Hpre].
  - intros [= <-]. right. exists [], i, idxs. split_and!; [done|done| |congruence].
    by intros j ?%elem_of_nil.
Qed.

Lemma shared_prefix_length_spec self x y r :
  Pastry._shared_prefix_length self x y = Ok r →
  (∀ i : nat, (Z.of_nat i < r)%Z → (Z.of_nat i < Pastry.num_digits self)%Z →
     Pastry._get_digit self x (Z.of_nat i) = Pastry._get_digit self y (Z.of_nat i))
  ∧ (r = Pastry.num_digits self
     ∨ ∃ i : nat, r = Z.of_nat i ∧ (r < Pastry.num_digits self)%Z
         ∧ Pastry._get_digit self x r ≠ Pastry._get_digit self y r).
Proof.
  unfold Pastry._shared_prefix_length. intros Hr.
  apply spl_loop_spec in Hr as [[-> Hall]|(pre & i & post & Hidx & -> & Hpre & Hi)].
  - split; [|by left]. intros i _ Hi. apply Hall, elem_of_seq. lia.
  - assert (pre = seq 0 i ∧ (i < Z.to_nat (Pastry.num_digits self))%nat) as [-> Hlt].
    { assert (i ∈ seq 0 (Z.to_nat (Pastry.num_digits self))) as Hin
        by (rewrite Hidx; set_solver).
      apply elem_of_seq in Hin.
      assert (seq 0 (Z.to_nat (Pastry.num_digits self)) !! length pre = Some i) as Hat.
      { rewrite Hidx. by rewrite list_lookup_middle. }
      apply lookup_seq in Hat as [Hi' _]. simpl in Hi'. split; [|lia].
      assert (pre = take i (seq 0 (Z.to_nat (Pastry.num_digits self)))) as ->.
      { rewrite Hidx, Hi'. by rewrite take_app_length. }
      rewrite take_seq. f_equal. lia. }
    split.
    + intros j Hj _. apply Hpre, elem_of_seq. lia.
    + right. exists i. split_and!; [done|lia|done].
Qed.

End PastryDigits.

Section PastryTidy.
Context {V : Type}.
Implicit Types (n m : Pastry.PastryNode V) (w : World (Pastry.PastryNode V)).

Lemma spl_loop_static n n' x y idxs :
  Pastry.b n' = Pastry.b n → Pastry.base n' = Pastry.base n →
  Pastry.num_digits n' = Pastry.num_digits n →
  Pastry.spl_loop n' x y idxs = Pastry.spl_loop n x y idxs.
Proof.
  intros Hb Hbase Hnd. induction idxs as [|i idxs IH]; simpl; [by rewrite Hnd|].
  unfold Pastry._get_digit. by rewrite Hb, Hbase, Hnd, IH.
Qed.

(** The place of an id [e] in the routing table of [n]. *)
Lemma placement_static n n' (i j : nat) e :
  Pastry.node_id n' = Pastry.node_id n → Pastry.b n' = Pastry.b n →
  Pastry.base n' = Pastry.base n → Pastry.num_digits n' = Pastry.num_digits n →
  e ≠ Pastry.node_id n
  ∧ Pastry._shared_prefix_length n (Pastry.node_id n) e = Ok (Z.of_nat i)
  ∧ Pastry._get_digit n e (Z.of_nat i) = Ok (Z.of_nat j) →
  e ≠ Pastry.node_id n'
  ∧ Pastry._shared_prefix_length n' (Pastry.node_id n') e = Ok (Z.of_nat i)
  ∧ Pastry._get_digit n' e (Z.of_nat i) = Ok (Z.of_nat j).
Proof.
  intros Hid Hb Hbase Hnd (Hne & Hspl & Hdigit).
  unfold Pastry._shared_prefix_length, Pastry._get_digit in *.
  rewrite Hid, Hb, Hbase, Hnd. split_and!; [done| |done].
  by rewrite (spl_loop_static n n').
Qed.

Lemma pastry_tidy_built n : pastry_node_tidy n → pastry_node_built n.
Proof. by intros [? _]. Qed.

Lemma pastry_tidy_set_data n d : pastry_node_tidy n → pastry_node_tidy (Pastry.set_data d n).
Proof.
  intros (Hbuilt & Hself & Hnd & Hsorted & Hplace).
  split_and!; [done|done|done|done|].
  intros i j row e Hrow He. apply (placement_static n); [done..|].
  by eapply Hplace.
Qed.

Lemma pastry_tidy_set_leaf_set n ls :
  pastry_node_tidy n →
  ((0 ≤ Pastry.leaf_size n)%Z → (Z.of_nat (length ls) ≤ Pastry.leaf_size n)%Z) →
  Pastry.node_id n ∉ ls → NoDup ls →
  StronglySorted
    (λ x y, (Pastry._circular_distance n (Pastry.node_id n) x
             ≤ Pastry._circular_distance n (Pastry.node_id n) y)%Z) ls →
  pastry_node_tidy (Pastry.set_leaf_set ls n).
Proof.
  intros (Hbuilt & _ & _ & _ & Hplace) Hlen Hself Hnd Hsorted.
  split_and!; [by apply built_set_leaf_set|done|done|done|].
  intros i j row e Hrow He. apply (placement_static n); [done..|].
  by eapply Hplace.
Qed.

Lemma pastry_tidy_set_leaf_sublist n ls :
  pastry_node_tidy n → ls `sublist_of` Pastry.leaf_set n →
  pastry_node_tidy (Pastry.set_leaf_set ls n).
Proof.
  intros Htidy Hsub. pose proof Htidy as (Hbuilt & Hself & Hnd & Hsorted & _).
  apply pastry_tidy_set_leaf_set; [done| | | |].
  - intros Hls. destruct Hbuilt as (_ & _ & _ & Hleaf). specialize (Hleaf Hls).
    pose proof (sublist_length _ _ Hsub). lia.
  - intros Hin. apply Hself. by eapply elem_of_sublist.
  - by eapply sublist_NoDup.
  - by eapply sublist_StronglySorted.
Qed.

(** The leaf set after [_add_to_state] has taken in a new id. *)
Lemma pastry_tidy_add_leaf n nid :
  pastry_node_tidy n → nid ≠ Pastry.node_id n → nid ∉ Pastry.leaf_set n →
  let sorted := sort_by (λ x, Pastry._circular_distance n (Pastry.node_id n) x)
                  (Pastry.leaf_set n ++ [nid]) in
  pastry_node_tidy
    (Pastry.set_leaf_set
       (if (Z.of_nat (length sorted) >? Pastry.leaf_size n)%Z
        then slice_to (Pastry.leaf_size n) sorted else sorted) n).
Proof.
  intros Htidy Hne Hnotin sorted.
  pose proof Htidy as (Hbuilt & Hself & Hnd & _ & _).
  assert (Pastry.node_id n ∉ sorted) as Hself'.
  { subst sorted. rewrite sort_by_elem. set_solver. }
  assert (NoDup sorted) as Hnd'.
  { subst sorted. rewrite sort_by_perm. apply NoDup_app.
    split_and!; [done| |apply NoDup_singleton].
    by intros x Hx ->%list_elem_of_singleton. }
  pose proof (sort_by_sorted (λ x, Pastry._circular_distance n (Pastry.node_id n) x)
                (Pastry.leaf_set n ++ [nid])) as Hsorted'.
  fold sorted in Hsorted'.
  rewrite Z.gtb_ltb.
  destruct (Z.ltb_spec (Pastry.leaf_size n) (Z.of_nat (length sorted))).
  - apply pastry_tidy_set_leaf_set; [done| | | |].
    + intros Hls. by apply slice_to_length_bound.
    + by intros ?%slice_to_elem.
    + eapply sublist_NoDup; [done|apply slice_to_sublist].
    + eapply sublist_StronglySorted; [apply slice_to_sublist|done].
  - apply pastry_tidy_set_leaf_set; [done|lia|done..].
Qed.

Lemma pastry_tidy_set_table n rt :
  pastry_node_tidy n →
  length rt = length (Pastry.routing_table n) →
  Forall (λ row, length row = Z.to_nat (Pastry.base n)) rt →
  (∀ (i j : nat) row e, rt !! i = Some row → row !! j = Some (Some e) →
     e ≠ Pastry.node_id n
     ∧ Pastry._shared_prefix_length n (Pastry.node_id n) e = Ok (Z.of_nat i)
     ∧ Pastry._get_digit n e (Z.of_nat i) = Ok (Z.of_nat j)) →
  pastry_node_tidy (Pastry.set_routing_table rt n).
Proof.
  intros (Hbuilt & Hself & Hnd & Hsorted & _) Hlen Hshape Hplace.
  split_and!; [by apply built_set_routing_table|done|done|done|].
  intros i j row e Hrow He. apply (placement_static n); [done..|].
  by eapply Hplace.
Qed.

Lemma pastry_init_tidy nid bits bb ls n :
  Pastry.init nid bits bb ls = Ok n → pastry_node_tidy n.
Proof.
  intros Hinit. pose proof (pastry_init_built _ _ _ _ _ Hinit) as Hbuilt.
  unfold Pastry.init in Hinit.
  destruct (bb <? 0)%Z; [done|]. destruct (bb =? 0)%Z; [done|].
  injection Hinit as <-.
  split_and!; [done|by intros ?%elem_of_nil|constructor|constructor|].
  simpl. intros i j row e [-> _]%lookup_replicate [? _]%lookup_replicate. done.
Qed.

Lemma pastry_new_node_tidy nid bits bb ls :
  preserves (all_nodes (@pastry_node_tidy V)) (Pastry.new_node nid bits bb ls).
Proof.
  intros w Hw. unfold Pastry.new_node. wp_read.
  apply wp_modify. apply all_nodes_inserted; [done|]. by eapply pastry_init_tidy.
Qed.

Lemma pastry_assign_cell_tidy r row col v w m :
  all_nodes pastry_node_tidy w → objects w !! r = Some m →
  (0 ≤ row)%Z → (0 ≤ col)%Z →
  (∀ e, v = Some e →
     e ≠ Pastry.node_id m
     ∧ Pastry._shared_prefix_length m (Pastry.node_id m) e = Ok row
     ∧ Pastry._get_digit m e row = Ok col) →
  wp (Pastry.assign_cell r row col v) (λ _, all_nodes pastry_node_tidy)
     (all_nodes pastry_node_tidy) w.
Proof.
  intros Hw Hm Hrow Hcol Hv. unfold Pastry.assign_cell.
  apply wp_bind, wp_deref; [|done]. intros n Hn. assert (n = m) as -> by congruence.
  apply wp_bind, wp_pure_call.
  destruct (Pastry.set_cell (Pastry.routing_table m) row col v) as [rt| |] eqn:Hset;
    [|done..].
  apply wp_update. apply all_nodes_updated; [done|].
  intros n' Hn' Htidy. assert (n' = m) as -> by congruence.
  pose proof (set_cell_shape _ _ _ _ _ _ Hset (built_shape m (pastry_tidy_built m Htidy)))
    as [Hlen Hshape].
  apply pastry_tidy_set_table; [done..|].
  destruct (set_cell_nonneg _ _ _ _ _ Hset Hrow Hcol) as (r0 & Hr0 & ->).
  destruct Htidy as (_ & _ & _ & _ & Hplace).
  intros i j rw e Hi Hj.
  destruct (decide (i = Z.to_nat row)) as [->|Hne].
  - rewrite list_lookup_insert_eq in Hi by (by eapply lookup_lt_Some).
    injection Hi as <-.
    destruct (decide (j = Z.to_nat col)) as [->|Hnej].
    + pose proof (lookup_lt_Some _ _ _ Hj) as Hlt. rewrite length_insert in Hlt.
      rewrite list_lookup_insert_eq in Hj by done.
      injection Hj as Hve. rewrite !Z2Nat.id by done. by apply Hv.
    + rewrite list_lookup_insert_ne in Hj by done. by eapply Hplace.
  - rewrite list_lookup_insert_ne in Hi by done. by eapply Hplace.
Qed.

Lemma spl_result_nat n x y r :
  Pastry._shared_prefix_length n x y = Ok r → (r < Pastry.num_digits n)%Z →
  (0 ≤ r)%Z.
Proof.
  intros Hr Hlt. apply shared_prefix_length_spec in Hr as [_ [->|(i & -> & _)]]; lia.
Qed.

Lemma pastry_add_to_state_tidy self nid :
  preserves (all_nodes (@pastry_node_tidy V)) (Pastry._add_to_state self nid).
Proof.
  intros w Hw. unfold Pastry._add_to_state.
  apply wp_bind, wp_deref; [|done]. intros me Hme.
  destruct (Z.eqb_spec nid (Pastry.node_id me)) as [|Hne]; [by apply wp_ret|].
  apply wp_bind, wp_gets. destruct (is_live w nid); simpl; [|by apply wp_ret].
  pose proof (Hw _ _ Hme) as Htidy.
  set (J := λ s : World (Pastry.PastryNode V),
         all_nodes pastry_node_tidy s
         ∧ ∃ ls, objects s !! self = Some (Pastry.set_leaf_set ls me)).
  apply wp_bind. apply (wp_mono _ (λ _, J) _ J); [| |by intros s [? _]].
  { destruct (negb (mem nid (Pastry.leaf_set me))) eqn:Hmem.
    2:{ apply wp_ret. split; [done|]. exists (Pastry.leaf_set me). by destruct me. }
    apply negb_true_iff, bool_decide_eq_false in Hmem.
    pose proof (pastry_tidy_add_leaf me nid Htidy Hne Hmem) as Hadd. cbv zeta in Hadd.
    cbv zeta. apply wp_bind, wp_update.
    destruct (Z.of_nat (length _) >? Pastry.leaf_size me)%Z eqn:Hlong.
    - apply wp_update. rewrite updated_updated. split.
      + apply all_nodes_updated; [done|]. intros n' Hn' _.
        assert (n' = me) as -> by congruence. exact Hadd.
      + eexists. unfold updated. simpl. rewrite lookup_alter_eq, Hme. done.
    - apply wp_ret. split.
      + apply all_nodes_updated; [done|]. intros n' Hn' _.
        assert (n' = me) as -> by congruence. exact Hadd.
      + eexists. unfold updated. simpl. rewrite lookup_alter_eq, Hme. done. }
  intros [] s [Hs [ls Hself]]. cbv beta.
  apply wp_bind, wp_pure_call.
  destruct (Pastry._shared_prefix_length me (Pastry.node_id me) nid) as [plen| |]
    eqn:Hplen; [|done..].
  destruct (Z.ltb_spec plen (Pastry.num_digits me)) as [Hlt|]; [|by apply wp_ret].
  pose proof (spl_result_nat _ _ _ _ Hplen Hlt) as Hplen0.
  apply wp_bind, wp_pure_call.
  destruct (Pastry._get_digit me nid plen) as [digit| |] eqn:Hdigit; [|done..].
  assert (0 ≤ digit)%Z as Hdigit0.
  { destruct (get_digit_ok me nid plen) as (d & Hd & Hrange);
      [apply Htidy|lia|]. rewrite Hdigit in Hd. injection Hd as <-. lia. }
  apply wp_bind, wp_deref; [|done]. intros me' Hme'.
  apply wp_bind, wp_pure_call.
  destruct (Pastry.cell _ _ _) as [cur| |]; [|done..].
  apply wp_bind, wp_gets.
  match goal with |- wp (if ?c then _ else _) _ _ _ => destruct c end;
    [|by apply wp_ret].
  apply (pastry_assign_cell_tidy self plen digit (Some nid) s
           (Pastry.set_leaf_set ls me) Hs Hself Hplen0 Hdigit0).
  intros e [= <-]. split_and!; [done| |done].
  unfold Pastry._shared_prefix_length in *. simpl.
  by rewrite (spl_loop_static me (Pastry.set_leaf_set ls me)).
Qed.

Lemma pastry_learn_ids_tidy self ids :
  preserves (all_nodes (@pastry_node_tidy V)) (Pastry.learn_ids self ids).
Proof.
  intros w Hw. unfold Pastry.learn_ids.
  apply (wp_for_each (all_nodes pastry_node_tidy)); [done| |done].
  intros x s _ Hs. by apply pastry_add_to_state_tidy.
Qed.

Lemma pastry_learn_routing_table_tidy self src :
  preserves (all_nodes (@pastry_node_tidy V)) (Pastry.learn_routing_table self src).
Proof.
  intros w Hw. unfold Pastry.learn_routing_table. wp_read.
  apply (wp_for_each (all_nodes pastry_node_tidy)); [done| |done].
  intros i s _ Hs. wp_read.
  apply (wp_for_each (all_nodes pastry_node_tidy)); [done| |done].
  intros j s' _ Hs'. wp_read. by apply pastry_add_to_state_tidy.
Qed.

Lemma pastry_join_tidy self bootstrap_id :
  preserves (all_nodes (@pastry_node_tidy V)) (Pastry.join self bootstrap_id).
Proof.
  intros w Hw. unfold Pastry.join. wp_read. wp_write idtac.
  destruct bootstrap_id as [bid|]; [|by wp_read]. wp_read.
  wp_apply pastry_add_to_state_tidy; [done|]. intros [] s1 Hs1.
  wp_apply pastry_learn_ids_tidy; [done|]. intros [] s2 Hs2.
  wp_apply pastry_learn_routing_table_tidy; [done|]. intros [] s3 Hs3.
  wp_apply (pastry_call_lookup_preserves (all_nodes (@pastry_node_tidy V))); [done|].
  intros result s4 Hs4. cbv beta zeta. wp_seq.
  apply (wp_for_fold (λ _, all_nodes pastry_node_tidy)); [done| |].
  { intros messages nid s5 _ Hs5. wp_read.
    wp_apply pastry_learn_ids_tidy; [done|]. intros [] s6 Hs6.
    wp_apply pastry_learn_routing_table_tidy; [done|]. intros [] s7 Hs7.
    by wp_read. }
  intros messages s5 Hs5. wp_read.
  apply (wp_for_fold (λ _, all_nodes pastry_node_tidy)); [done| |done].
  intros messages' leaf_id s6 _ Hs6. wp_read.
  wp_apply pastry_add_to_state_tidy; [done|]. intros [] s7 Hs7. by wp_read.
Qed.

Lemma pastry_tidy_forget n nid :
  pastry_node_tidy n →
  pastry_node_tidy
    (Pastry.set_routing_table
       (map (Pastry.forget_in_row nid) (Pastry.routing_table n)) n).
Proof.
  intros Htidy. pose proof Htidy as (Hbuilt & _ & _ & _ & Hplace).
  apply pastry_tidy_set_table; [done|by rewrite length_map| |].
  - apply Forall_fmap. eapply Forall_impl; [by apply built_shape|].
    intros row Hrow. simpl. unfold Pastry.forget_in_row. by rewrite length_map.
  - intros i j row e Hi Hj. rewrite list_lookup_fmap in Hi.
    destruct (Pastry.routing_table n !! i) as [row0|] eqn:Hrow0; [|done].
    injection Hi as <-. unfold Pastry.forget_in_row in Hj.
    rewrite list_lookup_fmap in Hj.
    destruct (row0 !! j) as [[x|]|] eqn:Hx; simpl in Hj; [|done..].
    destruct (x =? nid)%Z; [done|]. injection Hj as <-. by eapply Hplace.
Qed.

Lemma pastry_leave_notify_tidy fuel self i messages :
  preserves (all_nodes (@pastry_node_tidy V)) (Pastry.leave_notify fuel self i messages).
Proof.
  revert i messages. induction fuel as [|fuel IH]; intros i messages w Hw; simpl.
  { by wp_read. }
  wp_read; [|by apply IH].
  wp_block (all_nodes (@pastry_node_tidy V)).
  { wp_read. wp_write ltac:(same_object).
    apply pastry_tidy_set_leaf_sublist; [done|apply remove_first_sublist]. }
  intros [] s Hs. wp_write ltac:(same_object; by apply pastry_tidy_forget).
  by apply IH.
Qed.

Lemma pastry_leave_tidy self :
  preserves (all_nodes (@pastry_node_tidy V)) (Pastry.leave self).
Proof.
  intros w Hw. unfold Pastry.leave. wp_read.
  wp_apply pastry_leave_notify_tidy; [done|]. intros messages s Hs. wp_read.
  wp_block (all_nodes (@pastry_node_tidy V)).
  { wp_read. wp_write ltac:(by apply pastry_tidy_set_data). }
  intros [] s1 Hs1. wp_write idtac.
Qed.

Lemma pastry_stabilize_tidy self :
  preserves (all_nodes (@pastry_node_tidy V)) (Pastry.stabilize self).
Proof.
  intros w Hw. unfold Pastry.stabilize. wp_read.
  wp_write ltac:(same_object).
  { apply pastry_tidy_set_leaf_sublist; [done|apply sublist_filter]. }
  wp_seq. apply (wp_for_each (all_nodes pastry_node_tidy)); [done| |].
  { intros i s _ Hs.
    apply (wp_for_each (all_nodes pastry_node_tidy)); [done| |done].
    intros j s1 _ Hs1. wp_read.
    eapply pastry_assign_cell_tidy; [done|done|lia|lia|done]. }
  intros s Hs. wp_read.
  apply (wp_for_each (all_nodes pastry_node_tidy)); [done| |done].
  intros leaf_id s1 _ Hs1. wp_read.
  wp_apply pastry_learn_ids_tidy; [done|]. intros [] s2 Hs2.
  by apply pastry_learn_routing_table_tidy.
Qed.

Lemma pastry_store_tidy self kk (value : V) :
  preserves (all_nodes (@pastry_node_tidy V)) (Pastry.store self kk value).
Proof.
  intros w Hw. unfold Pastry.store.
  wp_apply (pastry_call_lookup_preserves (all_nodes (@pastry_node_tidy V))); [done|].
  intros result s Hs. wp_read. wp_write ltac:(by apply pastry_tidy_set_data).
Qed.

Lemma pastry_retrieve_tidy self kk :
  preserves (all_nodes (@pastry_node_tidy V)) (Pastry.retrieve self kk).
Proof.
  intros w Hw. unfold Pastry.retrieve.
  wp_apply (pastry_call_lookup_preserves (all_nodes (@pastry_node_tidy V))); [done|].
  intros result s Hs. wp_read.
Qed.

Lemma pastry_exec_tidy (o : Pastry.op V) :
  preserves (all_nodes (@pastry_node_tidy V)) (Pastry.exec o).
Proof.
  destruct o; simpl.
  - intros w Hw. wp_read. by apply pastry_new_node_tidy.
  - apply preserves_discard, pastry_join_tidy.
  - apply preserves_discard, pastry_leave_tidy.
  - apply preserves_discard, pastry_call_lookup_preserves.
  - apply pastry_stabilize_tidy.
  - apply preserves_discard, pastry_store_tidy.
  - apply preserves_discard, pastry_retrieve_tidy.
Qed.

Lemma pastry_reachable_tidy w :
  reachable Pastry.exec w → all_nodes (@pastry_node_tidy V) w.
Proof.
  apply (reachable_invariant Pastry.exec (all_nodes pastry_node_tidy)).
  - by intros ? ?.
  - apply pastry_exec_tidy.
Qed.

End PastryTidy.



(** X23.  The routing table of a Pastry node, in every state a driver can
    reach: the cell at row [i] and column [j] is empty or holds an id other
    than the node's own that shares exactly [i] leading digits with the
    node's id and whose digit at position [i] is [j]. *)
Theorem pastry_routing_table_placement {V} (w : World (Pastry.PastryNode V)) (r : Z)
    (n : Pastry.PastryNode V) (i j : nat) (row : list (option Z)) (e : Z) :
  reachable Pastry.exec w → objects w !! r = Some n →
  Pastry.routing_table n !! i = Some row → row !! j = Some (Some e) →
  e ≠ Pastry.node_id n
  ∧ Pastry._shared_prefix_length n (Pastry.node_id n) e = Ok (Z.of_nat i)
  ∧ Pastry._get_digit n e (Z.of_nat i) = Ok (Z.of_nat j).
Proof.
  intros Hw Hn Hrow He.
  destruct (pastry_reachable_tidy w Hw r n Hn) as (_ & _ & _ & _ & Hplace).
  by eapply Hplace.
Qed.

Lemma pastry_routing_table_placement_witness :
  reachable Pastry.exec pastry_trio
  ∧ objects pastry_trio !! 512%Z = Some pastry_trio_node
  ∧ Pastry.routing_table pastry_trio_node !! 1%nat
    = Some (<[1%nat := Some 256%Z]> (replicate 16 None))
  ∧ <[1%nat := Some 256%Z]> (replicate 16 None) !! 1%nat = Some (Some 256%Z)
  ∧ 256%Z ≠ Pastry.node_id pastry_trio_node
  ∧ Pastry._shared_prefix_length pastry_trio_node (Pastry.node_id pastry_trio_node) 256
    = Ok (Z.of_nat 1)
  ∧ Pastry._get_digit pastry_trio_node 256 (Z.of_nat 1) = Ok (Z.of_nat 1).
Proof.
  assert (reachable Pastry.exec pastry_trio) as Hp
    by (apply reachable_run; constructor).
  assert (objects pastry_trio !! 512%Z = Some pastry_trio_node) as Hpn
    by (vm_compute; reflexivity).
  assert (Pastry.routing_table pastry_trio_node !! 1%nat
          = Some (<[1%nat := Some 256%Z]> (replicate 16 None))) as Hrow by reflexivity.
  assert (<[1%nat := Some 256%Z]> (replicate 16 None) !! 1%nat = Some (Some 256%Z))
    as He by reflexivity.
  exact (conj Hp (conj Hpn (conj Hrow (conj He
           (pastry_routing_table_placement pastry_trio 512 pastry_trio_node 1 1 _ 256
              Hp Hpn Hrow He))))).
Defined.

(** X24.  Prefix routing makes progress, in every state a driver can
    reach: when the cell that step 1 of [_route_next] consults holds a
    registered id, that id is the next hop, and it shares with the key
    strictly more leading digits than the node itself does. *)
Theorem pastry_prefix_hop_progress {V} (w : World (Pastry.PastryNode V)) (r : Z)
    (self : Pastry.PastryNode V) (kk plen digit e : Z) :
  reachable Pastry.exec w → objects w !! r = Some self →
  Pastry._circular_distance self (Pastry.node_id self) kk ≠ 0%Z →
  Pastry._shared_prefix_length self (Pastry.node_id self) kk = Ok plen →
  (plen < Pastry.num_digits self)%Z →
  Pastry._get_digit self kk plen = Ok digit →
  Pastry.cell (Pastry.routing_table self) plen digit = Ok (Some e) →
  is_live w e = true →
  Pastry._route_next w self kk = Ok (Some e)
  ∧ ∃ plen', Pastry._shared_prefix_length self e kk = Ok plen' ∧ (plen < plen')%Z.
Proof.
  intros Hw Hself Hdist Hplen Hlt Hdigit Hcell Hlive.
  pose proof (pastry_reachable_tidy w Hw r self Hself) as Htidy.
  pose proof Htidy as ((Hok & _) & _ & _ & _ & Hplace).
  split.
  { unfold Pastry._route_next.
    destruct (Z.eqb_spec (Pastry._circular_distance self (Pastry.node_id self) kk) 0);
      [done|].
    rewrite Hplen. simpl. destruct (Z.ltb_spec plen (Pastry.num_digits self)); [|lia].
    rewrite Hdigit. simpl. rewrite Hcell. simpl. by rewrite Hlive. }
  pose proof (spl_result_nat _ _ _ _ Hplen Hlt) as Hplen0.
  assert (0 ≤ digit)%Z as Hdigit0.
  { destruct (get_digit_ok self kk plen Hok) as (d & Hd & Hrange); [lia|].
    rewrite Hdigit in Hd. injection Hd as <-. lia. }
  destruct (cell_nonneg _ _ _ _ Hcell Hplen0 Hdigit0) as (row & Hrow & He).
  destruct (Hplace _ _ _ _ Hrow He) as (_ & Hspl_e & Hdigit_e).
  rewrite !Z2Nat.id in * by done.
  destruct (shared_prefix_length_ok self e kk Hok) as (plen' & Hplen' & Hrange).
  exists plen'. split; [done|].
  destruct (shared_prefix_length_spec self _ _ _ Hplen) as [Hkk _].
  destruct (shared_prefix_length_spec self _ _ _ Hspl_e) as [He_pre _].
  destruct (shared_prefix_length_spec self _ _ _ Hplen')
    as [_ [->|(i & -> & Hi & Hdiff)]]; [done|].
  destruct (Z.lt_trichotomy (Z.of_nat i) plen) as [Hbelow|[Hat|Habove]]; [| |done].
  - exfalso. apply Hdiff. rewrite <- (He_pre i), <- (Hkk i); [done|lia..].
  - exfalso. apply Hdiff. rewrite Hat. congruence.
Qed.

Lemma pastry_prefix_hop_progress_witness :
  reachable Pastry.exec pastry_trio
  ∧ objects pastry_trio !! 512%Z = Some pastry_trio_node
  ∧ Pastry._shared_prefix_length pastry_trio_node (Pastry.node_id pastry_trio_node) 300
    = Ok 1%Z
  ∧ Pastry._get_digit pastry_trio_node 300 1 = Ok 1%Z
  ∧ Pastry.cell (Pastry.routing_table pastry_trio_node) 1 1 = Ok (Some 256%Z)
  ∧ is_live pastry_trio 256 = true
  ∧ Pastry._route_next pastry_trio pastry_trio_node 300 = Ok (Some 256%Z)
  ∧ ∃ plen', Pastry._shared_prefix_length pastry_trio_node 256 300 = Ok plen'
             ∧ (1 < plen')%Z.
Proof.
  assert (reachable Pastry.exec pastry_trio) as Hp
    by (apply reachable_run; constructor).
  assert (objects pastry_trio !! 512%Z = Some pastry_trio_node) as Hpn
    by (vm_compute; reflexivity).
  assert (Pastry._circular_distance pastry_trio_node
            (Pastry.node_id pastry_trio_node) 300 ≠ 0%Z) as Hdist
    by (vm_compute; congruence).
  assert (Pastry._shared_prefix_length pastry_trio_node
            (Pastry.node_id pastry_trio_node) 300 = Ok 1%Z) as Hplen
    by (vm_compute; reflexivity).
  assert (1 < Pastry.num_digits pastry_trio_node)%Z as Hlt by (simpl; lia).
  assert (Pastry._get_digit pastry_trio_node 300 1 = Ok 1%Z) as Hdigit
    by (vm_compute; reflexivity).
  assert (Pastry.cell (Pastry.routing_table pastry_trio_node) 1 1 = Ok (Some 256%Z))
    as Hcell by (vm_compute; reflexivity).
  assert (is_live pastry_trio 256 = true) as Hlive by (vm_compute; reflexivity).
  exact (conj Hp (conj Hpn (conj Hplen (conj Hdigit (conj Hcell (conj Hlive
           (pastry_prefix_hop_progress pastry_trio 512 pastry_trio_node 300 1 1 256
              Hp Hpn Hdist Hplen Hlt Hdigit Hcell Hlive))))))).
Defined.

(** ** Pastry: stabilization purges the ids that are not registered *)

Lemma wp_for_each_prefix {S A} (I : list A → S → Prop) (l : list A)
    (body : A → M S unit) (Q : unit → S → Prop) (E : S → Prop) (s : S) :
  I [] s →
  (∀ seen x s', seen ++ [x] `prefix_of` l → I seen s' →
     wp (body x) (λ _, I (seen ++ [x])) E s') →
  (∀ s', I l s' → Q tt s') →
  wp (for_each l body) Q E s.
Proof.
  intros Hinit Hbody HQ.
  enough (∀ seen rest s, seen ++ rest = l → I seen s →
            wp (for_each rest body) Q E s) as Hgen by (by apply (Hgen [] l)).
  intros seen rest. revert seen.
  induction rest as [|x rest IH]; intros seen s' Hl Hs; simpl.
  - rewrite app_nil_r in Hl. subst seen. by apply wp_ret, HQ.
  - apply wp_bind. eapply wp_mono; [apply (Hbody seen x); [|done]| |done].
    + exists rest. by rewrite <- app_assoc.
    + intros [] s'' Hs''. apply (IH (seen ++ [x])); [|done].
      by rewrite <- app_assoc.
Qed.

Lemma is_live_updated_any {Node} (w : World Node) r (f : Node → Node) x :
  is_live (updated r f w) x = is_live w x.
Proof.
  unfold is_live, get_node, updated. simpl. case_decide; [|done].
  destruct (decide (x = r)) as [->|Hne].
  - rewrite lookup_alter_eq. by destruct (objects w !! r).
  - by rewrite lookup_alter_ne.
Qed.

Section PastryPurge.
Context {V : Type}.
Implicit Types (n m me : Pastry.PastryNode V) (w s : World (Pastry.PastryNode V)).

Lemma purged_weaken w0 self me (C C' : nat → nat → Prop) s :
  (∀ i j, C' i j → (i < Z.to_nat (Pastry.num_digits me))%nat →
     (j < Z.to_nat (Pastry.base me))%nat → C i j) →
  pastry_purged w0 self me C s → pastry_purged w0 self me C' s.
Proof.
  intros HC (Hlive & m & Hm & Hid & Hb & Hbase & Hnd & Hlen & Hshape & Hleaf & Hcells).
  split; [done|]. exists m. split_and!; try done.
  intros i j row e Hij Hrow He. eapply Hcells; [|done..].
  apply HC; [done| |].
  - rewrite <- Hlen. by eapply lookup_lt_Some.
  - rewrite Forall_forall in Hshape. rewrite <- (Hshape row).
    + by eapply lookup_lt_Some.
    + by eapply list_elem_of_lookup_2.
Qed.

(** An update of another object, or of a part of [self] that the purge
    does not look at. *)
Lemma purged_updated_other w0 self me C s r (f : Pastry.PastryNode V → Pastry.PastryNode V) :
  r ≠ self → pastry_purged w0 self me C s → pastry_purged w0 self me C (updated r f s).
Proof.
  intros Hr (Hlive & m & Hm & Hrest). split.
  - intros x. by rewrite is_live_updated_any.
  - exists m. split; [|done]. unfold updated. simpl. by rewrite lookup_alter_ne.
Qed.

Lemma purged_set_leaf_set w0 self me C s ls m0 :
  objects s !! self = Some m0 →
  (∀ x, x ∈ ls → is_live w0 x = true) →
  pastry_purged w0 self me C s →
  pastry_purged w0 self me C (updated self (Pastry.set_leaf_set ls) s).
Proof.
  intros Hm0 Hls (Hlive & m & Hm & Hid & Hb & Hbase & Hnd & Hlen & Hshape & _ & Hcells).
  assert (m0 = m) as -> by congruence. split.
  - intros x. by rewrite is_live_updated_any.
  - exists (Pastry.set_leaf_set ls m). split_and!; try done.
    unfold updated. simpl. by rewrite lookup_alter_eq, Hm.
Qed.

Lemma purged_assign_cell w0 self me (C C' : nat → nat → Prop) s (row col : nat) v :
  pastry_purged w0 self me C s →
  (∀ e, v = Some e → is_live w0 e = true) →
  (∀ i j, C' i j → C i j ∨ (i = row ∧ j = col)) →
  wp (Pastry.assign_cell self (Z.of_nat row) (Z.of_nat col) v)
     (λ _, pastry_purged w0 self me C') (λ _, True) s.
Proof.
  intros (Hlive & m & Hm & Hid & Hb & Hbase & Hnd & Hlen & Hshape & Hleaf & Hcells)
    Hv HC.
  unfold Pastry.assign_cell.
  apply wp_bind, wp_deref; [|done]. intros n Hn. assert (n = m) as -> by congruence.
  apply wp_bind, wp_pure_call.
  destruct (Pastry.set_cell (Pastry.routing_table m) (Z.of_nat row) (Z.of_nat col) v)
    as [rt| |] eqn:Hset; [|done..].
  apply wp_update. split.
  { intros x. by rewrite is_live_updated_any. }
  exists (Pastry.set_routing_table rt m).
  pose proof (set_cell_shape _ _ _ _ _ _ Hset Hshape) as [Hlen' Hshape'].
  split_and!; try done.
  { unfold updated. simpl. by rewrite lookup_alter_eq, Hm. }
  { simpl. congruence. }
  destruct (set_cell_nonneg _ _ _ _ _ Hset) as (r0 & Hr0 & ->); [lia..|].
  rewrite !Nat2Z.id in *. simpl.
  intros i j rw e Hij Hi Hj.
  destruct (decide (i = row)) as [->|Hne].
  - rewrite list_lookup_insert_eq in Hi by (by eapply lookup_lt_Some).
    injection Hi as <-.
    destruct (decide (j = col)) as [->|Hnej].
    + pose proof (lookup_lt_Some _ _ _ Hj) as Hlt. rewrite length_insert in Hlt.
      rewrite list_lookup_insert_eq in Hj by done. injection Hj as Hve. by apply Hv.
    + rewrite list_lookup_insert_ne in Hj by done.
      destruct (HC _ _ Hij) as [HCij|[_ ?]]; [|done]. by eapply Hcells.
  - rewrite list_lookup_insert_ne in Hi by done.
    destruct (HC _ _ Hij) as [HCij|[? _]]; [|done]. by eapply Hcells.
Qed.

Lemma purged_add_to_state w0 self me s nid :
  pastry_node_ok me →
  pastry_purged w0 self me (λ _ _, True) s →
  wp (Pastry._add_to_state self nid)
     (λ _, pastry_purged w0 self me (λ _ _, True)) (λ _, True) s.
Proof.
  intros Hok Hs. unfold Pastry._add_to_state.
  pose proof Hs as
    (Hlive & m & Hm & Hid & Hb & Hbase & Hnd & Hlen & Hshape & Hleaf & Hcells).
  apply wp_bind, wp_deref; [|done]. intros m0 Hm0. assert (m0 = m) as -> by congruence.
  destruct (Z.eqb_spec nid (Pastry.node_id m)) as [|Hne]; [by apply wp_ret|].
  apply wp_bind, wp_gets. destruct (is_live s nid) eqn:Hnid; simpl; [|by apply wp_ret].
  rewrite Hlive in Hnid.
  set (J := pastry_purged w0 self me (λ _ _, True)).
  apply wp_bind. apply (wp_mono _ (λ _, J) _ (λ _, True)); [| |done].
  { destruct (negb (mem nid (Pastry.leaf_set m))); [|by apply wp_ret].
    cbv zeta. apply wp_bind, wp_update.
    assert (∀ x, x ∈ sort_by (λ x, Pastry._circular_distance m (Pastry.node_id m) x)
                       (Pastry.leaf_set m ++ [nid]) → is_live w0 x = true) as Hsorted.
    { intros x [Hx| ->%list_elem_of_singleton]%sort_by_elem%elem_of_app; auto. }
    destruct (Z.of_nat (length _) >? Pastry.leaf_size m)%Z.
    - apply wp_update. rewrite updated_updated.
      eapply purged_set_leaf_set; [done| |done].
      intros x Hx%slice_to_elem. by apply Hsorted.
    - apply wp_ret. by eapply purged_set_leaf_set. }
  intros [] s1 Hs1. cbv beta.
  apply wp_bind, wp_pure_call.
  destruct (Pastry._shared_prefix_length m (Pastry.node_id m) nid) as [plen| |]
    eqn:Hplen; [|done..].
  destruct (Z.ltb_spec plen (Pastry.num_digits m)) as [Hlt|]; [|by apply wp_ret].
  pose proof (spl_result_nat _ _ _ _ Hplen Hlt) as Hplen0.
  apply wp_bind, wp_pure_call.
  destruct (Pastry._get_digit m nid plen) as [digit| |] eqn:Hdigit; [|done..].
  assert (0 ≤ digit)%Z as Hdigit0.
  { unfold Pastry._get_digit in Hdigit.
    destruct (_ <? 0)%Z; [done|]. injection Hdigit as <-.
    apply Z.land_nonneg. right. destruct Hok as (_ & Hbase1 & _). lia. }
  apply wp_bind, wp_deref; [|done]. intros m1 Hm1.
  apply wp_bind, wp_pure_call.
  destruct (Pastry.cell _ _ _) as [cur| |]; [|done..].
  apply wp_bind, wp_gets.
  match goal with |- wp (if ?c then _ else _) _ _ _ => destruct c end;
    [|by apply wp_ret].
  rewrite <- (Z2Nat.id plen), <- (Z2Nat.id digit) by done.
  eapply purged_assign_cell; [done| |by left].
  by intros e [= <-].
Qed.

Lemma purged_learn_ids w0 self me s ids :
  pastry_node_ok me →
  pastry_purged w0 self me (λ _ _, True) s →
  wp (Pastry.learn_ids self ids)
     (λ _, pastry_purged w0 self me (λ _ _, True)) (λ _, True) s.
Proof.
  intros Hok Hs. unfold Pastry.learn_ids.
  apply (wp_for_each (pastry_purged w0 self me (λ _ _, True))); [done| |done].
  intros x s' _ Hs'. by apply purged_add_to_state.
Qed.

Lemma purged_learn_routing_table w0 self me s src :
  pastry_node_ok me →
  pastry_purged w0 self me (λ _ _, True) s →
  wp (Pastry.learn_routing_table self src)
     (λ _, pastry_purged w0 self me (λ _ _, True)) (λ _, True) s.
Proof.
  intros Hok Hs. unfold Pastry.learn_routing_table.
  apply wp_bind, wp_deref; [|done]. intros src0 _.
  apply (wp_for_each (pastry_purged w0 self me (λ _ _, True))); [done| |done].
  intros i s1 _ Hs1. apply wp_bind, wp_deref; [|done]. intros src1 _.
  apply (wp_for_each (pastry_purged w0 self me (λ _ _, True))); [done| |done].
  intros j s2 _ Hs2. apply wp_bind, wp_deref; [|done]. intros src2 _.
  destruct (_ ≫= _) as [[entry|]|]; [|by apply wp_ret..].
  by apply purged_add_to_state.
Qed.

Lemma pastry_stabilize_purged w self me :
  objects w !! self = Some me → pastry_node_built me →
  wp (Pastry.stabilize self)
     (λ _, pastry_purged w self me (λ _ _, True)) (λ _, True) w.
Proof.
  intros Hme Hbuilt. pose proof Hbuilt as (Hok & _).
  pose proof Hok as (Hb0 & Hbase1 & Hlen & Hshape).
  unfold Pastry.stabilize.
  apply wp_bind, wp_deref; [|done]. intros n Hn. assert (n = me) as -> by congruence.
  apply wp_bind, wp_gets. apply wp_bind, wp_update.
  set (s0 := updated self
               (Pastry.set_leaf_set (filter (λ nid, is_live w nid) (Pastry.leaf_set me)))
               w).
  assert (pastry_purged w self me (λ _ _, False) s0) as Hs0.
  { split; [intros x; apply is_live_updated_any|].
    eexists. split_and!;
      [unfold s0, updated; simpl; by rewrite lookup_alter_eq, Hme|done..| |done].
    simpl. intros x [Hx _]%list_elem_of_filter. by destruct (is_live w x). }
  clearbody s0.
  apply wp_bind.
  apply (wp_for_each_prefix
           (λ seen, pastry_purged w self me (λ i _, i ∈ seen))).
  { eapply purged_weaken; [|done]. by intros i j ?%elem_of_nil. }
  { intros seen i s1 _ Hs1.
    apply (wp_for_each_prefix
             (λ seenj, pastry_purged w self me
                         (λ i' j', i' ∈ seen ∨ (i' = i ∧ j' ∈ seenj)))).
    - eapply purged_weaken; [|done]. intros i' j' [?|[_ ?%elem_of_nil]]; done.
    - intros seenj j s2 _ Hs2.
      pose proof Hs2 as (Hlive2 & m & Hm & Hstatic).
      apply wp_bind, wp_deref; [|done]. intros m' Hm'.
      assert (m' = m) as -> by congruence.
      apply wp_bind, wp_pure_call.
      destruct (Pastry.cell (Pastry.routing_table m) (Z.of_nat i) (Z.of_nat j))
        as [entry| |] eqn:Hcell; [|done..].
      destruct (cell_nonneg _ _ _ _ Hcell) as (row & Hrow & Hentry); [lia..|].
      rewrite !Nat2Z.id in *.
      assert ((∀ e, entry = Some e → is_live w e = true) →
                pastry_purged w self me
                  (λ i' j', i' ∈ seen ∨ i' = i ∧ j' ∈ seenj ++ [j]) s2) as Hkeep.
      { intros He. split; [done|]. exists m.
        destruct Hstatic as (? & ? & ? & ? & ? & ? & ? & Hcells).
        split_and!; try done.
        intros i' j' row' e' [Hi'|[-> [Hj'| ->%list_elem_of_singleton]%elem_of_app]]
          Hrow' He'.
        - eapply Hcells; [by left|done..].
        - eapply Hcells; [by right|done..].
        - apply He. congruence. }
      destruct entry as [e|].
      + apply wp_bind, wp_gets. rewrite Hlive2.
        destruct (is_live w e) eqn:He; simpl.
        * apply wp_ret. apply Hkeep. by intros e' [= <-].
        * eapply purged_assign_cell; [done|done|].
          intros i' j' [Hi'|[-> [Hj'| ->%list_elem_of_singleton]%elem_of_app]]; auto.
      + apply wp_ret. by apply Hkeep.
    - intros s2 Hs2. eapply purged_weaken; [|done].
      intros i' j' [Hi'| ->%list_elem_of_singleton]%elem_of_app _ Hj'; [by left|].
      right. split; [done|]. apply elem_of_seq. lia. }
  intros s1 Hs1.
  assert (pastry_purged w self me (λ _ _, True) s1) as Hs1'.
  { eapply purged_weaken; [|done]. intros i j _ Hi _. apply elem_of_seq. lia. }
  clear Hs1.
  apply wp_bind, wp_deref; [|done]. intros m1 Hm1.
  apply (wp_for_each (pastry_purged w self me (λ _ _, True))); [done| |done].
  intros leaf_id s2 _ Hs2. apply wp_bind, wp_gets.
  destruct (get_node s2 leaf_id) as [lf|]; [|by apply wp_ret].
  apply wp_bind.
  eapply wp_mono; [by apply purged_learn_ids| |done].
  intros [] s3 Hs3. by apply purged_learn_routing_table.
Qed.


End PastryPurge.

(** X25.  Stabilization of a Pastry node, from any state a driver can
    reach: when [stabilize] returns, the registry is what it was, and every
    id in the node's leaf set and every entry of its routing table is
    registered, the ids it has just learnt from its leaves included. *)
Theorem pastry_stabilize_purges {V} (w w' : World (Pastry.PastryNode V)) (self : Z)
    (me : Pastry.PastryNode V) :
  reachable Pastry.exec w → objects w !! self = Some me →
  Pastry.stabilize self w = (w', Ok tt) →
  (∀ x, is_live w' x = is_live w x)
  ∧ ∃ me', objects w' !! self = Some me'
      ∧ (∀ x, x ∈ Pastry.leaf_set me' → is_live w' x = true)
      ∧ (∀ x, x ∈ Pastry.entries (Pastry.routing_table me') → is_live w' x = true).
Proof.
  intros Hw Hme Hrun.
  pose proof (pastry_tidy_built me (pastry_reachable_tidy w Hw self me Hme)) as Hbuilt.
  pose proof (wp_elim _ _ _ _ _ _ (pastry_stabilize_purged w self me Hme Hbuilt) Hrun)
    as (Hlive & m & Hm & _ & _ & _ & _ & _ & _ & Hleaf & Hcells).
  split; [done|]. exists m. split_and!; [done| |].
  - intros x Hx. rewrite Hlive. by apply Hleaf.
  - intros x (i & j & row & Hi & Hj)%elem_of_entries. rewrite Hlive.
    by eapply Hcells.
Qed.

Lemma pastry_stabilize_purges_witness :
  reachable Pastry.exec pastry_trio
  ∧ objects pastry_trio !! 512%Z = Some pastry_trio_node
  ∧ ∃ w', Pastry.stabilize 512 pastry_trio = (w', Ok tt)
      ∧ ∃ me', objects w' !! 512%Z = Some me'
          ∧ (∀ x, x ∈ Pastry.leaf_set me' → is_live w' x = true)
          ∧ (∀ x, x ∈ Pastry.entries (Pastry.routing_table me') →
               is_live w' x = true).
Proof.
  assert (reachable Pastry.exec pastry_trio) as Hp
    by (apply reachable_run; constructor).
  assert (objects pastry_trio !! 512%Z = Some pastry_trio_node) as Hpn
    by (vm_compute; reflexivity).
  refine (conj Hp (conj Hpn _)). eexists.
  assert (∀ w', Pastry.stabilize 512 pastry_trio = (w', Ok tt) →
            Pastry.stabilize 512 pastry_trio = (w', Ok tt)
            ∧ ∃ me', objects w' !! 512%Z = Some me'
                ∧ (∀ x, x ∈ Pastry.leaf_set me' → is_live w' x = true)
                ∧ (∀ x, x ∈ Pastry.entries (Pastry.routing_table me') →
                     is_live w' x = true)) as Hstep.
  { intros w' Hrun.
    exact (conj Hrun
             (proj2 (pastry_stabilize_purges pastry_trio w' 512 pastry_trio_node
                       Hp Hpn Hrun))). }
  apply Hstep. vm_compute. reflexivity.
Defined.

Section PastryDeparture.
Context {V : Type}.
Implicit Types (n m me : Pastry.PastryNode V) (w s : World (Pastry.PastryNode V)).

Lemma keeps_id_updated gone s r (f : Pastry.PastryNode V → Pastry.PastryNode V) :
  (∀ n, Pastry.node_id (f n) = Pastry.node_id n) →
  (∃ m, objects s !! gone = Some m ∧ Pastry.node_id m = gone) →
  ∃ m, objects (updated r f s) !! gone = Some m ∧ Pastry.node_id m = gone.
Proof.
  intros Hf (m & Hm & Hid). unfold updated. simpl.
  destruct (decide (gone = r)) as [<-|Hne].
  - exists (f m). rewrite lookup_alter_eq, Hm. split; [done|]. by rewrite Hf.
  - exists m. by rewrite lookup_alter_ne.
Qed.

Lemma pastry_leave_notify_keeps_id gone fuel self i messages s :
  (∃ m, objects s !! gone = Some m ∧ Pastry.node_id m = gone) →
  wp (Pastry.leave_notify fuel self i messages)
     (λ _ s', ∃ m, objects s' !! gone = Some m ∧ Pastry.node_id m = gone)
     (λ _, True) s.
Proof.
  revert i messages s. induction fuel as [|fuel IH]; intros i messages s Hs; simpl.
  { by apply wp_ret. }
  apply wp_bind, wp_deref; [|done]. intros me Hme.
  destruct (Pastry.leaf_set me !! i) as [leaf_id|]; [|by apply wp_ret].
  apply wp_bind, wp_gets.
  destruct (get_node s leaf_id) as [lf|]; [|by apply IH].
  apply wp_bind.
  apply (wp_mono _ (λ _ s', ∃ m, objects s' !! gone = Some m ∧ Pastry.node_id m = gone)
           _ (λ _, True)); [| |done].
  { destruct (mem _ _); [|by apply wp_ret]. apply wp_update.
    by apply keeps_id_updated. }
  intros [] s1 Hs1. cbv beta. apply wp_bind, wp_update. apply IH.
  by apply keeps_id_updated.
Qed.

Lemma pastry_leave_unregisters gone mg w :
  objects w !! gone = Some mg → Pastry.node_id mg = gone →
  wp (Pastry.leave gone) (λ _ s, gone ∉ nodes (network s)) (λ _, True) w.
Proof.
  intros Hmg Hid. unfold Pastry.leave.
  apply wp_bind, wp_deref; [|done]. intros me0 _.
  apply wp_bind.
  eapply wp_mono; [apply (pastry_leave_notify_keeps_id gone); by eauto| |done].
  intros messages s (m & Hm & Hidm). cbv beta.
  apply wp_bind, wp_deref; [|done]. intros me Hme.
  assert (me = m) as -> by congruence.
  apply wp_bind.
  apply (wp_mono _ (λ _ s', True) _ (λ _, True)); [apply wp_any| |done].
  intros [] s1 _. cbv beta. apply wp_bind, wp_on_network, wp_ret.
  simpl. rewrite Hidm. set_solver.
Qed.

End PastryDeparture.

(** X26.  Departure and clean-up on Pastry: after a node has left, the
    next [stabilize] of any other node leaves that node without the
    departed id, in its leaf set and in its routing table alike. *)
Theorem pastry_leave_then_stabilize {V} (w w1 w2 : World (Pastry.PastryNode V))
    (gone self messages : Z) (mg me' : Pastry.PastryNode V) :
  reachable Pastry.exec w →
  objects w !! gone = Some mg → Pastry.node_id mg = gone →
  Pastry.leave gone w = (w1, Ok messages) →
  Pastry.stabilize self w1 = (w2, Ok tt) →
  objects w2 !! self = Some me' →
  get_node w2 gone = None
  ∧ (gone ∉ Pastry.leaf_set me')
  ∧ (gone ∉ Pastry.entries (Pastry.routing_table me')).
Proof.
  intros Hw Hmg Hid Hleave Hstab Hme'.
  assert (reachable Pastry.exec w1) as Hw1.
  { replace w1 with (fst (Pastry.exec (Pastry.Leave gone) w)); [by constructor|].
    simpl. unfold discard, bind. by rewrite Hleave. }
  pose proof (wp_elim _ _ _ _ _ _ (pastry_leave_unregisters gone mg w Hmg Hid) Hleave)
    as Hgone.
  assert (is_live w1 gone = false) as Hdead.
  { unfold is_live, get_node. by rewrite decide_False. }
  destruct (objects w1 !! self) as [me1|] eqn:Hme1.
  2:{ unfold Pastry.stabilize, bind, deref in Hstab. by rewrite Hme1 in Hstab. }
  pose proof (pastry_tidy_built me1 (pastry_reachable_tidy w1 Hw1 self me1 Hme1))
    as Hbuilt.
  pose proof (wp_elim _ _ _ _ _ _ (pastry_stabilize_purged w1 self me1 Hme1 Hbuilt) Hstab)
    as (Hlive & m & Hm & _ & _ & _ & _ & _ & _ & Hleaf & Hcells).
  assert (m = me') as -> by congruence.
  split_and!.
  - specialize (Hlive gone). rewrite Hdead in Hlive. unfold is_live in Hlive.
    by destruct (get_node w2 gone).
  - intros Hin. specialize (Hleaf gone Hin). congruence.
  - intros (i & j & row & Hi & Hj)%elem_of_entries.
    specialize (Hcells i j row gone I Hi Hj). congruence.
Qed.

Lemma pastry_leave_then_stabilize_witness :
  reachable Pastry.exec pastry_trio
  ∧ ∃ mg w1 w2 messages me',
      objects pastry_trio !! 256%Z = Some mg ∧ Pastry.node_id mg = 256%Z
      ∧ Pastry.leave 256 pastry_trio = (w1, Ok messages)
      ∧ Pastry.stabilize 512 w1 = (w2, Ok tt)
      ∧ objects w2 !! 512%Z = Some me'
      ∧ get_node w2 256 = None
      ∧ (256%Z ∉ Pastry.leaf_set me')
      ∧ (256%Z ∉ Pastry.entries (Pastry.routing_table me')).
Proof.
  assert (reachable Pastry.exec pastry_trio) as Hp
    by (apply reachable_run; constructor).
  refine (conj Hp _). eexists _, _, _, _, _.
  assert (∀ mg w1 w2 messages me',
            objects pastry_trio !! 256%Z = Some mg → Pastry.node_id mg = 256%Z →
            Pastry.leave 256 pastry_trio = (w1, Ok messages) →
            Pastry.stabilize 512 w1 = (w2, Ok tt) →
            objects w2 !! 512%Z = Some me' →
            objects pastry_trio !! 256%Z = Some mg ∧ Pastry.node_id mg = 256%Z
            ∧ Pastry.leave 256 pastry_trio = (w1, Ok messages)
            ∧ Pastry.stabilize 512 w1 = (w2, Ok tt)
            ∧ objects w2 !! 512%Z = Some me'
            ∧ get_node w2 256 = None
            ∧ (256%Z ∉ Pastry.leaf_set me')
            ∧ (256%Z ∉ Pastry.entries (Pastry.routing_table me'))) as Hstep.
  { intros mg w1 w2 messages me' Hmg Hid Hleave Hstab Hme'.
    exact (conj Hmg (conj Hid (conj Hleave (conj Hstab (conj Hme'
             (pastry_leave_then_stabilize pastry_trio w1 w2 256 512 messages mg me'
                Hp Hmg Hid Hleave Hstab Hme')))))). }
  apply Hstep; vm_compute; reflexivity.
Defined.

(** ** Kademlia: what a lookup leaves alone *)

Section KademliaLookupFrame.
Context {V : Type}.
Implicit Types (n me : Kademlia.KademliaNode V) (w s : World (Kademlia.KademliaNode V)).

Lemma kademlia_frame_stable w :
  touch_stable
    (λ s, network s = network w
          ∧ ∀ i, option_Forall2
                   (λ n' n, Kademlia.set_buckets [] n' = Kademlia.set_buckets [] n
                            ∧ length (Kademlia.buckets n') = length (Kademlia.buckets n))
                   (objects s !! i) (objects w !! i)).
Proof.
  intros s r me nid bs [Hnet Hobj] Hr (_ & bucket & _ & Hbs). split; [done|].
  intros i. unfold updated. simpl.
  destruct (decide (i = r)) as [->|Hne]; [|by rewrite lookup_alter_ne].
  rewrite lookup_alter_eq. specialize (Hobj r). rewrite Hr in Hobj |- *. simpl.
  inversion Hobj as [? n [Hsame Hlen] Heq1 Heq2|]. constructor. split; [done|].
  simpl. rewrite <- Hlen.
  destruct Hbs as [[_ ->]|(_ & _ & ->)]; by rewrite length_insert.
Qed.

End KademliaLookupFrame.

(** X27.  What a Kademlia lookup leaves alone: however [lookup] and
    [retrieve] end, the registry is what it was, no node object appears or
    disappears, and every node keeps its id, its parameters, its stored
    data and its number of buckets; only the contents of buckets change. *)
Theorem kademlia_lookup_frame {V} (w : World (Kademlia.KademliaNode V)) (self kk : Z) :
  ∀ w', w' = fst (Kademlia.lookup self kk w) ∨ w' = fst (Kademlia.retrieve self kk w) →
    network w' = network w
    ∧ ∀ i, option_Forall2
             (λ n' n, Kademlia.node_id n' = Kademlia.node_id n
                      ∧ Kademlia.id_bits n' = Kademlia.id_bits n
                      ∧ Kademlia.data n' = Kademlia.data n
                      ∧ Kademlia.k n' = Kademlia.k n
                      ∧ Kademlia.alpha n' = Kademlia.alpha n
                      ∧ length (Kademlia.buckets n') = length (Kademlia.buckets n))
             (objects w' !! i) (objects w !! i).
Proof.
  set (I := λ s : World (Kademlia.KademliaNode V),
         network s = network w
         ∧ ∀ i, option_Forall2
                  (λ n' n, Kademlia.set_buckets [] n' = Kademlia.set_buckets [] n
                           ∧ length (Kademlia.buckets n') = length (Kademlia.buckets n))
                  (objects s !! i) (objects w !! i)).
  assert (I w) as Hinit.
  { split; [done|]. intros i. by destruct (objects w !! i); constructor. }
  assert (∀ s, I s →
            network s = network w
            ∧ ∀ i, option_Forall2
                     (λ n' n, Kademlia.node_id n' = Kademlia.node_id n
                              ∧ Kademlia.id_bits n' = Kademlia.id_bits n
                              ∧ Kademlia.data n' = Kademlia.data n
                              ∧ Kademlia.k n' = Kademlia.k n
                              ∧ Kademlia.alpha n' = Kademlia.alpha n
                              ∧ length (Kademlia.buckets n')
                                = length (Kademlia.buckets n))
                     (objects s !! i) (objects w !! i)) as Hfields.
  { intros s [Hnet Hobj]. split; [done|]. intros i.
    destruct (Hobj i) as [n' n [Hsame Hlen]|]; constructor.
    destruct n', n. simpl in *. by injection Hsame as -> -> -> -> ->. }
  intros w' [-> | ->]; apply Hfields.
  - apply wp_final. apply (lookup_touch I); [apply kademlia_frame_stable|done].
  - apply wp_final. unfold Kademlia.retrieve.
    wp_apply (lookup_touch I); [apply kademlia_frame_stable|done|].
    intros result s Hs. wp_read.
Qed.

Lemma kademlia_lookup_frame_witness :
  fst (Kademlia.lookup 0 6 kademlia_chain) ≠ kademlia_chain
  ∧ network (fst (Kademlia.lookup 0 6 kademlia_chain)) = network kademlia_chain.
Proof.
  split; [vm_compute; congruence|].
  exact (proj1 (kademlia_lookup_frame kademlia_chain 0 6 _ (or_introl eq_refl))).
Defined.


(** ** Chord: a departing node hands its data to its successor *)

Section ChordLeave.
Context {V : Type}.
Implicit Types (n me sn : Chord.ChordNode V) (w s : World (Chord.ChordNode V)).

Lemma chord_leave_hand_over w (self : Z) me sn :
  objects w !! self = Some me → Chord.node_id me = self →
  Chord.successor me ≠ self → get_node w (Chord.successor me) = Some sn →
  wp (Chord.leave self)
     (λ _ s, get_node s self = None
             ∧ ∃ sn', objects s !! Chord.successor me = Some sn'
                      ∧ Chord.data sn' = Chord.data me ∪ Chord.data sn)
     (λ _, True) w.
Proof.
  intros Hme Hid Hsucc Hsn.
  apply get_node_Some in Hsn as [Hsn Hreg].
  set (J := λ s : World (Chord.ChordNode V),
         network s = network w ∧ objects s !! self = Some me
         ∧ ∃ sn1, objects s !! Chord.successor me = Some sn1
                  ∧ Chord.data sn1 = Chord.data sn).
  assert (∀ s r (f : Chord.ChordNode V → Chord.ChordNode V),
            r ≠ self → (∀ n, Chord.data (f n) = Chord.data n) →
            J s → J (updated r f s)) as Hupd.
  { intros s r f Hr Hf (Hnet & Hself & sn1 & Hsn1 & Hdata). split_and!; [done| |].
    - unfold updated. simpl. by rewrite lookup_alter_ne.
    - unfold updated. simpl.
      destruct (decide (Chord.successor me = r)) as [<-|Hne].
      + exists (f sn1). rewrite lookup_alter_eq, Hsn1. split; [done|].
        by rewrite Hf.
      + exists sn1. by rewrite lookup_alter_ne. }
  assert (J w) as Hw by (split_and!; [done|done|by exists sn]).
  unfold Chord.leave.
  apply wp_bind, wp_deref; [|done]. intros n Hn. assert (n = me) as -> by congruence.
  apply wp_bind. apply (wp_mono _ (λ _, J) _ (λ _, True)); [| |done].
  { destruct (negb _); [|by apply wp_ret].
    apply wp_bind, wp_gets. destruct (get_node w _); [|by apply wp_ret].
    apply wp_bind, wp_update, wp_ret. by apply Hupd. }
  intros messages s Hs. cbv beta.
  apply wp_bind, wp_deref; [|done]. intros n1 Hn1.
  assert (n1 = me) as -> by (destruct Hs as (_ & ? & _); congruence).
  apply wp_bind. apply (wp_mono _ (λ _, J) _ (λ _, True)); [| |done].
  { destruct (Chord.predecessor me) as [p|]; [|by apply wp_ret].
    destruct (Z.eqb_spec p (Chord.node_id me)) as [|Hp]; simpl; [by apply wp_ret|].
    rewrite Hid in Hp.
    apply wp_bind, wp_gets. destruct (get_node s p); [|by apply wp_ret].
    apply wp_bind, wp_update.
    assert (J (updated p (Chord.set_successor (Chord.successor me)) s)) as Hs1
      by (by apply Hupd).
    apply wp_bind. unfold Chord.assign_finger.
    apply wp_bind, wp_deref; [|done]. intros pn Hpn.
    case_decide; [|done]. apply wp_update, wp_ret. by apply Hupd. }
  intros messages' s1 (Hnet & Hself & sn1 & Hsn1 & Hdata). cbv beta.
  apply wp_bind, wp_deref; [|done]. intros n2 Hn2.
  assert (n2 = me) as -> by congruence.
  apply wp_bind.
  destruct (Z.eqb_spec (Chord.successor me) (Chord.node_id me)) as [Heq|_];
    [congruence|]. simpl.
  apply wp_bind, wp_gets.
  assert (get_node s1 (Chord.successor me) = Some sn1) as ->.
  { unfold get_node. rewrite Hnet. by rewrite decide_True. }
  apply wp_update. apply wp_bind, wp_on_network, wp_ret. split.
  - unfold get_node. simpl. rewrite Hid. rewrite decide_False; [done|].
    unfold unregister. simpl. set_solver.
  - exists (Chord.set_data (Chord.data me ∪ Chord.data sn1) sn1). simpl.
    rewrite lookup_alter_eq, Hsn1. split; [done|]. simpl. by rewrite Hdata.
Qed.

End ChordLeave.

(** X28.  A departing Chord node hands over its data: when [leave]
    returns for a node whose successor is another, registered node, the
    node is no longer registered and the successor's data is its former
    data overwritten with the departed node's, so the successor answers
    for every key the departed node held. *)
Theorem chord_leave_hands_over {V} (w w' : World (Chord.ChordNode V)) (self messages : Z)
    (me sn : Chord.ChordNode V) :
  objects w !! self = Some me → Chord.node_id me = self →
  Chord.successor me ≠ self → get_node w (Chord.successor me) = Some sn →
  Chord.leave self w = (w', Ok messages) →
  get_node w' self = None
  ∧ ∃ sn', objects w' !! Chord.successor me = Some sn'
      ∧ Chord.data sn' = Chord.data me ∪ Chord.data sn
      ∧ ∀ kk v, Chord.data me !! kk = Some v → Chord.data sn' !! kk = Some v.
Proof.
  intros Hme Hid Hsucc Hsn Hrun.
  destruct (wp_elim _ _ _ _ _ _ (chord_leave_hand_over w self me sn Hme Hid Hsucc Hsn) Hrun)
    as (Hgone & sn' & Hsn' & Hdata).
  split; [done|]. exists sn'. split_and!; [done|done|].
  intros kk v Hkk. rewrite Hdata. by apply lookup_union_Some_l.
Qed.

Lemma chord_leave_hands_over_witness :
  ∃ me sn w' messages,
    objects chord_ring_stored !! 1%Z = Some me ∧ Chord.node_id me = 1%Z
    ∧ Chord.successor me = 3%Z ∧ Chord.data me !! 1%Z = Some "v"
    ∧ get_node chord_ring_stored 3 = Some sn
    ∧ Chord.leave 1 chord_ring_stored = (w', Ok messages)
    ∧ get_node w' 1 = None
    ∧ ∃ sn', objects w' !! Chord.successor me = Some sn'
        ∧ Chord.data sn' !! 1%Z = Some "v".
Proof.
  eexists _, _, _, _.
  assert (∀ me sn w' messages,
            objects chord_ring_stored !! 1%Z = Some me → Chord.node_id me = 1%Z →
            Chord.successor me = 3%Z → Chord.data me !! 1%Z = Some "v" →
            get_node chord_ring_stored 3 = Some sn →
            Chord.leave 1 chord_ring_stored = (w', Ok messages) →
            objects chord_ring_stored !! 1%Z = Some me ∧ Chord.node_id me = 1%Z
            ∧ Chord.successor me = 3%Z ∧ Chord.data me !! 1%Z = Some "v"
            ∧ get_node chord_ring_stored 3 = Some sn
            ∧ Chord.leave 1 chord_ring_stored = (w', Ok messages)
            ∧ get_node w' 1 = None
            ∧ ∃ sn', objects w' !! Chord.successor me = Some sn'
                ∧ Chord.data sn' !! 1%Z = Some "v") as Hstep.
  { intros me sn w' messages Hme Hid Hsucc Hdata Hsn Hrun.
    assert (Chord.successor me ≠ 1%Z) as Hne by (rewrite Hsucc; lia).
    assert (get_node chord_ring_stored (Chord.successor me) = Some sn) as Hsn'
      by (rewrite Hsucc; exact Hsn).
    destruct (chord_leave_hands_over chord_ring_stored w' 1 messages me sn
                Hme Hid Hne Hsn' Hrun) as (Hgone & sn1 & Hsn1 & _ & Hkeys).
    refine (conj Hme (conj Hid (conj Hsucc (conj Hdata (conj Hsn (conj Hrun
              (conj Hgone _))))))).
    exists sn1. exact (conj Hsn1 (Hkeys 1%Z "v" Hdata)). }
  apply Hstep; vm_compute; reflexivity.
Defined.

(** ** Pastry: the digits of an identifier determine it *)

Lemma testbit_above (x n p : Z) :
  (0 ≤ x < 2 ^ n)%Z → (0 ≤ n ≤ p)%Z → Z.testbit x p = false.
Proof.
  intros Hx Hp. rewrite <- (Z.mod_small x (2 ^ n)) by done.
  by apply Z.mod_pow2_bits_high.
Qed.

Lemma digit_testbit (x s b t : Z) :
  (0 ≤ s)%Z → (0 ≤ t < b)%Z →
  Z.testbit (Z.land (Z.shiftr x s) (2 ^ b - 1)) t = Z.testbit x (t + s).
Proof.
  intros Hs Ht. rewrite Z.land_spec, Z.shiftr_spec by lia.
  replace (2 ^ b - 1)%Z with (Z.ones b) by (rewrite Z.ones_equiv; lia).
  rewrite Z.ones_spec_low by lia. by rewrite andb_true_r.
Qed.

Section PastryDigitsInjective.
Context {V : Type}.
Implicit Types (self : Pastry.PastryNode V).

Lemma digits_cover_space self :
  pastry_node_built self → (0 ≤ Pastry.id_bits self)%Z →
  (0 ≤ Pastry.num_digits self)%Z
  ∧ (Pastry.id_bits self ≤ Pastry.num_digits self * Pastry.b self)%Z.
Proof.
  intros (_ & Hb & Hnd & _) Hbits. rewrite Hnd.
  pose proof (Z.div_mod (Pastry.id_bits self + Pastry.b self - 1) (Pastry.b self)
                ltac:(lia)) as Hdm.
  pose proof (Z.mod_pos_bound (Pastry.id_bits self + Pastry.b self - 1)
                (Pastry.b self) ltac:(lia)) as Hmod.
  split; [apply Z.div_pos; lia|]. nia.
Qed.

Lemma equal_digits_equal_ids self x y :
  pastry_node_built self → Pastry.base self = (2 ^ Pastry.b self)%Z →
  (0 ≤ x < Pastry.id_space self)%Z → (0 ≤ y < Pastry.id_space self)%Z →
  (∀ i : nat, (Z.of_nat i < Pastry.num_digits self)%Z →
     Pastry._get_digit self x (Z.of_nat i) = Pastry._get_digit self y (Z.of_nat i)) →
  x = y.
Proof.
  intros Hbuilt Hbase Hx Hy Hdigits. pose proof Hbuilt as (_ & Hb & _).
  unfold Pastry.id_space in *.
  assert (0 ≤ Pastry.id_bits self)%Z as Hbits.
  { destruct (Z.lt_ge_cases (Pastry.id_bits self) 0) as [Hneg|]; [|done].
    rewrite Z.pow_neg_r in Hx by done. lia. }
  destruct (digits_cover_space self Hbuilt Hbits) as [Hnd Hcover].
  apply Z.bits_inj'. intros p Hp.
  destruct (Z.lt_ge_cases p (Pastry.num_digits self * Pastry.b self)) as [Hlow|Hhigh].
  2:{ rewrite (testbit_above x (Pastry.id_bits self) p),
        (testbit_above y (Pastry.id_bits self) p); [done|done|lia|done|lia]. }
  set (q := (p / Pastry.b self)%Z). set (t := (p mod Pastry.b self)%Z).
  assert (p = t + q * Pastry.b self)%Z as Hpq.
  { subst q t. pose proof (Z.div_mod p (Pastry.b self) ltac:(lia)). lia. }
  assert (0 ≤ t < Pastry.b self)%Z as Ht by (apply Z.mod_pos_bound; lia).
  assert (0 ≤ q < Pastry.num_digits self)%Z as Hq.
  { split; [apply Z.div_pos; lia|]. apply Z.div_lt_upper_bound; lia. }
  specialize (Hdigits (Z.to_nat (Pastry.num_digits self - 1 - q)) ltac:(lia)).
  rewrite Z2Nat.id in Hdigits by lia. unfold Pastry._get_digit in Hdigits.
  replace ((Pastry.num_digits self - 1 - (Pastry.num_digits self - 1 - q))
           * Pastry.b self)%Z with (q * Pastry.b self)%Z in Hdigits by lia.
  destruct (Z.ltb_spec (q * Pastry.b self) 0); [nia|].
  injection Hdigits as Hdigits. rewrite Hbase in Hdigits.
  apply (f_equal (λ d, Z.testbit d t)) in Hdigits.
  rewrite !digit_testbit in Hdigits by lia. by rewrite Hpq.
Qed.

End PastryDigitsInjective.

(** X29.  The digits of an identifier determine it: for a Pastry node as
    the constructor builds it (with [base = 2^b]) and two ids of its
    identifier space, [_shared_prefix_length] returns [num_digits] exactly
    when the ids are equal; for distinct ids it returns a position below
    [num_digits], so that every other id has a cell of the routing table
    it belongs to. *)
Theorem pastry_shared_prefix_full {V} (self : Pastry.PastryNode V) (x y : Z) :
  pastry_node_built self → Pastry.base self = (2 ^ Pastry.b self)%Z →
  (0 ≤ x < Pastry.id_space self)%Z → (0 ≤ y < Pastry.id_space self)%Z →
  (Pastry._shared_prefix_length self x y = Ok (Pastry.num_digits self) ↔ x = y)
  ∧ (x ≠ y →
     ∃ plen, Pastry._shared_prefix_length self x y = Ok plen
             ∧ (0 ≤ plen < Pastry.num_digits self)%Z).
Proof.
  intros Hbuilt Hbase Hx Hy. pose proof Hbuilt as (Hok & _).
  destruct (shared_prefix_length_ok self x y Hok) as (plen & Hplen & Hrange).
  pose proof (shared_prefix_length_spec self x y plen Hplen) as [Hpre Hstop].
  assert (plen = Pastry.num_digits self → x = y) as Hfull.
  { intros ->. apply (equal_digits_equal_ids self); [done..|].
    intros i Hi. by apply Hpre. }
  assert (x = y → plen = Pastry.num_digits self) as Hsame.
  { intros ->. destruct Hstop as [->|(i & _ & _ & Hdiff)]; done. }
  split.
  - rewrite Hplen. split; [intros [= ->]; by apply Hfull|].
    intros Hxy. by rewrite (Hsame Hxy).
  - intros Hne. exists plen. split; [done|].
    destruct Hrange as [->|Hrange]; [|done]. by destruct Hne; apply Hfull.
Qed.

Lemma pastry_shared_prefix_full_witness :
  pastry_node_built pastry_trio_node
  ∧ Pastry.base pastry_trio_node = (2 ^ Pastry.b pastry_trio_node)%Z
  ∧ (0 ≤ 512 < Pastry.id_space pastry_trio_node)%Z
  ∧ (0 ≤ 256 < Pastry.id_space pastry_trio_node)%Z
  ∧ (512 : Z) ≠ 256%Z
  ∧ ∃ plen, Pastry._shared_prefix_length pastry_trio_node 512 256 = Ok plen
            ∧ (0 ≤ plen < Pastry.num_digits pastry_trio_node)%Z.
Proof.
  assert (pastry_node_built pastry_trio_node) as Hbuilt.
  { apply pastry_tidy_built.
    apply (pastry_reachable_tidy pastry_trio) with (i := 512%Z).
    - apply reachable_run. constructor.
    - vm_compute. reflexivity. }
  assert (Pastry.base pastry_trio_node = (2 ^ Pastry.b pastry_trio_node)%Z) as Hbase
    by reflexivity.
  assert (0 ≤ 512 < Pastry.id_space pastry_trio_node)%Z as Hx
    by (vm_compute; split; congruence).
  assert (0 ≤ 256 < Pastry.id_space pastry_trio_node)%Z as Hy
    by (vm_compute; split; congruence).
  assert ((512 : Z) ≠ 256%Z) as Hne by lia.
  exact (conj Hbuilt (conj Hbase (conj Hx (conj Hy (conj Hne
           (proj2 (pastry_shared_prefix_full pastry_trio_node 512 256
                     Hbuilt Hbase Hx Hy) Hne)))))).
Defined.

(** ** Pastry: where a departing node's data goes *)

Section PastryLeaveData.
Context {V : Type}.
Implicit Types (n m me : Pastry.PastryNode V) (w s : World (Pastry.PastryNode V)).


End PastryLeaveData.


